(** * gif_decode: a shallow embedding of the GIF decoder and viewer loop

    The development follows [gif_decode.cpp]: the bit-string assembly and
    [fetch_code], the LZW table and decode loop, the block parser, the
    interlace row table, the per-pixel compositing and the disposal switch
    of the playback loop.

    Conventions of the model.
    - C++ [int], [size_t] and [uint8_t] values are [Z]; the theorems state
      the ranges they rely on.  Bytes of the file are [Z] in [0, 256).
    - Reading a [std::vector] outside its bounds, or element 0 of an empty
      vector, is undefined behaviour in the source; the model stops with
      the error [UndefinedBehaviour].  A failed [assert] stops with
      [AssertionFailed], an uncaught [std::out_of_range] or
      [std::invalid_argument] with [UncaughtException].
    - [bytes[idx++] | (bytes[idx++] << 8)] is read low byte first, as the
      source's comment on little-endian storage says.
    - The [while] loops of the source run on fuel in the model; the fuel
      given is the length of the input, and [FuelFacts] shows that it is
      never what ends a run. *)

From Stdlib Require Import ZArith Lia List Ascii.
From stdpp Require Import base option list gmap.

Open Scope Z_scope.

(** ** Errors *)

Inductive error : Type :=
  | UndefinedBehaviour
  | AssertionFailed
  | UncaughtException
  | OutOfFuel.

Inductive result (A : Type) : Type :=
  | Ok (a : A)
  | Err (e : error).
Arguments Ok {A} a.
Arguments Err {A} e.

#[global] Instance result_ret : MRet result := fun A a => Ok a.
#[global] Instance result_bind : MBind result := fun A B k r =>
  match r with
  | Ok a => k a
  | Err e => Err e
  end.

Definition is_ok {A} (r : result A) : bool :=
  match r with Ok _ => true | Err _ => false end.

(** ** Small helpers of the source *)

(** Conversion of a byte to [int8_t] (two's complement). *)
Definition to_int8 (b : Z) : Z := if b mod 256 <? 128 then b mod 256 else b mod 256 - 256.

(** [get_bit(n, p)]: [(n & (1 << p)) != 0]. *)
Definition get_bit (n p : Z) : bool := negb (Z.land n (Z.shiftl 1 p) =? 0).

(** [get_val(n, p, l)]: [(n >> p) & ((1 << l) - 1)], returned as [int8_t]. *)
Definition get_val (n p l : Z) : Z := to_int8 (Z.land (Z.shiftr n p) (Z.shiftl 1 l - 1)).

(** [color_rgba(r, g, b, a)]: [(a << 24) | (r << 16) | (g << 8) | b] as
    [uint32_t]. *)
Definition color_rgba (r g b a : Z) : Z :=
  (Z.lor (Z.lor (Z.lor (Z.shiftl a 24) (Z.shiftl r 16)) (Z.shiftl g 8)) b) mod 2 ^ 32.

(** ** The bit string *)

Module BitStream.

Definition INT_MAX : Z := 2 ^ 31 - 1.

Definition bit_char (b : bool) : ascii := if b then "1"%char else "0"%char.

(** [std::bitset<8>(b).to_string()]: the eight low bits, most significant
    first. *)
Definition bitset8_to_string (b : Z) : list ascii :=
  map (fun i => bit_char (Z.testbit b i)) [7; 6; 5; 4; 3; 2; 1; 0].

(** The inner loop of the sub-block reader: each byte is converted and
    put IN FRONT of the stream. *)
Definition prepend_bytes (data : list Z) (stream : list ascii) : list ascii :=
  fold_left (fun s b => bitset8_to_string b ++ s) data stream.

(** The stream assembled from a whole payload. *)
Definition assemble (payload : list Z) : list ascii := prepend_bytes payload [].

(** Digits read by [strtol] in base 2: the longest prefix of binary
    digits, with its value; [None] when there is no digit. *)
Fixpoint binary_digits (acc : Z) (seen : bool) (s : list ascii) : option Z :=
  match s with
  | c :: s' =>
      if Ascii.eqb c "0" then binary_digits (2 * acc) true s'
      else if Ascii.eqb c "1" then binary_digits (2 * acc + 1) true s'
      else if seen then Some acc else None
  | [] => if seen then Some acc else None
  end.

(** [std::stoi(s, nullptr, 2)] on a string without leading blanks or
    sign: [invalid_argument] without a digit, [out_of_range] above
    [INT_MAX]. *)
Definition stoi2 (s : list ascii) : result Z :=
  match binary_digits 0 false s with
  | None => Err UncaughtException
  | Some v => if v <=? INT_MAX then Ok v else Err UncaughtException
  end.

(** [stream.substr(pos, n)]: [out_of_range] when [pos > size()]; a
    negative [int] converted to [size_t] is above every size. *)
Definition substr (stream : list ascii) (pos n : Z) : result (list ascii) :=
  if (pos <? 0) || (Z.of_nat (length stream) <? pos) then Err UncaughtException
  else Ok (take (Z.to_nat n) (drop (Z.to_nat pos) stream)).

(** [fetch_code(stream, pos, code_size)]; returns the code and the new
    [pos]. *)
Definition fetch_code (stream : list ascii) (pos code_size : Z) : result (Z * Z) :=
  let pos := pos - code_size in
  s ← substr stream pos code_size;
  c ← stoi2 s;
  Ok (c, pos).

(** Successive calls of [fetch_code] with one [pos], as the decoder makes
    them, for a given list of code sizes. *)
Fixpoint fetch_codes (stream : list ascii) (pos : Z) (widths : list nat)
  : result (list Z * Z) :=
  match widths with
  | [] => Ok ([], pos)
  | w :: widths =>
      '(c, pos) ← fetch_code stream pos (Z.of_nat w);
      '(cs, pos) ← fetch_codes stream pos widths;
      Ok (c :: cs, pos)
  end.

(** *** The bits of a payload in the order of the format *)

(** Bit [i] of a payload, counted from the least significant bit of the
    first byte: bit [i mod 8] of byte [i / 8]. *)
Definition payload_bit (payload : list Z) (i : nat) : bool :=
  Z.testbit (nth (i / 8) payload 0) (Z.of_nat (i mod 8)).

(** The integer whose bit [j] is bit [off + j] of the payload, for
    [j < w]. *)
Fixpoint bits_value (payload : list Z) (off w : nat) : Z :=
  match w with
  | O => 0
  | S w => 2 * bits_value payload (S off) w + Z.b2z (payload_bit payload off)
  end.

(** The code of [w] bits that the format holds next when [pos] bits of
    the payload are still to be taken: the payload bits from bit
    [8 * length payload - pos] on, least significant first. *)
Definition code_at (payload : list Z) (pos w : Z) : Z :=
  bits_value payload (8 * length payload - Z.to_nat pos) (Z.to_nat w).

(** All bits of a payload, least significant bit of the first byte
    first. *)
Definition lsb_bits (payload : list Z) : list bool :=
  b ← payload; (fun i => Z.testbit b i) <$> [0; 1; 2; 3; 4; 5; 6; 7].

(** The value of a list of bits, least significant first. *)
Definition bits_to_Z (bs : list bool) : Z :=
  fold_right (fun b acc => 2 * acc + Z.b2z b) 0 bs.

End BitStream.

(** ** The LZW code table and decode loop *)

Module LZW.
Import BitStream.

(** [std::unordered_map<int, std::vector<int>>]. *)
Abbreviation table_t := (gmap Z (list Z)).

(** [operator[]] inserts an empty vector under a key that is absent. *)
Definition touch (k : Z) (t : table_t) : table_t :=
  match t !! k with
  | Some _ => t
  | None => <[k := []]> t
  end.

(** The vector under a key that is there. *)
Definition at_key (t : table_t) (k : Z) : list Z := default [] (t !! k).

(** [table[dst] = table[src];] *)
Definition assign (dst src : Z) (t : table_t) : table_t :=
  let t1 := touch dst (touch src t) in
  <[dst := at_key t1 src]> t1.

(** [table[dst].push_back(table[src][0]);] reads element 0 of
    [table[src]], which does not exist when that vector is empty. *)
Definition push_back_first (dst src : Z) (t : table_t) : result table_t :=
  let t1 := touch dst (touch src t) in
  match at_key t1 src with
  | [] => Err UndefinedBehaviour
  | k :: _ => Ok (<[dst := at_key t1 dst ++ [k]]> t1)
  end.

(** [init_table(ncolors, code_size, clear_code, eoi_code)]. *)
Definition init_table (ncolors clear_code eoi_code : Z) : table_t :=
  let colors :=
    fold_left (fun t i => <[i := [i]]> t) (map Z.of_nat (seq 0 (Z.to_nat ncolors))) ∅ in
  <[eoi_code := []]> (<[clear_code := []]> colors).

(** Every entry of the table is a sequence of color indices below
    [ncolors]. *)
Definition entries_in_palette (ncolors : Z) (t : table_t) : Prop :=
  forall k v, t !! k = Some v -> Forall (fun i => 0 <= i < ncolors) v.

(** The variables of the decode loop. *)
Record state : Type := mkState {
  code_size : Z;
  table : table_t;
  table_index : Z;
  prev : Z;
  pos : Z;
  index_stream : list Z
}.

Inductive step_result : Type :=
  | Continue (st : state)
  | Break (st : state).

Section Decoder.
Variable ncolors : Z.
Variable lzw_min : Z.
Variable stream : list ascii.

Definition first_code_size : Z := lzw_min + 1.
Definition clear_code : Z := Z.shiftl 1 lzw_min.
Definition eoi_code : Z := clear_code + 1.

(** The statements before the loop: the first code is fetched and
    dropped, the second one is pushed to the output as it is. *)
Definition start : result state :=
  let code_size := first_code_size in
  let table := init_table ncolors clear_code eoi_code in
  let pos := Z.of_nat (length stream) in
  '(_, pos) ← fetch_code stream pos code_size;
  '(code, pos) ← fetch_code stream pos code_size;
  Ok (mkState code_size table (eoi_code + 1) code pos [code]).

(** The growth test at the end of the loop body. *)
Definition grow (t : table_t) (cs : Z) : Z :=
  if (Z.of_nat (size t) =? Z.shiftl 1 cs) && (cs <? 12) then cs + 1 else cs.

(** One iteration of [while (true)]. *)
Definition step (st : state) : result step_result :=
  '(code, pos) ← fetch_code stream (pos st) (code_size st);
  if code =? clear_code then
    let code_size := first_code_size in
    let table := init_table ncolors clear_code eoi_code in
    '(code, pos) ← fetch_code stream pos code_size;
    Ok (Continue (mkState code_size table (eoi_code + 1) code pos
                          (index_stream st ++ [code])))
  else if code =? eoi_code then
    Ok (Break (mkState (code_size st) (table st) (table_index st) (prev st) pos
                       (index_stream st)))
  else
    '(table, table_index, index_stream) ←
      match table st !! code with
      | None =>
          let t := assign code (prev st) (table st) in
          t ← push_back_first code (prev st) t;
          Ok (t, code, index_stream st ++ at_key t code)
      | Some entry =>
          let t := assign (table_index st) (prev st) (table st) in
          t ← push_back_first (table_index st) code t;
          Ok (t, table_index st, index_stream st ++ entry)
      end;
    Ok (Continue (mkState (grow table (code_size st)) table (table_index + 1) code pos
                          index_stream)).

(** [while (true)], left by [break]. *)
Fixpoint loop (fuel : nat) (st : state) : result state :=
  match fuel with
  | O => Err OutOfFuel
  | S fuel =>
      r ← step st;
      match r with
      | Continue st' => loop fuel st'
      | Break st' => Ok st'
      end
  end.

(** The whole decoder.  [1 << lzw_min] is an [int] shift: it is undefined
    from 32 on and not a positive [int] at 31, and the model stops in both
    cases.  Every iteration consumes at least one bit, so the length of
    the stream bounds the number of iterations. *)
Definition run : result state :=
  if (lzw_min <? 0) || (31 <=? lzw_min) then Err UndefinedBehaviour
  else st ← start; loop (S (length stream)) st.

(** The output, [index_stream]. *)
Definition decode : result (list Z) := st ← run; Ok (index_stream st).

(** The states the decoder goes through: the one before the loop and
    the one at the end of every iteration. *)
Inductive reachable : state -> Prop :=
  | reach_start (st : state) : start = Ok st -> reachable st
  | reach_step (st st' : state) :
      reachable st -> step st = Ok (Continue st') -> reachable st'.

End Decoder.

End LZW.

(** ** Blocks *)

Module Blocks.

Record Color : Type := mkColor { r : Z; g : Z; b : Z }.

Record Image : Type := mkImage {
  width : Z;
  height : Z;
  left : Z;
  top : Z;
  interlace : bool;
  ct : list Color;
  index : list Z
}.

Record GraphicsControl : Type := mkGraphicsControl {
  transparent : bool;
  user_input : bool;
  disposal_method : Z;
  delay_time : Z;
  color_index : Z
}.

Record ApplicationExtension : Type := mkApplicationExtension {
  appid : list Z;
  authcode : list Z;
  data_blocks : list (list Z)
}.

Record CommentBlock : Type := mkCommentBlock { comments : list (list ascii) }.

(** The class hierarchy under [GIFBlock], with [type] as the constructor. *)
Inductive GIFBlock : Type :=
  | BT_IMAGE (i : Image)
  | BT_GRAPHIC_CONTROL (gc : GraphicsControl)
  | BT_APPLICATION_EXTENSION (ae : ApplicationExtension)
  | BT_COMMENT_BLOCK (cb : CommentBlock).

Definition is_graphic_control (blk : GIFBlock) : bool :=
  match blk with BT_GRAPHIC_CONTROL _ => true | _ => false end.

(** The index of an image block holds [width * height] entries. *)
Definition image_sized (blk : GIFBlock) : Prop :=
  match blk with
  | BT_IMAGE i => Z.of_nat (length (index i)) = width i * height i
  | _ => True
  end.

End Blocks.

(** ** The parser: [main] up to the end of the block loop *)

Module Parser.
Import BitStream Blocks.

Section Bytes.
(** The content of the file. *)
Variable bytes : list Z.

(** [bytes[idx++]] *)
Definition read_byte (idx : nat) : result (Z * nat) :=
  match bytes !! idx with
  | Some x => Ok (x, S idx)
  | None => Err UndefinedBehaviour
  end.

(** [bytes[idx++] | (bytes[idx++] << 8)] *)
Definition read_u16 (idx : nat) : result (Z * nat) :=
  '(lo, idx) ← read_byte idx;
  '(hi, idx) ← read_byte idx;
  Ok (Z.lor lo (Z.shiftl hi 8), idx).

(** [for (i = 0; i < n; ++i) data.push_back(bytes[idx++]);] *)
Fixpoint read_bytes (n : nat) (idx : nat) : result (list Z * nat) :=
  match n with
  | O => Ok ([], idx)
  | S n =>
      '(x, idx) ← read_byte idx;
      '(xs, idx) ← read_bytes n idx;
      Ok (x :: xs, idx)
  end.

(** The loops that fill [gct] and [lct]. *)
Fixpoint read_colors (n : nat) (idx : nat) : result (list Color * nat) :=
  match n with
  | O => Ok ([], idx)
  | S n =>
      '(cr, idx) ← read_byte idx;
      '(cg, idx) ← read_byte idx;
      '(cb, idx) ← read_byte idx;
      '(cs, idx) ← read_colors n idx;
      Ok (mkColor cr cg cb :: cs, idx)
  end.

(** Header: only [bytes[4]] is looked at. *)
Definition check_header : result unit :=
  match bytes !! 4%nat with
  | None => Err UndefinedBehaviour
  | Some v => if v =? 0x39 then Ok tt else Err AssertionFailed
  end.

(** What [main] keeps of the logical screen descriptor. *)
Record Screen : Type := mkScreen {
  canvas_width : Z;
  canvas_height : Z;
  gct_flag : bool;
  bkgd_color_idx : Z;
  gct : list Color
}.

(** Logical screen descriptor and global color table; returns [idx]
    after them. *)
Definition read_screen : result (Screen * nat) :=
  '(w, _) ← read_u16 6;
  '(h, _) ← read_u16 8;
  '(pf, _) ← read_byte 10;
  let packed_field := to_int8 pf in
  let gct_flag := get_bit packed_field 7 in
  let N := get_val packed_field 4 3 in
  '(bk, _) ← read_byte 11;
  let ncolors := Z.shiftl 1 (N + 1) in
  '(gct, idx) ← (if gct_flag then read_colors (Z.to_nat ncolors) 13 else Ok ([], 13%nat));
  Ok (mkScreen w h gct_flag bk gct, idx).

(** The sub-block loop of an image: every data byte goes in front of
    [stream]. *)
Fixpoint read_stream (fuel : nat) (idx : nat) (stream : list ascii)
  : result (list ascii * nat) :=
  match fuel with
  | O => Err OutOfFuel
  | S fuel =>
      '(nbytes, idx) ← read_byte idx;
      if nbytes =? 0 then Ok (stream, idx)
      else
        '(data, idx) ← read_bytes (Z.to_nat nbytes) idx;
        read_stream fuel idx (prepend_bytes data stream)
  end.

(** The sub-block loops of the application and comment extensions. *)
Fixpoint read_sub_blocks (fuel : nat) (idx : nat) : result (list (list Z) * nat) :=
  match fuel with
  | O => Err OutOfFuel
  | S fuel =>
      '(nbytes, idx) ← read_byte idx;
      if nbytes =? 0 then Ok ([], idx)
      else
        '(data, idx) ← read_bytes (Z.to_nat nbytes) idx;
        '(rest, idx) ← read_sub_blocks fuel idx;
        Ok (data :: rest, idx)
  end.

(** The bytes of a chain of data sub-blocks: every block behind its
    size, and a zero behind the last. *)
Definition sub_block_layout (blocks : list (list Z)) : list Z :=
  concat (map (fun data => Z.of_nat (length data) :: data) blocks) ++ [0].

(** The sub-block loop of the plain text extension: [idx] jumps over
    the data without reading it. *)
Fixpoint skip_sub_blocks (fuel : nat) (idx : nat) : result nat :=
  match fuel with
  | O => Err OutOfFuel
  | S fuel =>
      '(nbytes, idx) ← read_byte idx;
      if nbytes =? 0 then Ok idx
      else skip_sub_blocks fuel (idx + Z.to_nat nbytes)%nat
  end.

(** [case 0x2C] up to [i.index = index_stream;]: the image descriptor,
    its color table, the stream and the LZW decoder. *)
Definition decode_image (fuel : nat) (gct : list Color) (idx : nat)
  : result (Image * nat) :=
  '(left, idx) ← read_u16 idx;
  '(top, idx) ← read_u16 idx;
  '(width, idx) ← read_u16 idx;
  '(height, idx) ← read_u16 idx;
  '(pf, idx) ← read_byte idx;
  let packed_field := to_int8 pf in
  let interlace := get_bit packed_field 6 in
  let lct_flag := get_bit packed_field 7 in
  let lct_size := get_val packed_field 0 3 in
  '(ct, idx) ← (if lct_flag then read_colors (Z.to_nat (Z.shiftl 1 (lct_size + 1))) idx
                 else Ok (gct, idx));
  '(lzw_min, idx) ← read_byte idx;
  let ncolors := Z.of_nat (length ct) in
  '(stream, idx) ← read_stream fuel idx [];
  index_stream ← LZW.decode ncolors lzw_min stream;
  Ok (mkImage width height left top interlace ct index_stream, idx).

(** [i.index.size() == i.width * i.height] *)
Definition index_fits (i : Image) : bool :=
  Z.of_nat (length (index i)) =? width i * height i.

(** [case 0x2C] with its [assert]. *)
Definition read_image (fuel : nat) (gct : list Color) (idx : nat)
  : result (Image * nat) :=
  '(i, idx) ← decode_image fuel gct idx;
  if index_fits i then Ok (i, idx) else Err AssertionFailed.

(** [case 0xF9] *)
Definition read_graphic_control (idx : nat) : result (GraphicsControl * nat) :=
  '(_, idx) ← read_byte idx;
  '(pk, idx) ← read_byte idx;
  let packed := to_int8 pk in
  '(delay, idx) ← read_u16 idx;
  '(ci, idx) ← read_byte idx;
  Ok (mkGraphicsControl (get_bit packed 0) (get_bit packed 1)
        ((get_val packed 2 3) mod 256) delay ci,
      S idx).

(** [case 0xFF]; [char] is taken as signed. *)
Definition read_application_extension (fuel : nat) (idx : nat)
  : result (ApplicationExtension * nat) :=
  '(_, idx) ← read_byte idx;
  '(id, idx) ← read_bytes 8 idx;
  '(auth, idx) ← read_bytes 3 idx;
  '(blocks, idx) ← read_sub_blocks fuel idx;
  Ok (mkApplicationExtension (map to_int8 id) (map to_int8 auth)
        (map (map to_int8) blocks), idx).

(** [case 0x01] *)
Definition skip_plain_text (fuel : nat) (idx : nat) : result nat :=
  '(skip, idx) ← read_byte idx;
  skip_sub_blocks fuel (idx + Z.to_nat skip)%nat.

(** [case 0xFE] *)
Definition read_comment (fuel : nat) (idx : nat) : result (CommentBlock * nat) :=
  '(blocks, idx) ← read_sub_blocks fuel idx;
  Ok (mkCommentBlock (map (map (fun x => ascii_of_N (Z.to_N x))) blocks), idx).

(** [while (!done)]: returns the list [blocks]. *)
Fixpoint read_blocks (fuel : nat) (gct : list Color) (idx : nat)
  (blocks : list GIFBlock) : result (list GIFBlock) :=
  match fuel with
  | O => Err OutOfFuel
  | S fuel' =>
      '(x, idx) ← read_byte idx;
      if x =? 0x2C then
        '(i, idx) ← read_image fuel gct idx;
        read_blocks fuel' gct idx (blocks ++ [BT_IMAGE i])
      else if x =? 0x21 then
        '(label, idx) ← read_byte idx;
        if label =? 0xF9 then
          '(gc, idx) ← read_graphic_control idx;
          read_blocks fuel' gct idx (blocks ++ [BT_GRAPHIC_CONTROL gc])
        else if label =? 0xFF then
          '(ae, idx) ← read_application_extension fuel idx;
          read_blocks fuel' gct idx (blocks ++ [BT_APPLICATION_EXTENSION ae])
        else if label =? 0x01 then
          idx ← skip_plain_text fuel idx;
          read_blocks fuel' gct idx blocks
        else if label =? 0xFE then
          '(cb, idx) ← read_comment fuel idx;
          read_blocks fuel' gct idx (blocks ++ [BT_COMMENT_BLOCK cb])
        else Ok blocks (* default: done = true *)
      else if x =? 0x3B then Ok blocks (* trailer: done = true *)
      else Ok blocks (* default: done = true *)
  end.

(** What the viewer loop uses of the file. *)
Record Gif : Type := mkGif {
  screen : Screen;
  blocks : list GIFBlock
}.

(** Everything [main] does before the window is created.  Each
    iteration of each loop reads a byte, so the length of the file
    bounds their number. *)
Definition parse : result Gif :=
  _ ← check_header;
  '(scr, idx) ← read_screen;
  blocks ← read_blocks (S (length bytes)) (gct scr) idx [];
  Ok (mkGif scr blocks).

End Bytes.

End Parser.

(** ** The viewer loop: [main] after the window is created *)

Module Playback.
Import Parser.

(** [v[i]] for an [int] index; [None] stands for an access outside the
    vector. *)
Definition lookupZ {A} (l : list A) (i : Z) : option A :=
  if i <? 0 then None else l !! Z.to_nat i.

(** [i] is an index of [l]. *)
Definition in_range {A} (l : list A) (i : Z) : bool :=
  (0 <=? i) && (i <? Z.of_nat (length l)).

(** [... = v[i];] *)
Definition read {A} (l : list A) (i : Z) : result A :=
  match lookupZ l i with
  | Some x => Ok x
  | None => Err UndefinedBehaviour
  end.

(** [v[i] = x;] *)
Definition write {A} (l : list A) (i : Z) (x : A) : result (list A) :=
  if in_range l i then Ok (<[Z.to_nat i := x]> l) else Err UndefinedBehaviour.

(** *** The row tables *)

(** [int row2[img_height]]: a slot holds nothing until it is assigned. *)
Abbreviation rows_t := (list (option nat)).

(** [for (i = start; i < h; i += d, j++) row2[i] = row1[j];] with
    [row1[j] = j] as long as [j < h]. *)
Fixpoint interlace_pass (fuel : nat) (i d h j : nat) (row2 : rows_t) : result (rows_t * nat) :=
  match fuel with
  | O => Err OutOfFuel
  | S fuel =>
      if (i <? h)%nat then
        if (j <? h)%nat then interlace_pass fuel (i + d) d h (S j) (<[i := Some j]> row2)
        else Err UndefinedBehaviour
      else Ok (row2, j)
  end.

(** The four passes of the interlaced branch. *)
Definition interlaced_rows (h : nat) : result rows_t :=
  let row2 := replicate h None in
  '(row2, j) ← interlace_pass (S h) 0 8 h 0 row2;
  '(row2, j) ← interlace_pass (S h) 4 8 h j row2;
  '(row2, j) ← interlace_pass (S h) 2 4 h j row2;
  '(row2, j) ← interlace_pass (S h) 1 2 h j row2;
  Ok row2.

(** [for (i = 0; i < h; ++i) row1[i] = row2[i] = i;] *)
Definition plain_rows (h : nat) : rows_t :=
  fold_left (fun row2 i => <[i := Some i]> row2) (seq 0 h) (replicate h None).

(** [row2] after [if (img->interlace) ... else ...]. *)
Definition row_table (interlace : bool) (h : nat) : result rows_t :=
  if interlace then interlaced_rows h else Ok (plain_rows h).

(** The rows [i, i + d, i + 2 d, ...] below [h], the rows one pass of an
    interlaced image holds; [fuel] bounds their number. *)
Fixpoint pass_rows (fuel : nat) (i d h : nat) : list nat :=
  match fuel with
  | O => []
  | S fuel => if (i <? h)%nat then i :: pass_rows fuel (i + d) d h else []
  end.

(** The rows of an interlaced image in the order in which the data holds
    them: every 8th row from 0, every 8th from 4, every 4th from 2, every
    2nd from 1. *)
Definition emitted_rows (h : nat) : list nat :=
  pass_rows (S h) 0 8 h ++ pass_rows (S h) 4 8 h ++
  pass_rows (S h) 2 4 h ++ pass_rows (S h) 1 2 h.

(** [row2[y] = j, j + 1, ...] for the rows [y] of a list. *)
Fixpoint assign_rows (rows : list nat) (j : nat) (row2 : rows_t) : rows_t :=
  match rows with
  | [] => row2
  | y :: rows => assign_rows rows (S j) (<[y := Some j]> row2)
  end.

(** [row2[y]] *)
Definition row_at (row2 : rows_t) (y : nat) : result nat :=
  match row2 !! y with
  | Some (Some v) => Ok v
  | _ => Err UndefinedBehaviour
  end.

(** *** Drawing *)

(** The pairs [(y, x)] in the order of the two nested [for] loops. *)
Definition coords (h w : nat) : list (nat * nat) :=
  y ← seq 0 h; x ← seq 0 w; [(y, x)].

(** [color_rgba(c.r, c.g, c.b, 255)] *)
Definition pixel_of (c : Blocks.Color) : Z :=
  color_rgba (Blocks.r c) (Blocks.g c) (Blocks.b c) 255.

Section Canvas.
Variable canvas_width : Z.

(** [(img_top + y) * canvas_width + (img_left + x)] *)
Definition offset (img_top img_left : Z) (y x : nat) : Z :=
  (img_top + Z.of_nat y) * canvas_width + (img_left + Z.of_nat x).

(** The body of the inner drawing loop. *)
Definition draw_pixel (img : Blocks.Image) (row2 : rows_t) (transparent : bool)
    (trans_idx : Z) (pixels : list Z) (yx : nat * nat) : result (list Z) :=
  let '(y, x) := yx in
  r2 ← row_at row2 y;
  index ← read (Blocks.index img) (Z.of_nat r2 * Blocks.width img + Z.of_nat x);
  if (transparent && negb (index =? trans_idx)) || negb transparent then
    c ← read (Blocks.ct img) index;
    write pixels (offset (Blocks.top img) (Blocks.left img) y x) (pixel_of c)
  else Ok pixels.

(** Transparency is on and the index of the pixel [(y, x)] is the
    transparent one. *)
Definition passed_over (img : Blocks.Image) (row2 : rows_t) (transparent : bool)
    (trans_idx : Z) (y x : nat) : Prop :=
  transparent = true /\
  exists r2, row_at row2 y = Ok r2 /\
    read (Blocks.index img) (Z.of_nat r2 * Blocks.width img + Z.of_nat x) = Ok trans_idx.

(** A [for] loop over the values of [l], with the variables it changes
    in [s]. *)
Fixpoint for_each {A S} (body : S -> A -> result S) (l : list A) (s : S) : result S :=
  match l with
  | [] => Ok s
  | a :: l => s ← body s a; for_each body l s
  end.

(** The [BT_IMAGE] branch: the row tables, then the two drawing loops. *)
Definition composite (img : Blocks.Image) (transparent : bool) (trans_idx : Z)
    (pixels : list Z) : result (list Z) :=
  let img_height := Z.to_nat (Blocks.height img) in
  let img_width := Z.to_nat (Blocks.width img) in
  row2 ← row_table (Blocks.interlace img) img_height;
  for_each (draw_pixel img row2 transparent trans_idx) (coords img_height img_width) pixels.

(** [case 2] of the disposal switch. *)
Definition clear_rect (bkgd_color : Z) (img_top img_left img_height img_width : Z)
    (pixels : list Z) : result (list Z) :=
  for_each (fun px '(y, x) => write px (offset img_top img_left y x) bkgd_color)
           (coords (Z.to_nat img_height) (Z.to_nat img_width)) pixels.

End Canvas.

(** The pixel [(cx, cy)] of the canvas lies in the rectangle of the
    image. *)
Definition in_rect (img_top img_left img_height img_width cx cy : Z) : bool :=
  (img_left <=? cx) && (cx <? img_left + img_width) &&
  (img_top <=? cy) && (cy <? img_top + img_height).

(** *** The loop *)

(** The local variables of [main] that the loop changes; [next] is the
    block index [i]. *)
Record viewer : Type := mkViewer {
  next : nat;
  delay : Z;
  disposal : Z;
  doRender : bool;
  img_left : Z;
  img_top : Z;
  img_width : Z;
  img_height : Z;
  transparent : bool;
  trans_idx : Z;
  pixels : list Z;
  prev : list Z
}.

Section Session.
Variable scr : Screen.
Variable blocks : list Blocks.GIFBlock.

(** [bkgd_color] *)
Definition background : result Z :=
  if gct_flag scr then
    c ← read (gct scr) (bkgd_color_idx scr); Ok (pixel_of c)
  else Ok (pixel_of (Blocks.mkColor 255 255 255)).

(** The declarations before [while (!quit)]. *)
Definition init : result viewer :=
  bkgd_color ← background;
  Ok (mkViewer 0 0 2 false 0 0 0 0 false 0
        (replicate (Z.to_nat (canvas_width scr * canvas_height scr)) bkgd_color) []).

(** The disposal switch, [prev = pixels] and [doRender = false]. *)
Definition dispose (bkgd_color : Z) (v : viewer) : result viewer :=
  px ←
    (if (disposal v =? 0) || (disposal v =? 1) then Ok (pixels v)
     else if disposal v =? 2 then
       clear_rect (canvas_width scr) bkgd_color (img_top v) (img_left v)
                  (img_height v) (img_width v) (pixels v)
     else if disposal v =? 3 then Ok (prev v)
     else Ok (pixels v));
  Ok (mkViewer (next v) (delay v) (disposal v) false (img_left v) (img_top v)
        (img_width v) (img_height v) (transparent v) (trans_idx v) px px).

(** The branch taken for the block at hand. *)
Definition visit (blk : Blocks.GIFBlock) (v : viewer) : result viewer :=
  match blk with
  | Blocks.BT_IMAGE img =>
      px ← composite (canvas_width scr) img (transparent v) (trans_idx v) (pixels v);
      Ok (mkViewer (next v) (delay v) (disposal v) true (Blocks.left img) (Blocks.top img)
            (Blocks.width img) (Blocks.height img) (transparent v) (trans_idx v) px (prev v))
  | Blocks.BT_GRAPHIC_CONTROL gc =>
      Ok (mkViewer (next v) (Blocks.delay_time gc * 10) (Blocks.disposal_method gc)
            (doRender v) (img_left v) (img_top v) (img_width v) (img_height v)
            (Blocks.transparent gc)
            (if Blocks.transparent gc then Blocks.color_index gc else trans_idx v)
            (pixels v) (prev v))
  | Blocks.BT_APPLICATION_EXTENSION _ => Ok v
  | Blocks.BT_COMMENT_BLOCK _ => Ok v
  end.

(** One iteration of [while (!quit)].  The texture update reads
    [canvas_width * canvas_height] pixels from [pixels]. *)
Definition iteration (bkgd_color : Z) (v : viewer) : result viewer :=
  match blocks !! next v with
  | None => Err UndefinedBehaviour
  | Some blk =>
      let v := mkViewer ((next v + 1) mod length blocks)%nat (delay v) (disposal v)
                 (doRender v) (img_left v) (img_top v) (img_width v) (img_height v)
                 (transparent v) (trans_idx v) (pixels v) (prev v) in
      v ← visit blk v;
      if negb (doRender v) then Ok v
      else if Z.of_nat (length (pixels v)) <? canvas_width scr * canvas_height scr
      then Err UndefinedBehaviour
      else dispose bkgd_color v
  end.

(** A pixel vector of the size of the canvas, or one without any pixel,
    as [prev] is at the start. *)
Definition canvas_sized (px : list Z) : Prop :=
  length px = Z.to_nat (canvas_width scr * canvas_height scr) \/ px = [].

(** [n] iterations of the loop. *)
Fixpoint iterate (n : nat) (bkgd_color : Z) (v : viewer) : result viewer :=
  match n with
  | O => Ok v
  | S n => v ← iteration bkgd_color v; iterate n bkgd_color v
  end.

(** The session up to the end of the [n]-th iteration. *)
Definition play (n : nat) : result viewer :=
  bkgd_color ← background;
  v ← init;
  iterate n bkgd_color v.

(** The block looked at in iteration [k] (counted from 0): [i] starts at
    0 and goes round the list. *)
Definition visited (k : nat) : option Blocks.GIFBlock :=
  blocks !! (k mod length blocks)%nat.

End Session.

End Playback.

(** * Fixtures *)

Module Fixtures.
Import Blocks Parser.

(** A complete file: 2x2 canvas, a global table of two colors, one image
    of 2x2 pixels with the indices 0 1 1 0. *)
Definition tiny_gif : list Z :=
  [0x47; 0x49; 0x46; 0x38; 0x39; 0x61;
   2; 0; 2; 0; 0x80; 0; 0;
   0; 0; 0; 255; 255; 255;
   0x2C; 0; 0; 0; 0; 2; 0; 2; 0; 0; 2; 3; 0x44; 0x82; 0x02; 0;
   0x3B].

(** The same file with another signature and another version suffix. *)
Definition odd_header_gif : list Z :=
  [0x58; 0x59; 0x5A; 0x39; 0x39; 0x7A] ++ drop 6 tiny_gif.

(** The same file as version 87a. *)
Definition gif87a : list Z :=
  [0x47; 0x49; 0x46; 0x38; 0x37; 0x61] ++ drop 6 tiny_gif.

Definition black : Color := mkColor 0 0 0.
Definition white : Color := mkColor 255 255 255.

(** A screen of [w] x [h] pixels without a global color table. *)
Definition bare_screen (w h : Z) : Screen := mkScreen w h false 0 [].

(** One image of a single black pixel at the origin. *)
Definition one_black_pixel : Image := mkImage 1 1 0 0 false [black; white] [0].

(** The file [tiny_gif] with an image descriptor that says 3x2. *)
Definition short_index_gif : list Z := <[24%nat := 3]> tiny_gif.

(** An image of 3x2 pixels, one pixel wider than the canvas it is drawn
    on in the examples; index 0 is the transparent one. *)
Definition wide_image : Image := mkImage 3 2 0 0 false [black; white] [1; 1; 0; 1; 1; 1].

(** The data of a 10x10 image of four colors, minimum code size 2. *)
Definition sample_payload : list Z :=
  [0x8C; 0x2D; 0x99; 0x87; 0x2A; 0x1C; 0xDC; 0x33; 0xA0; 0x02; 0x75;
   0xEC; 0x95; 0xFA; 0xA8; 0xDE; 0x60; 0x8C; 0x04; 0x91; 0x4C; 0x01].

(** The data of an image of four colors whose pixels are all 0, written
    without compression and without a clear code in between: the clear
    code 4 in 3 bits, then the code 0 over and over, then the end code 5
    in 12 bits at bit 45064. *)
Definition zero_payload (n : nat) : list Z := 4 :: repeat 0 n ++ [5; 0].
Definition overflow_payload : list Z := zero_payload (Z.to_nat 5632).

(** The code size, the number of bits taken and the size of the table
    after [k] iterations on [overflow_payload]. *)
Fixpoint zero_schedule (k : nat) : Z * Z * Z :=
  match k with
  | O => (3, 6, 6)
  | S k =>
      let '(cs, off, sz) := zero_schedule k in
      (if (sz + 1 =? 2 ^ cs) && (cs <? 12) then cs + 1 else cs, off + cs, sz + 1)
  end.

(** The state of the decoder after [k] iterations on [overflow_payload],
    whose stream has 45080 bits. *)
Definition zero_run_inv (k : nat) (st : LZW.state) : Prop :=
  let '(cs, off, sz) := zero_schedule k in
  LZW.code_size st = cs /\
  LZW.pos st = 45080 - off /\
  Z.of_nat (size (LZW.table st)) = sz /\
  LZW.table_index st = sz /\
  LZW.prev st = 0 /\
  LZW.table st !! 0 = Some [0] /\
  (forall j, sz <= j -> LZW.table st !! j = None) /\
  (forall j, 6 <= j < sz -> LZW.table st !! j = Some [0; 0]) /\
  LZW.index_stream st = repeat 0 (S k).

(** The decoder on [sample_payload]: its state before the loop and after
    the first iteration. *)
Definition sample_state0 : LZW.state :=
  LZW.mkState 3 (LZW.init_table 4 4 5) 6 1 170 [1].

(** The bytes of a graphic control extension behind its label: block
    size, packed field, delay, transparent color index; the block
    terminator is left out. *)
Definition control_bytes : list Z := [4; 0xF9; 0x10; 0x01; 7].

(** Two data sub-blocks, [1 2] and [3], with their terminator, between
    two other bytes. *)
Definition sub_block_bytes : list Z := [9; 2; 1; 2; 1; 3; 0; 9].






(** A graphic control block that asks for disposal method [d]. *)
Definition control (d : Z) (transparent : bool) (color_index : Z) : GIFBlock :=
  BT_GRAPHIC_CONTROL (mkGraphicsControl transparent false d 0 color_index).

(** Disposal method 3 on the second image. *)
Definition restore_previous_later : list GIFBlock :=
  [BT_IMAGE one_black_pixel; control 3 false 0; BT_IMAGE one_black_pixel].

(** Disposal method 3 ahead of the first image. *)
Definition restore_previous_first : list GIFBlock :=
  [control 3 false 0; BT_IMAGE one_black_pixel].

End Fixtures.

(** * Theorems *)

(** ** The error monad *)

Lemma bind_Ok {A B} (r : result A) (k : A -> result B) (y : B) :
  (r ≫= k) = Ok y -> exists a, r = Ok a /\ k a = Ok y.
Proof. destruct r as [a|e]; simpl; [eauto | discriminate]. Qed.

Lemma bind_Ok_l {A B} (a : A) (k : A -> result B) : (Ok a ≫= k) = k a.
Proof. reflexivity. Qed.

Ltac inv_bind H :=
  let a := fresh "a" in
  let Ha := fresh "Ha" in
  apply bind_Ok in H; destruct H as (a & Ha & H).

(** ** Header *)

Module HeaderFacts.
Import Parser Fixtures.

(** C3, as the code has it: the header test accepts a file exactly when
    the byte at offset 4 is 0x39; a file with any other byte there stops
    at the assertion; the signature bytes 0 to 2 and the version bytes 3
    and 5 are not read. *)
Theorem check_header_only_byte4 (bytes : list Z) :
  (check_header bytes = Ok tt <-> bytes !! 4%nat = Some 0x39) /\
  (forall v, bytes !! 4%nat = Some v -> v <> 0x39 ->
             check_header bytes = Err AssertionFailed) /\
  (forall other, other !! 4%nat = bytes !! 4%nat ->
                 check_header other = check_header bytes).
Proof.
  unfold check_header. split; [split|split].
  - destruct (bytes !! 4%nat) as [v|]; [|discriminate].
    destruct (Z.eqb_spec v 0x39); [congruence | discriminate].
  - intros ->. reflexivity.
  - intros v -> Hv. destruct (Z.eqb_spec v 0x39); [contradiction | reflexivity].
  - intros other ->. reflexivity.
Qed.

Lemma check_header_only_byte4_witness :
  check_header tiny_gif = Ok tt /\ check_header gif87a = Err AssertionFailed.
Proof.
  destruct (check_header_only_byte4 tiny_gif) as (Hiff & _).
  destruct (check_header_only_byte4 gif87a) as (_ & Hrej & _).
  split; [apply Hiff; reflexivity | apply (Hrej 0x37); [reflexivity | discriminate]].
Defined.

(** C3, counterexample: a file whose first three bytes are "XYZ" and whose
    version suffix is "99z" passes the header test, and the whole file is
    parsed like the proper one. *)
Lemma header_accepts_wrong_signature :
  take 3 odd_header_gif <> [0x47; 0x49; 0x46] /\
  take 3 (drop 3 odd_header_gif) <> [0x38; 0x39; 0x61] /\
  check_header odd_header_gif = Ok tt /\
  parse odd_header_gif = parse tiny_gif /\
  is_ok (parse odd_header_gif) = true.
Proof.
  split; [discriminate|]. split; [discriminate|].
  split; [reflexivity|]. split; vm_compute; reflexivity.
Qed.

(** Version 87a is turned down by the assertion. *)
Example header_rejects_87a : parse gif87a = Err AssertionFailed.
Proof. vm_compute. reflexivity. Qed.

End HeaderFacts.

(** ** The viewer loop *)

Module PlaybackFacts.
Import Parser Playback Fixtures.

Section Session.
Variable scr : Screen.
Variable blocks : list Blocks.GIFBlock.
Variable bkgd_color : Z.

(** An invariant indexed by the number of iterations carries over to
    [iterate]. *)
Lemma iterate_invariant (I : nat -> viewer -> Prop) (n0 : nat) :
  (forall k v v', (k < n0)%nat -> I k v ->
                  iteration scr blocks bkgd_color v = Ok v' -> I (S k) v') ->
  forall n k v v', (k + n <= n0)%nat -> I k v ->
                   iterate scr blocks n bkgd_color v = Ok v' -> I (k + n)%nat v'.
Proof.
  intros Hstep. induction n as [|n IH]; intros k v v' Hle Hk Hrun; simpl in Hrun.
  - inversion Hrun; subst. now rewrite Nat.add_0_r.
  - inv_bind Hrun. replace (k + S n)%nat with (S k + n)%nat by lia.
    apply (IH (S k) a); [lia | | assumption].
    apply (Hstep k v); [lia | assumption | assumption].
Qed.

Lemma dispose_keeps (v v' : viewer) :
  dispose scr bkgd_color v = Ok v' ->
  next v' = next v /\ disposal v' = disposal v /\ transparent v' = transparent v /\
  trans_idx v' = trans_idx v /\ doRender v' = false /\ prev v' = pixels v'.
Proof.
  unfold dispose. intros H. inv_bind H. inversion H; subst; simpl. tauto.
Qed.

(** The index of the next block after an iteration. *)
Lemma iteration_next (v v' : viewer) :
  iteration scr blocks bkgd_color v = Ok v' ->
  next v' = ((next v + 1) mod length blocks)%nat.
Proof.
  unfold iteration. destruct (blocks !! next v) as [blk|]; [|discriminate].
  intros H. inv_bind H.
  assert (next a = ((next v + 1) mod length blocks)%nat) as Hn.
  { destruct blk; simpl in Ha; [inv_bind Ha| | |]; inversion Ha; subst; reflexivity. }
  destruct (negb (doRender a)); [inversion H; subst; exact Hn|].
  destruct (_ <? _); [discriminate|].
  apply dispose_keeps in H. destruct H as (-> & _). exact Hn.
Qed.

(** An iteration on a block other than a graphic control leaves the
    control values as they are. *)
Lemma iteration_keeps_controls (v v' : viewer) (blk : Blocks.GIFBlock) :
  blocks !! next v = Some blk -> Blocks.is_graphic_control blk = false ->
  iteration scr blocks bkgd_color v = Ok v' ->
  disposal v' = disposal v /\ transparent v' = transparent v.
Proof.
  unfold iteration. intros -> Hgc H. inv_bind H.
  assert (disposal a = disposal v /\ transparent a = transparent v) as [Hd Ht].
  { destruct blk; simpl in Ha, Hgc; [inv_bind Ha| discriminate | |];
      inversion Ha; subst; simpl; tauto. }
  destruct (negb (doRender a)); [inversion H; subst; tauto|].
  destruct (_ <? _); [discriminate|].
  apply dispose_keeps in H. destruct H as (_ & -> & -> & _). tauto.
Qed.

(** An iteration on a block other than an image, with nothing left to
    render, leaves the canvas as it is. *)
Lemma iteration_keeps_canvas (v v' : viewer) (blk : Blocks.GIFBlock) :
  blocks !! next v = Some blk -> (forall i, blk <> Blocks.BT_IMAGE i) ->
  doRender v = false ->
  iteration scr blocks bkgd_color v = Ok v' ->
  pixels v' = pixels v /\ doRender v' = false.
Proof.
  unfold iteration. intros -> Himg Hr H. inv_bind H.
  assert (pixels a = pixels v /\ doRender a = false) as [Hp Hd].
  { destruct blk; simpl in Ha; [now destruct (Himg i) | | |];
      inversion Ha; subst; simpl; tauto. }
  rewrite Hd in H. simpl in H. inversion H; subst. tauto.
Qed.

Lemma mod_succ (k : nat) :
  (((k mod length blocks) + 1) mod length blocks = S k mod length blocks)%nat.
Proof.
  destruct (length blocks) as [|m] eqn:E; [simpl; lia|].
  rewrite Nat.Div0.add_mod_idemp_l. f_equal. lia.
Qed.

End Session.

(** C4, as the code has it: as long as no graphic control block has been
    looked at, the control values in force are disposal = 2 (overwrite
    with the background color) and transparency = off. *)
Theorem defaults_before_graphic_control (scr : Screen) (blocks : list Blocks.GIFBlock)
    (n : nat) (v : viewer) :
  (forall k, (k < n)%nat ->
     exists blk, visited blocks k = Some blk /\ Blocks.is_graphic_control blk = false) ->
  play scr blocks n = Ok v ->
  disposal v = 2 /\ transparent v = false.
Proof.
  intros Hvis Hplay. unfold play in Hplay.
  inv_bind Hplay. rename a into c. inv_bind Hplay. rename a into v0.
  assert (next v0 = 0%nat /\ disposal v0 = 2 /\ transparent v0 = false) as (H0 & H1 & H2).
  { unfold init in Ha0. inv_bind Ha0. inversion Ha0; subst; simpl. tauto. }
  pose (I := fun (k : nat) (w : viewer) =>
               next w = (k mod length blocks)%nat /\ disposal w = 2 /\ transparent w = false).
  assert (I (0 + n)%nat v) as HI.
  { apply (iterate_invariant scr blocks c I n) with (v := v0); [ | lia | | exact Hplay].
    - intros k w w' Hk (Hn & Hd & Ht) Hit.
      destruct (Hvis k Hk) as (blk & Hb & Hgc). unfold visited in Hb. rewrite <- Hn in Hb.
      destruct (iteration_keeps_controls scr blocks c w w' blk Hb Hgc Hit) as [Hd' Ht'].
      repeat split; [|congruence|congruence].
      rewrite (iteration_next scr blocks c w w' Hit), Hn. apply mod_succ.
    - repeat split; try assumption. rewrite H0. symmetry. apply Nat.Div0.mod_0_l. }
  destruct HI as (_ & Hd & Ht). tauto.
Qed.

Lemma defaults_before_graphic_control_witness :
  exists v, play (bare_screen 1 1) [Blocks.BT_IMAGE one_black_pixel] 1 = Ok v /\
            disposal v = 2 /\ transparent v = false.
Proof.
  eexists. split; [reflexivity|].
  apply (defaults_before_graphic_control (bare_screen 1 1)
           [Blocks.BT_IMAGE one_black_pixel] 1).
  - intros k Hk. exists (Blocks.BT_IMAGE one_black_pixel).
    assert (k = 0%nat) as -> by lia. split; reflexivity.
  - reflexivity.
Defined.

(** C4, counterexample: an image shown before any graphic control block
    is disposed of with method 2, not 0: the black pixel it draws is
    overwritten with the (white) background after the frame is presented. *)
Lemma default_disposal_is_not_0 :
  exists v, play (bare_screen 1 1) [Blocks.BT_IMAGE one_black_pixel] 1 = Ok v /\
            disposal v <> 0 /\
            composite 1 one_black_pixel false 0 [0xFFFFFFFF] = Ok [0xFF000000] /\
            pixels v = [0xFFFFFFFF].
Proof.
  eexists. split; [reflexivity|]. split; [discriminate|]. split; reflexivity.
Qed.

(** C7, at the failing input: with disposal method 3 on the first image,
    the canvas before the frame is the one white pixel of the initial
    canvas; after the frame it is the empty [prev], no pixel at all; the
    next image then writes outside the canvas. *)
Theorem restore_previous_on_first_image_empties_canvas :
  exists v0 v2,
    play (bare_screen 1 1) restore_previous_first 1 = Ok v0 /\
    pixels v0 = [0xFFFFFFFF] /\
    play (bare_screen 1 1) restore_previous_first 2 = Ok v2 /\
    disposal v2 = 3 /\
    pixels v2 = [] /\
    pixels v2 <> pixels v0 /\
    play (bare_screen 1 1) restore_previous_first 4 = Err UndefinedBehaviour.
Proof.
  do 2 eexists. split; [vm_compute; reflexivity|]. split; [reflexivity|].
  split; [vm_compute; reflexivity|]. split; [reflexivity|]. split; [reflexivity|].
  split; [discriminate | vm_compute; reflexivity].
Qed.

(** From the second rendered frame on, [prev] is the canvas as the last
    frame left it, and disposal method 3 does restore the canvas the image
    was drawn on. *)
Lemma restore_previous_after_first_frame (scr : Screen) (blocks : list Blocks.GIFBlock)
    (c : Z) (v v' : viewer) (img : Blocks.Image) :
  blocks !! next v = Some (Blocks.BT_IMAGE img) ->
  prev v = pixels v -> disposal v = 3 ->
  iteration scr blocks c v = Ok v' ->
  pixels v' = pixels v.
Proof.
  unfold iteration. intros -> Hprev Hd H. inv_bind H. simpl in Ha. inv_bind Ha.
  inversion Ha; subst; clear Ha. simpl in H.
  destruct (_ <? _); [discriminate|].
  unfold dispose in H. simpl in H. rewrite Hd in H. simpl in H.
  inversion H; subst; simpl. exact Hprev.
Qed.

(** Once a frame has been rendered, [prev] is the canvas at the start of
    every iteration. *)
Lemma prev_is_canvas_after_a_frame (scr : Screen) (blocks : list Blocks.GIFBlock)
    (c : Z) (v v' : viewer) :
  doRender v = false ->
  prev v = pixels v \/ (exists img, blocks !! next v = Some (Blocks.BT_IMAGE img)) ->
  iteration scr blocks c v = Ok v' ->
  prev v' = pixels v' /\ doRender v' = false.
Proof.
  unfold iteration. intros Hr Hcase H.
  destruct (blocks !! next v) as [blk|] eqn:Hblk; [|discriminate]. inv_bind H.
  destruct blk as [img|gc|ae|cb]; simpl in Ha.
  - inv_bind Ha. inversion Ha; subst; clear Ha. simpl in H.
    destruct (_ <? _); [discriminate|].
    apply dispose_keeps in H. destruct H as (_ & _ & _ & _ & Hd & Hp). tauto.
  - inversion Ha; subst; clear Ha. simpl in H. rewrite Hr in H. simpl in H.
    inversion H; subst; simpl. destruct Hcase as [Hp|[img Himg]]; [tauto | discriminate].
  - inversion Ha; subst; clear Ha. simpl in H. rewrite Hr in H. simpl in H.
    inversion H; subst; simpl. destruct Hcase as [Hp|[img Himg]]; [tauto | discriminate].
  - inversion Ha; subst; clear Ha. simpl in H. rewrite Hr in H. simpl in H.
    inversion H; subst; simpl. destruct Hcase as [Hp|[img Himg]]; [tauto | discriminate].
Qed.

(** C10: without a global color table the background color is opaque
    white, 0xFFFFFFFF, that is red = green = blue = alpha = 255; the
    canvas starts as [canvas_width * canvas_height] pixels of the
    background color and stays so until the first image block is looked
    at. *)
Theorem white_background_without_global_table (scr : Screen)
    (blocks : list Blocks.GIFBlock) :
  gct_flag scr = false ->
  background scr = Ok (color_rgba 255 255 255 255) /\
  color_rgba 255 255 255 255 = 0xFFFFFFFF /\
  (exists v, init scr = Ok v /\
     pixels v = replicate (Z.to_nat (canvas_width scr * canvas_height scr)) 0xFFFFFFFF) /\
  (forall n v,
     (forall k, (k < n)%nat ->
        exists blk, visited blocks k = Some blk /\ forall i, blk <> Blocks.BT_IMAGE i) ->
     play scr blocks n = Ok v ->
     pixels v = replicate (Z.to_nat (canvas_width scr * canvas_height scr)) 0xFFFFFFFF).
Proof.
  intros Hflag.
  assert (background scr = Ok 0xFFFFFFFF) as Hb.
  { unfold background. rewrite Hflag. reflexivity. }
  assert (init scr = Ok (mkViewer 0 0 2 false 0 0 0 0 false 0
            (replicate (Z.to_nat (canvas_width scr * canvas_height scr)) 0xFFFFFFFF) []))
    as Hi.
  { unfold init. rewrite Hb. reflexivity. }
  split; [exact Hb|]. split; [reflexivity|]. split.
  { eexists. split; [exact Hi | reflexivity]. }
  intros n v Hvis Hplay. unfold play in Hplay. rewrite Hb, Hi in Hplay. simpl in Hplay.
  pose (I := fun (k : nat) (w : viewer) =>
               next w = (k mod length blocks)%nat /\ doRender w = false /\
               pixels w = replicate (Z.to_nat (canvas_width scr * canvas_height scr))
                            0xFFFFFFFF).
  assert (I (0 + n)%nat v) as HI.
  { eapply (iterate_invariant scr blocks _ I n); [ | | | exact Hplay]; [|lia|].
    - intros k w w' Hk (Hn & Hd & Hp) Hit.
      destruct (Hvis k Hk) as (blk & Hblk & Himg). unfold visited in Hblk.
      rewrite <- Hn in Hblk.
      destruct (iteration_keeps_canvas scr blocks _ w w' blk Hblk Himg Hd Hit) as [Hp' Hd'].
      repeat split; [|assumption|congruence].
      rewrite (iteration_next scr blocks _ w w' Hit), Hn. apply mod_succ.
    - repeat split. simpl. symmetry. apply Nat.Div0.mod_0_l. }
  destruct HI as (_ & _ & Hp). exact Hp.
Qed.

Lemma white_background_without_global_table_witness :
  gct_flag (bare_screen 2 1) = false /\
  background (bare_screen 2 1) = Ok 0xFFFFFFFF /\
  exists v, init (bare_screen 2 1) = Ok v /\ pixels v = [0xFFFFFFFF; 0xFFFFFFFF].
Proof.
  split; [reflexivity|].
  destruct (white_background_without_global_table (bare_screen 2 1) [] eq_refl)
    as (Hb & Hc & Hinit & _).
  split; [rewrite Hb, Hc; reflexivity | exact Hinit].
Defined.

End PlaybackFacts.

(** ** The size of the index of an image *)

Module ImageFacts.
Import Blocks Parser Fixtures.

Ltac inv_binds H :=
  repeat (let a := fresh "a" in
          let Ha := fresh "Ha" in
          apply bind_Ok in H; destruct H as (a & Ha & H);
          try (destruct a as [? ?]); simpl in H).

Lemma read_image_sized (bytes : list Z) (fuel : nat) (gct : list Color) (idx idx' : nat)
    (i : Image) :
  read_image bytes fuel gct idx = Ok (i, idx') -> image_sized (BT_IMAGE i).
Proof.
  unfold read_image. intros H. inv_binds H.
  unfold index_fits in H. destruct (Z.eqb_spec (Z.of_nat (length (index i0)))
                                      (width i0 * height i0)) as [E|E];
    [|discriminate].
  inversion H; subst. exact E.
Qed.

Lemma read_blocks_sized (bytes : list Z) (gct : list Color) (fuel : nat) :
  forall (idx : nat) (acc out : list GIFBlock),
    Forall image_sized acc ->
    read_blocks bytes fuel gct idx acc = Ok out ->
    Forall image_sized out.
Proof.
  induction fuel as [|fuel IH]; intros idx acc out Hacc H; simpl in H; [discriminate|].
  inv_bind H. destruct a as [x idx1]. simpl in H.
  assert (forall blk, image_sized blk -> Forall image_sized (acc ++ [blk])) as Hsnoc.
  { intros blk Hb. apply Forall_app. split; [exact Hacc | constructor; [exact Hb | constructor]]. }
  destruct (x =? 0x2C).
  { inv_bind H. destruct a as [i idx2]. simpl in H.
    apply (IH _ _ _ (Hsnoc _ (read_image_sized _ _ _ _ _ _ Ha0)) H). }
  destruct (x =? 0x21).
  { inv_bind H. destruct a as [label idx2]. simpl in H.
    destruct (label =? 0xF9).
    { inv_bind H. destruct a as [gc idx3]. simpl in H. apply (IH _ _ _ (Hsnoc (BT_GRAPHIC_CONTROL gc) I) H). }
    destruct (label =? 0xFF).
    { inv_bind H. destruct a as [ae idx3]. simpl in H. apply (IH _ _ _ (Hsnoc (BT_APPLICATION_EXTENSION ae) I) H). }
    destruct (label =? 0x01).
    { inv_bind H. apply (IH _ _ _ Hacc H). }
    destruct (label =? 0xFE).
    { inv_bind H. destruct a as [cb idx3]. simpl in H. apply (IH _ _ _ (Hsnoc (BT_COMMENT_BLOCK cb) I) H). }
    inversion H; subst. exact Hacc. }
  destruct (x =? 0x3B); inversion H; subst; exact Hacc.
Qed.

(** C9: every image block of a file that was parsed to the end has an
    index of exactly [width * height] entries, and an image whose decoded
    index has another size stops the program at the assertion: no block
    list is produced. *)
Theorem parsed_images_have_full_index (bytes : list Z) :
  (forall gif, parse bytes = Ok gif -> Forall image_sized (blocks gif)) /\
  (forall fuel gct idx i idx',
     decode_image bytes fuel gct idx = Ok (i, idx') ->
     Z.of_nat (length (index i)) <> width i * height i ->
     read_image bytes fuel gct idx = Err AssertionFailed).
Proof.
  split.
  - intros gif H. unfold parse in H. inv_bind H. inv_bind H. destruct a0 as [scr idx].
    cbv beta iota in H. inv_bind H. inversion H; subst; simpl.
    apply (read_blocks_sized _ _ _ _ _ _ (Forall_nil_2 _) Ha1).
  - intros fuel gct idx i idx' Hd Hne. unfold read_image. rewrite Hd. simpl.
    unfold index_fits. destruct (Z.eqb_spec (Z.of_nat (length (index i)))
                                   (width i * height i)); [contradiction | reflexivity].
Qed.

Lemma parsed_images_have_full_index_witness :
  exists gif, parse tiny_gif = Ok gif /\
              blocks gif = [BT_IMAGE (mkImage 2 2 0 0 false [black; white] [0; 1; 1; 0])] /\
              Forall image_sized (blocks gif).
Proof.
  eexists. split; [vm_compute; reflexivity|]. split; [reflexivity|].
  apply (proj1 (parsed_images_have_full_index tiny_gif)). vm_compute. reflexivity.
Defined.

(** The same data under a descriptor of 3x2 pixels: four indices come out
    of the decoder, six are expected. *)
Example short_index_is_an_error :
  is_ok (decode_image short_index_gif 37 [black; white] 20) = true /\
  parse short_index_gif = Err AssertionFailed.
Proof. split; vm_compute; reflexivity. Qed.

End ImageFacts.

(** ** The row table of an interlaced image *)

Module InterlaceFacts.
Import Playback.

Lemma plain_rows_from (n : nat) :
  forall a : nat,
    fold_left (fun (row2 : rows_t) i => <[i := Some i]> row2) (seq a n)
      ((Some <$> seq 0 a) ++ replicate n None) = Some <$> seq 0 (a + n).
Proof.
  induction n as [|n IH]; intros a; simpl.
  - rewrite app_nil_r, Nat.add_0_r. reflexivity.
  - replace (a + S n)%nat with (S a + n)%nat by lia. rewrite <- IH.
    f_equal. rewrite seq_S, fmap_app. simpl. rewrite <- app_assoc. simpl.
    rewrite insert_app_r_alt by (rewrite length_fmap, length_seq; lia).
    rewrite length_fmap, length_seq, Nat.sub_diag. reflexivity.
Qed.

Lemma plain_rows_identity (h : nat) : plain_rows h = Some <$> seq 0 h.
Proof. unfold plain_rows. apply (plain_rows_from h 0). Qed.

Section Pass.
Variables d h : nat.
Hypothesis d_pos : (0 < d)%nat.

Lemma pass_rows_bounds (fuel : nat) :
  forall i y, y ∈ pass_rows fuel i d h -> (i <= y < h)%nat.
Proof.
  induction fuel as [|fuel IH]; intros i y Hy; simpl in Hy.
  - inversion Hy.
  - destruct (Nat.ltb_spec i h); [|inversion Hy].
    apply elem_of_cons in Hy. destruct Hy as [->|Hy]; [lia|].
    apply IH in Hy. lia.
Qed.

Lemma pass_rows_NoDup (fuel : nat) : forall i, NoDup (pass_rows fuel i d h).
Proof.
  induction fuel as [|fuel IH]; intros i; simpl; [constructor|].
  destruct (Nat.ltb_spec i h); [|constructor].
  apply NoDup_cons. split; [|apply IH].
  intros Hin. apply pass_rows_bounds in Hin. lia.
Qed.

Lemma pass_rows_elem (fuel : nat) :
  forall i y, (h - i < fuel)%nat ->
    (y ∈ pass_rows fuel i d h <-> (exists k, y = i + k * d)%nat /\ (y < h)%nat).
Proof.
  induction fuel as [|fuel IH]; intros i y Hfuel; [lia|]. simpl.
  destruct (Nat.ltb_spec i h) as [Hi|Hi].
  - rewrite elem_of_cons, IH by lia. split.
    + intros [->|[[k ->] Hlt]]; (split; [|lia]); [exists 0%nat | exists (S k)]; lia.
    + intros [[k ->] Hlt]. destruct k as [|k]; [left; lia|].
      right. split; [exists k|]; lia.
  - split; [intros Hin; inversion Hin|]. intros [[k ->] Hlt]. lia.
Qed.

Lemma interlace_pass_assigns (fuel : nat) :
  forall i j row2, (h - i < fuel)%nat ->
    (j + length (pass_rows fuel i d h) <= h)%nat ->
    interlace_pass fuel i d h j row2 =
      Ok (assign_rows (pass_rows fuel i d h) j row2,
          (j + length (pass_rows fuel i d h))%nat).
Proof.
  induction fuel as [|fuel IH]; intros i j row2 Hfuel Hj; [lia|]. simpl in *.
  destruct (Nat.ltb_spec i h) as [Hi|Hi]; simpl in *.
  - destruct (Nat.ltb_spec j h); [|lia].
    rewrite IH by lia. do 2 f_equal. lia.
  - rewrite Nat.add_0_r. reflexivity.
Qed.

End Pass.

Lemma assign_rows_app (l1 l2 : list nat) :
  forall j row2,
    assign_rows (l1 ++ l2) j row2 = assign_rows l2 (j + length l1) (assign_rows l1 j row2).
Proof.
  induction l1 as [|y l1 IH]; intros j row2; simpl.
  - rewrite Nat.add_0_r. reflexivity.
  - rewrite IH. f_equal. lia.
Qed.

Lemma assign_rows_length (rows : list nat) :
  forall j row2, length (assign_rows rows j row2) = length row2.
Proof.
  induction rows as [|y rows IH]; intros j row2; simpl; [reflexivity|].
  rewrite IH. apply length_insert.
Qed.

Lemma assign_rows_other (rows : list nat) (y : nat) :
  y ∉ rows -> forall j row2, assign_rows rows j row2 !! y = row2 !! y.
Proof.
  induction rows as [|z rows IH]; intros Hy j row2; simpl; [reflexivity|].
  apply not_elem_of_cons in Hy. destruct Hy as [Hne Hy].
  rewrite IH by exact Hy. apply list_lookup_insert_ne. congruence.
Qed.

Lemma assign_rows_lookup (rows : list nat) :
  forall j (row2 : rows_t) k y,
    NoDup rows -> (forall z, z ∈ rows -> (z < length row2)%nat) ->
    rows !! k = Some y ->
    assign_rows rows j row2 !! y = Some (Some (j + k)%nat).
Proof.
  induction rows as [|z rows IH]; intros j row2 k y Hnd Hlt Hk; [inversion Hk|].
  apply NoDup_cons in Hnd. destruct Hnd as [Hz Hnd]. simpl.
  destruct k as [|k]; simpl in Hk.
  - inversion Hk; subst. rewrite assign_rows_other by exact Hz.
    rewrite Nat.add_0_r. apply list_lookup_insert_eq. apply Hlt. left.
  - replace (j + S k)%nat with (S j + k)%nat by lia.
    apply IH; [exact Hnd | | exact Hk].
    intros w Hw. rewrite length_insert. apply Hlt. right. exact Hw.
Qed.

(** The four passes hold every row below [h] once. *)
Lemma emitted_rows_elem (h y : nat) : y ∈ emitted_rows h <-> (y < h)%nat.
Proof.
  unfold emitted_rows. rewrite !elem_of_app, !pass_rows_elem by lia. split.
  - intros [H|[H|[H|H]]]; apply H.
  - intros Hy.
    pose proof (Nat.div_mod_eq y 8) as E.
    pose proof (Nat.mod_upper_bound y 8 ltac:(lia)) as Hr.
    set (q := (y / 8)%nat) in *. set (m := (y mod 8)%nat) in *.
    assert (m = 0 \/ m = 4 \/ (m = 2 \/ m = 6) \/ (m = 1 \/ m = 3 \/ m = 5 \/ m = 7))%nat
      as [Hm|[Hm|[[Hm|Hm]|[Hm|[Hm|[Hm|Hm]]]]]] by lia.
    + left. split; [exists q; lia | lia].
    + right; left. split; [exists q; lia | lia].
    + right; right; left. split; [exists (2 * q)%nat; lia | lia].
    + right; right; left. split; [exists (2 * q + 1)%nat; lia | lia].
    + right; right; right. split; [exists (4 * q)%nat; lia | lia].
    + right; right; right. split; [exists (4 * q + 1)%nat; lia | lia].
    + right; right; right. split; [exists (4 * q + 2)%nat; lia | lia].
    + right; right; right. split; [exists (4 * q + 3)%nat; lia | lia].
Qed.

Lemma emitted_rows_NoDup (h : nat) : NoDup (emitted_rows h).
Proof.
  unfold emitted_rows.
  repeat (apply NoDup_app; split; [apply pass_rows_NoDup; lia | split]);
    try (apply pass_rows_NoDup; lia);
    intros y Hy; rewrite ?elem_of_app, !pass_rows_elem by lia;
    apply pass_rows_elem in Hy; try lia;
    destruct Hy as [[k ->] Hlt]; intros Hin;
    repeat match goal with
           | H : _ \/ _ |- _ => destruct H
           | H : (exists _, _) /\ _ |- _ => destruct H as [[? ?] ?]
           end; lia.
Qed.

Lemma emitted_rows_length (h : nat) : length (emitted_rows h) = h.
Proof.
  transitivity (length (seq 0 h)); [|apply length_seq]. apply Permutation_length.
  apply NoDup_Permutation; [apply emitted_rows_NoDup | apply NoDup_seq|].
  intros y. rewrite emitted_rows_elem, elem_of_seq. lia.
Qed.

(** The interlaced branch assigns source row [j] to the [j]-th row of the
    four passes. *)
Lemma interlaced_rows_assigns (h : nat) :
  interlaced_rows h = Ok (assign_rows (emitted_rows h) 0 (replicate h None)).
Proof.
  pose proof (emitted_rows_length h) as Hlen. unfold emitted_rows in *.
  rewrite !length_app in Hlen. unfold interlaced_rows.
  do 4 (rewrite interlace_pass_assigns by lia; rewrite bind_Ok_l; cbv beta iota).
  rewrite !assign_rows_app. reflexivity.
Qed.

(** C2, as the code has it: for an interlaced image of height 8 the
    output rows 0..7 read from the source rows 0 4 2 5 1 6 3 7; for every
    height the table is filled and the [j]-th row that the passes A, B, C,
    D emit is the output row that reads source row [j]; for an image that
    is not interlaced the table is the identity. *)
Theorem interlace_row_table :
  row_table true 8 = Ok (Some <$> [0; 4; 2; 5; 1; 6; 3; 7]%nat) /\
  emitted_rows 8 = [0; 4; 2; 6; 1; 3; 5; 7]%nat /\
  (forall h, exists row2,
      row_table true h = Ok row2 /\ length row2 = h /\
      forall j y, emitted_rows h !! j = Some y -> row2 !! y = Some (Some j)) /\
  (forall h, row_table false h = Ok (Some <$> seq 0 h)).
Proof.
  split; [vm_compute; reflexivity|]. split; [vm_compute; reflexivity|]. split.
  - intros h. eexists. split; [apply interlaced_rows_assigns|].
    split; [rewrite assign_rows_length; apply length_replicate|].
    intros j y Hj. apply (assign_rows_lookup _ 0 _ j y); [apply emitted_rows_NoDup| |exact Hj].
    intros z Hz. rewrite length_replicate. apply emitted_rows_elem. exact Hz.
  - intros h. simpl. rewrite plain_rows_identity. reflexivity.
Qed.

Lemma interlace_row_table_witness :
  exists row2, row_table true 8 = Ok row2 /\ row2 !! 3%nat = Some (Some 5%nat).
Proof.
  destruct interlace_row_table as (_ & _ & Hgen & _).
  destruct (Hgen 8%nat) as (row2 & Hr & _ & Hj).
  exists row2. split; [exact Hr|]. apply (Hj 5%nat 3%nat). reflexivity.
Defined.

(** C2, counterexample: the table of height 8 is not 0 4 2 6 1 5 3 7;
    output row 3 reads source row 5, not 6. *)
Lemma interlace_row_table_is_not_the_stated_one :
  row_table true 8 <> Ok (Some <$> [0; 4; 2; 6; 1; 5; 3; 7]%nat) /\
  (row_table true 8 ≫= fun row2 => row_at row2 3) = Ok 5%nat.
Proof. split; [vm_compute; discriminate | vm_compute; reflexivity]. Qed.

End InterlaceFacts.

(** ** Drawing an image on the canvas *)

Module CompositeFacts.
Import Playback Fixtures.

Lemma elem_of_coords (h w y x : nat) : (y, x) ∈ coords h w <-> (y < h)%nat /\ (x < w)%nat.
Proof.
  unfold coords. rewrite list_elem_of_bind. split.
  - intros (y' & Hin & Hy). apply list_elem_of_bind in Hin.
    destruct Hin as (x' & Hin & Hx). apply list_elem_of_singleton in Hin.
    inversion Hin; subst. apply elem_of_seq in Hy, Hx. lia.
  - intros [Hy Hx]. exists y. split; [|apply elem_of_seq; lia].
    apply list_elem_of_bind. exists x. split; [left | apply elem_of_seq; lia].
Qed.

Lemma write_other {A} (l l' : list A) (i off : Z) (c : A) :
  write l i c = Ok l' -> off <> i -> lookupZ l' off = lookupZ l off.
Proof.
  unfold write, in_range, lookupZ. destruct (Z.leb_spec 0 i) as [Hi|Hi]; simpl; [|discriminate].
  destruct (i <? _); [|discriminate]. intros H Hne. inversion H; subst.
  destruct (Z.ltb_spec off 0) as [Ho|Ho]; [reflexivity|].
  apply list_lookup_insert_ne. lia.
Qed.

Lemma write_length {A} (l l' : list A) (i : Z) (c : A) :
  write l i c = Ok l' -> length l' = length l.
Proof.
  unfold write. destruct (in_range l i); [|discriminate].
  intros H. inversion H; subst. apply length_insert.
Qed.

Section Frame.
Variable canvas_width : Z.
Variable img : Blocks.Image.
Variable row2 : rows_t.
Variable transparent : bool.
Variable trans_idx : Z.

Lemma draw_pixel_effect (px px' : list Z) (y x : nat) :
  draw_pixel canvas_width img row2 transparent trans_idx px (y, x) = Ok px' ->
  length px' = length px /\
  (passed_over img row2 transparent trans_idx y x -> px' = px) /\
  (forall off, off <> offset canvas_width (Blocks.top img) (Blocks.left img) y x -> lookupZ px' off = lookupZ px off).
Proof.
  unfold draw_pixel. intros H. inv_bind H. rename a into r2. inv_bind H. rename a into ix.
  destruct ((transparent && negb (ix =? trans_idx)) || negb transparent) eqn:Hc.
  - inv_bind H. split; [eapply write_length; eassumption|]. split.
    + intros (Ht & r2' & Hr & Hi). rewrite Ha in Hr. inversion Hr; subst r2'.
      rewrite Ha0 in Hi. inversion Hi; subst ix. subst transparent.
      rewrite Z.eqb_refl in Hc. discriminate.
    + intros off Hne. eapply write_other; eassumption.
  - inversion H; subst. repeat split; reflexivity.
Qed.

Lemma draw_pixels_effect (l : list (nat * nat)) :
  forall px px',
    for_each (draw_pixel canvas_width img row2 transparent trans_idx) l px = Ok px' ->
    length px' = length px /\
    forall off,
      (forall y x, (y, x) ∈ l ->
         offset canvas_width (Blocks.top img) (Blocks.left img) y x = off ->
         passed_over img row2 transparent trans_idx y x) ->
      lookupZ px' off = lookupZ px off.
Proof.
  induction l as [|[y x] l IH]; intros px px' H; simpl in H.
  - inversion H; subst. split; reflexivity.
  - inv_bind H. rename a into px1.
    destruct (draw_pixel_effect _ _ _ _ Ha) as (Hlen1 & Hskip & Hother).
    destruct (IH _ _ H) as (Hlen & Hrest). split; [congruence|].
    intros off Hoff. rewrite Hrest.
    + destruct (Z.eq_dec off (offset canvas_width (Blocks.top img) (Blocks.left img) y x)) as [->|Hne].
      * rewrite Hskip; [reflexivity|]. apply Hoff; [left | reflexivity].
      * apply Hother. exact Hne.
    + intros y' x' Hin. apply Hoff. right. exact Hin.
Qed.

End Frame.

(** C8, for an image that lies within the columns of the canvas: a pixel
    whose index is the transparent one, with transparency on, leaves the
    canvas value at its offset as it was, and so does the whole drawing
    step for every canvas pixel outside the rectangle of the image. *)
Theorem composite_keeps_transparent_and_outside (canvas_width : Z) (img : Blocks.Image)
    (transparent : bool) (trans_idx : Z) (pixels pixels' : list Z) :
  0 <= Blocks.left img ->
  Blocks.left img + Blocks.width img <= canvas_width ->
  composite canvas_width img transparent trans_idx pixels = Ok pixels' ->
  (forall row2 y x r2,
     row_table (Blocks.interlace img) (Z.to_nat (Blocks.height img)) = Ok row2 ->
     (y < Z.to_nat (Blocks.height img))%nat -> (x < Z.to_nat (Blocks.width img))%nat ->
     row_at row2 y = Ok r2 ->
     transparent = true ->
     read (Blocks.index img) (Z.of_nat r2 * Blocks.width img + Z.of_nat x) = Ok trans_idx ->
     lookupZ pixels' (offset canvas_width (Blocks.top img) (Blocks.left img) y x) =
     lookupZ pixels (offset canvas_width (Blocks.top img) (Blocks.left img) y x)) /\
  (forall cx cy,
     0 <= cx < canvas_width ->
     ~ (Blocks.left img <= cx < Blocks.left img + Blocks.width img /\
        Blocks.top img <= cy < Blocks.top img + Blocks.height img) ->
     lookupZ pixels' (cy * canvas_width + cx) = lookupZ pixels (cy * canvas_width + cx)) /\
  length pixels' = length pixels.
Proof.
  intros Hleft Hfit H. unfold composite in H. inv_bind H. rename a into rows.
  destruct (draw_pixels_effect _ _ _ _ _ _ _ _ H) as (Hlen & Heff).
  assert (forall y x y' x' : nat,
            (x < Z.to_nat (Blocks.width img))%nat ->
            (x' < Z.to_nat (Blocks.width img))%nat ->
            offset canvas_width (Blocks.top img) (Blocks.left img) y x =
            offset canvas_width (Blocks.top img) (Blocks.left img) y' x' ->
            y = y' /\ x = x') as Hinj.
  { unfold offset. intros y x y' x' Hx Hx' E.
    assert (Z.of_nat y = Z.of_nat y') by nia. split; [lia | nia]. }
  split; [|split; [|exact Hlen]].
  - intros row2 y x r2 Hrows Hy Hx Hr Ht Hi. rewrite Hrows in Ha. inversion Ha; subst rows.
    apply Heff. intros y' x' Hin E. apply elem_of_coords in Hin.
    destruct (Hinj y' x' y x) as [-> ->]; [lia | lia | exact E|].
    split; [exact Ht|]. exists r2. split; assumption.
  - intros cx cy Hcx Hout. apply Heff. intros y x Hin E. exfalso. apply Hout.
    apply elem_of_coords in Hin. unfold offset in E.
    assert (cy = Blocks.top img + Z.of_nat y) by nia. split; nia.
Qed.

Lemma composite_keeps_transparent_and_outside_witness :
  composite 2 one_black_pixel true 0 [7; 7; 7; 7] = Ok [7; 7; 7; 7] /\
  lookupZ [7; 7; 7; 7] (offset 2 0 0 0 0) = lookupZ [7; 7; 7; 7] (offset 2 0 0 0 0) /\
  length [7; 7; 7; 7] = 4%nat.
Proof.
  assert (composite 2 one_black_pixel true 0 [7; 7; 7; 7] = Ok [7; 7; 7; 7]) as H
    by (vm_compute; reflexivity).
  split; [exact H|].
  destruct (composite_keeps_transparent_and_outside 2 one_black_pixel true 0
              [7; 7; 7; 7] [7; 7; 7; 7] ltac:(simpl; lia) ltac:(simpl; lia) H)
    as (Htr & _ & Hlen).
  split; [|exact Hlen].
  apply (Htr [Some 0%nat] 0%nat 0%nat 0%nat); try reflexivity; simpl; lia.
Defined.

(** C8, counterexample: an image of 3x2 pixels on a canvas 2 pixels wide.
    The pixel in row 0, column 2 has the transparent index, but the canvas
    value at its offset 2 is overwritten (by the pixel in row 1, column
    0); and the canvas pixel in row 2, column 0, outside the rectangle of
    the image, is overwritten as well. *)
Lemma composite_overwrites_when_wider_than_canvas :
  exists pixels',
    composite 2 wide_image true 0 [7; 7; 7; 7; 7; 7] = Ok pixels' /\
    read (Blocks.index wide_image) (0 * 3 + 2) = Ok 0 /\
    offset 2 0 0 0 2 = 2 /\
    lookupZ pixels' 2 <> lookupZ [7; 7; 7; 7; 7; 7] 2 /\
    ~ (Blocks.top wide_image <= 2 < Blocks.top wide_image + Blocks.height wide_image) /\
    lookupZ pixels' (2 * 2 + 0) <> lookupZ [7; 7; 7; 7; 7; 7] (2 * 2 + 0).
Proof.
  eexists. split; [vm_compute; reflexivity|]. split; [reflexivity|].
  split; [reflexivity|]. split; [discriminate|]. split; [simpl; lia | discriminate].
Qed.

End CompositeFacts.

(** ** The code size of the LZW decoder *)

Module CodeSizeFacts.
Import BitStream LZW Fixtures.

Section Decoder.
Variable ncolors : Z.
Variable lzw_min : Z.
Variable stream : list ascii.

Lemma grow_cases (t : table_t) (cs : Z) :
  (Z.of_nat (size t) = 2 ^ cs /\ cs < 12 /\ grow t cs = cs + 1) \/
  (~ (Z.of_nat (size t) = 2 ^ cs /\ cs < 12) /\ grow t cs = cs).
Proof.
  unfold grow. rewrite Z.shiftl_1_l.
  destruct (Z.eqb_spec (Z.of_nat (size t)) (2 ^ cs)); destruct (Z.ltb_spec cs 12);
    simpl; [left | right | right | right]; repeat split; try lia; tauto.
Qed.

(** What one iteration does to the code size. *)
Lemma step_code_size (st st' : state) :
  step ncolors lzw_min stream st = Ok (Continue st') ->
  exists code p,
    fetch_code stream (pos st) (code_size st) = Ok (code, p) /\
    if code =? clear_code lzw_min then code_size st' = first_code_size lzw_min
    else code_size st' = grow (table st') (code_size st).
Proof.
  unfold step. intros H. inv_bind H. destruct a as [code p]. exists code, p.
  split; [exact Ha|]. cbv beta iota in H.
  destruct (code =? clear_code lzw_min).
  - inv_bind H. destruct a as [code2 p2]. inversion H; subst. reflexivity.
  - destruct (code =? eoi_code lzw_min); [discriminate|].
    inv_bind H. destruct a as [[t ti] ix]. inversion H; subst. reflexivity.
Qed.

Lemma start_code_size (st : state) :
  start ncolors lzw_min stream = Ok st -> code_size st = first_code_size lzw_min.
Proof.
  unfold start. intros H. inv_bind H. destruct a as [c1 p1]. cbv beta iota in H.
  inv_bind H. destruct a as [c2 p2]. inversion H; subst. reflexivity.
Qed.



End Decoder.




End CodeSizeFacts.

(** ** The order of the bits *)

Module BitFacts.
Import BitStream Fixtures.

Lemma lsb_bits_cons (b : Z) (payload : list Z) :
  lsb_bits (b :: payload) =
  ((fun i => Z.testbit b i) <$> [0; 1; 2; 3; 4; 5; 6; 7]) ++ lsb_bits payload.
Proof. reflexivity. Qed.

Lemma length_lsb_bits (payload : list Z) :
  length (lsb_bits payload) = (8 * length payload)%nat.
Proof.
  induction payload as [|b payload IH]; [reflexivity|].
  rewrite lsb_bits_cons, length_app, IH. simpl. lia.
Qed.

(** The stream is the list of all bits, last bit first, as characters. *)
Lemma prepend_bytes_bits (data : list Z) :
  forall stream, prepend_bytes data stream = (bit_char <$> rev (lsb_bits data)) ++ stream.
Proof.
  unfold prepend_bytes.
  induction data as [|b data IH]; intros stream; [reflexivity|].
  simpl fold_left. rewrite IH, lsb_bits_cons, rev_app_distr, fmap_app, <- app_assoc.
  reflexivity.
Qed.

Lemma assemble_bits (payload : list Z) :
  assemble payload = bit_char <$> rev (lsb_bits payload).
Proof. unfold assemble. rewrite prepend_bytes_bits. apply app_nil_r. Qed.

Lemma prepend_bytes_assemble (payload data : list Z) :
  prepend_bytes data (assemble payload) = assemble (payload ++ data).
Proof. unfold assemble, prepend_bytes. rewrite fold_left_app. reflexivity. Qed.

(** The stream that the sub-block loop of an image hands to the decoder
    is the one assembled from the data bytes of all its sub-blocks. *)
Lemma read_stream_assembles (bytes : list Z) (fuel : nat) :
  forall idx idx' payload stream,
    Parser.read_stream bytes fuel idx (assemble payload) = Ok (stream, idx') ->
    exists data, stream = assemble (payload ++ data).
Proof.
  induction fuel as [|fuel IH]; intros idx idx' payload stream H; simpl in H;
    [discriminate|].
  inv_bind H. destruct a as [nbytes i1]. cbv beta iota in H.
  destruct (nbytes =? 0).
  - inversion H; subst. exists []. rewrite app_nil_r. reflexivity.
  - inv_bind H. destruct a as [data i2]. cbv beta iota in H.
    rewrite prepend_bytes_assemble in H. apply IH in H. destruct H as (rest & ->).
    exists (data ++ rest). rewrite app_assoc. reflexivity.
Qed.

Lemma length_assemble (payload : list Z) :
  length (assemble payload) = (8 * length payload)%nat.
Proof. rewrite assemble_bits, length_fmap, length_rev. apply length_lsb_bits. Qed.

Lemma lsb_bits_lookup (payload : list Z) :
  forall i, (i < 8 * length payload)%nat ->
            lsb_bits payload !! i = Some (payload_bit payload i).
Proof.
  induction payload as [|b payload IH]; intros i Hi; [simpl in Hi; lia|].
  rewrite lsb_bits_cons. destruct (Nat.lt_ge_cases i 8) as [Hlt|Hge].
  - rewrite lookup_app_l by (simpl; lia). unfold payload_bit.
    rewrite (Nat.div_small i 8), (Nat.mod_small i 8) by lia.
    do 8 (destruct i as [|i]; [reflexivity|]). lia.
  - rewrite lookup_app_r by (simpl; lia). simpl length in *.
    rewrite IH by lia. unfold payload_bit. f_equal.
    assert (i / 8 = S ((i - 8) / 8) /\ i mod 8 = (i - 8) mod 8)%nat as [-> ->].
    { replace i with (i - 8 + 1 * 8)%nat at 1 3 by lia.
      rewrite Nat.div_add, Nat.Div0.mod_add by lia. lia. }
    reflexivity.
Qed.

(** A window of the stream, read backwards, is a window of the bits. *)
Lemma window_of_rev {A} (l : list A) (off w : nat) :
  (off + w <= length l)%nat ->
  take w (drop (length l - off - w) (rev l)) = rev (take w (drop off l)).
Proof.
  intros H. rewrite skipn_rev.
  replace (length l - (length l - off - w))%nat with (off + w)%nat by lia.
  rewrite firstn_rev, length_take.
  replace (((off + w) `min` length l) - w)%nat with off by lia.
  rewrite take_drop_commute. reflexivity.
Qed.

Lemma binary_digits_bits (bs : list bool) :
  forall acc seen,
    binary_digits acc seen (bit_char <$> bs) =
    if seen || negb (Nat.eqb (length bs) 0)
    then Some (fold_left (fun a b => 2 * a + Z.b2z b) bs acc) else None.
Proof.
  induction bs as [|b bs IH]; intros acc seen; simpl.
  - rewrite orb_false_r. reflexivity.
  - rewrite orb_true_r. destruct b; simpl; rewrite IH; simpl; [f_equal|];
      repeat f_equal; lia.
Qed.

Lemma bits_to_Z_range (bs : list bool) : 0 <= bits_to_Z bs < 2 ^ Z.of_nat (length bs).
Proof.
  induction bs as [|b bs IH]; simpl; [lia|].
  rewrite Nat2Z.inj_succ, Z.pow_succ_r by lia. destruct b; simpl; lia.
Qed.

(** [stoi] on a window read backwards. *)
Lemma stoi2_rev_bits (bs : list bool) :
  (0 < length bs <= 31)%nat -> stoi2 (bit_char <$> rev bs) = Ok (bits_to_Z bs).
Proof.
  intros Hlen. unfold stoi2. rewrite binary_digits_bits, length_rev.
  destruct (Nat.eqb_spec (length bs) 0) as [E|_]; [lia|]. simpl.
  assert (fold_left (fun a b => 2 * a + Z.b2z b) (rev bs) 0 = bits_to_Z bs) as ->.
  { unfold bits_to_Z. rewrite <- (rev_involutive bs) at 2.
    rewrite fold_left_rev_right. reflexivity. }
  pose proof (bits_to_Z_range bs) as Hr.
  assert (2 ^ Z.of_nat (length bs) <= 2 ^ 31) by (apply Z.pow_le_mono_r; lia).
  unfold INT_MAX. destruct (Z.leb_spec (bits_to_Z bs) (2 ^ 31 - 1)); [reflexivity | lia].
Qed.

Lemma bits_to_Z_window (payload : list Z) (w : nat) :
  forall off, (off + w <= 8 * length payload)%nat ->
              bits_to_Z (take w (drop off (lsb_bits payload))) = bits_value payload off w.
Proof.
  induction w as [|w IH]; intros off H; [reflexivity|].
  rewrite (drop_S _ (payload_bit payload off) off) by (apply lsb_bits_lookup; lia).
  simpl. rewrite <- IH by lia. reflexivity.
Qed.

(** The bits of [bits_value] are the bits of the payload from [off] on. *)
Lemma bits_value_testbit (payload : list Z) (w : nat) :
  forall off j, (j < w)%nat ->
    Z.testbit (bits_value payload off w) (Z.of_nat j) = payload_bit payload (off + j).
Proof.
  induction w as [|w IH]; intros off j Hj; [lia|]. simpl bits_value.
  destruct j as [|j].
  - rewrite Nat.add_0_r. apply Z.testbit_0_r.
  - rewrite Nat2Z.inj_succ, Z.testbit_succ_r by lia. rewrite IH by lia.
    f_equal. lia.
Qed.

Lemma bits_value_range (payload : list Z) (w : nat) :
  forall off, 0 <= bits_value payload off w < 2 ^ Z.of_nat w.
Proof.
  induction w as [|w IH]; intros off; simpl bits_value; [simpl; lia|].
  rewrite Nat2Z.inj_succ, Z.pow_succ_r by lia.
  specialize (IH (S off)). destruct (payload_bit payload off); simpl; lia.
Qed.

(** One call of [fetch_code] after [off] bits have been taken. *)
Lemma fetch_code_bits (payload : list Z) (off w : nat) :
  (0 < w <= 31)%nat -> (off + w <= 8 * length payload)%nat ->
  fetch_code (assemble payload) (Z.of_nat (8 * length payload - off)) (Z.of_nat w) =
  Ok (bits_value payload off w, Z.of_nat (8 * length payload - (off + w))).
Proof.
  intros Hw Hfit. unfold fetch_code, substr. rewrite length_assemble.
  destruct (Z.ltb_spec (Z.of_nat (8 * length payload - off) - Z.of_nat w) 0); [lia|].
  destruct (Z.ltb_spec (Z.of_nat (8 * length payload))
              (Z.of_nat (8 * length payload - off) - Z.of_nat w)); [lia|].
  simpl orb. cbv iota. rewrite bind_Ok_l, Nat2Z.id, assemble_bits.
  replace (Z.to_nat (Z.of_nat (8 * length payload - off) - Z.of_nat w))
    with (length (lsb_bits payload) - off - w)%nat by (rewrite length_lsb_bits; lia).
  rewrite <- fmap_drop, <- fmap_take, window_of_rev by (rewrite length_lsb_bits; lia).
  rewrite stoi2_rev_bits.
  - rewrite bind_Ok_l, bits_to_Z_window by lia. do 2 f_equal. lia.
  - rewrite length_take, length_drop, length_lsb_bits. lia.
Qed.

(** The stream has run out: [substr] throws. *)
Lemma fetch_code_past_the_end (stream : list ascii) (pos w : Z) :
  pos < w -> fetch_code stream pos w = Err UncaughtException.
Proof.
  intros H. unfold fetch_code, substr.
  destruct (Z.ltb_spec (pos - w) 0); [reflexivity | lia].
Qed.

Lemma fetch_codes_bits (payload : list Z) (widths : list nat) :
  forall off,
    Forall (fun w => 0 < w <= 31)%nat widths ->
    (off + sum_list widths <= 8 * length payload)%nat ->
    exists codes,
      fetch_codes (assemble payload) (Z.of_nat (8 * length payload - off)) widths =
        Ok (codes, Z.of_nat (8 * length payload - (off + sum_list widths))) /\
      forall k w, widths !! k = Some w ->
        codes !! k = Some (bits_value payload (off + sum_list (take k widths)) w).
Proof.
  induction widths as [|w widths IH]; intros off Hw Hfit.
  - exists []. split; [simpl; do 3 f_equal; lia|]. intros k w Hk. inversion Hk.
  - apply Forall_cons in Hw. destruct Hw as [Hw Hws].
    change (sum_list (w :: widths)) with (w + sum_list widths)%nat in *.
    cbn [fetch_codes].
    rewrite fetch_code_bits by lia. rewrite bind_Ok_l. cbv beta iota.
    destruct (IH (off + w)%nat Hws ltac:(lia)) as (codes & Hcodes & Hk).
    rewrite Hcodes, bind_Ok_l. cbv beta iota.
    exists (bits_value payload off w :: codes). split; [do 3 f_equal; lia|].
    intros [|k] w' Hlk.
    + inversion Hlk; subst. simpl. rewrite Nat.add_0_r. reflexivity.
    + simpl in Hlk. simpl lookup. rewrite (Hk k w' Hlk). simpl. do 2 f_equal. lia.
Qed.

Lemma fetch_codes_length (stream : list ascii) (widths : list nat) :
  forall pos codes q,
    fetch_codes stream pos widths = Ok (codes, q) -> length codes = length widths.
Proof.
  induction widths as [|w widths IH]; intros pos codes q H; simpl in H.
  - inversion H; subst. reflexivity.
  - inv_bind H. destruct a as [c p1]. cbv beta iota in H. inv_bind H.
    destruct a as [cs p2]. inversion H; subst. simpl. f_equal. eapply IH. exact Ha0.
Qed.

(** Successive calls of [fetch_code] with code sizes [widths] (each
    between 1 and 31 bits) that fit in the payload all succeed, and the
    [k]-th code is the integer made of the payload bits from the sum of
    the sizes before it on, least significant first. *)
Lemma fetch_codes_are_bit_fields (payload : list Z) (widths : list nat) :
  Forall (fun w => 0 < w <= 31)%nat widths ->
  (sum_list widths <= 8 * length payload)%nat ->
  exists codes,
    fetch_codes (assemble payload) (Z.of_nat (length (assemble payload))) widths =
      Ok (codes, Z.of_nat (8 * length payload - sum_list widths)) /\
    length codes = length widths /\
    forall k w, widths !! k = Some w ->
      exists code,
        codes !! k = Some code /\
        code = bits_value payload (sum_list (take k widths)) w /\
        0 <= code < 2 ^ Z.of_nat w /\
        forall j, (j < w)%nat ->
          Z.testbit code (Z.of_nat j) =
          Z.testbit (nth ((sum_list (take k widths) + j) / 8) payload 0)
                    (Z.of_nat ((sum_list (take k widths) + j) mod 8)).
Proof.
  intros Hw Hfit.
  destruct (fetch_codes_bits payload widths 0 Hw ltac:(lia)) as (codes & Hcodes & Hk).
  exists codes. rewrite length_assemble.
  rewrite Nat.sub_0_r in Hcodes. change (0 + sum_list widths)%nat with (sum_list widths) in *.
  split; [exact Hcodes|]. split; [apply (fetch_codes_length _ _ _ _ _ Hcodes)|].
  intros k w Hlk. eexists. split; [apply (Hk k w Hlk)|]. simpl.
    split; [reflexivity|]. split; [apply bits_value_range|].
    intros j Hj. apply (bits_value_testbit payload w _ j Hj).
Qed.

End BitFacts.

(** ** The size of the code table *)

Module TableFacts.
Import BitStream LZW Fixtures BitFacts.

Lemma touch_present (t : table_t) (k : Z) (v : list Z) :
  t !! k = Some v -> touch k t = t.
Proof. unfold touch. intros ->. reflexivity. Qed.

Lemma touch_absent (t : table_t) (k : Z) :
  t !! k = None -> touch k t = <[k := []]> t.
Proof. unfold touch. intros ->. reflexivity. Qed.

(** The entries of a fresh table. *)
Lemma init_table_lookup (ncolors clear_code eoi_code j : Z) :
  init_table ncolors clear_code eoi_code !! j =
  if decide (eoi_code = j) then Some []
  else if decide (clear_code = j) then Some []
  else if decide (0 <= j < ncolors) then Some [j] else None.
Proof.
  unfold init_table. rewrite !lookup_insert.
  destruct (decide (eoi_code = j)); [reflexivity|].
  destruct (decide (clear_code = j)); [reflexivity|].
  assert (forall (m : nat) (t : table_t) (a : nat),
            fold_left (fun t i => <[i := [i]]> t) (Z.of_nat <$> seq a m) t !! j =
            if decide (Z.of_nat a <= j < Z.of_nat a + Z.of_nat m) then Some [j] else t !! j)
    as Hfold.
  { induction m as [|m IH]; intros t a; simpl.
    - destruct (decide _); [lia | reflexivity].
    - rewrite IH, lookup_insert.
      repeat destruct (decide _); try lia; try reflexivity. congruence. }
  change (map Z.of_nat) with (fmap (M := list) Z.of_nat).
  rewrite Hfold, lookup_empty. simpl.
  repeat destruct (decide _); try lia; reflexivity.
Qed.

(** An iteration on a code whose entry is [entry], with a previous code
    whose entry is [entry_prev], when the slot [table_index] is free. *)
Lemma step_known_code (ncolors lzw_min : Z) (stream : list ascii) (st : state)
    (code p x y : Z) (entry entry_prev : list Z) :
  fetch_code stream (pos st) (code_size st) = Ok (code, p) ->
  code <> clear_code lzw_min -> code <> eoi_code lzw_min ->
  table st !! code = Some (x :: entry) ->
  table st !! prev st = Some (y :: entry_prev) ->
  table st !! table_index st = None ->
  let t := <[table_index st := (y :: entry_prev) ++ [x]]> (table st) in
  step ncolors lzw_min stream st =
  Ok (Continue (mkState (grow t (code_size st)) t (table_index st + 1) code p
                        (index_stream st ++ x :: entry))).
Proof.
  intros Hf Hcc Heoi Hcode Hprev Hfree t. unfold step. rewrite Hf, bind_Ok_l.
  cbv beta iota.
  destruct (Z.eqb_spec code (clear_code lzw_min)); [contradiction|].
  destruct (Z.eqb_spec code (eoi_code lzw_min)); [contradiction|].
  rewrite Hcode.
  assert (table_index st <> code) as Hne1 by congruence.
  assert (table_index st <> prev st) as Hne2 by congruence.
  assert (push_back_first (table_index st) code
            (assign (table_index st) (prev st) (table st)) = Ok t) as ->.
  { unfold assign. rewrite (touch_present _ _ _ Hprev), (touch_absent _ _ Hfree).
    unfold at_key at 1. rewrite lookup_insert_ne, Hprev by exact Hne2. simpl default.
    rewrite insert_insert_eq. unfold push_back_first.
    rewrite (touch_present _ code (x :: entry))
      by (rewrite lookup_insert_ne by exact Hne1; exact Hcode).
    rewrite (touch_present _ (table_index st) (y :: entry_prev))
      by apply lookup_insert_eq.
    unfold at_key. rewrite lookup_insert_ne, Hcode by exact Hne1. simpl default.
    rewrite lookup_insert_eq. simpl default. rewrite insert_insert_eq. reflexivity. }
  rewrite bind_Ok_l. reflexivity.
Qed.

(** An iteration on the end code. *)
Lemma step_end_code (ncolors lzw_min : Z) (stream : list ascii) (st : state) (code p : Z) :
  fetch_code stream (pos st) (code_size st) = Ok (code, p) ->
  code <> clear_code lzw_min -> code = eoi_code lzw_min ->
  step ncolors lzw_min stream st =
  Ok (Break (mkState (code_size st) (table st) (table_index st) (prev st) p
                     (index_stream st))).
Proof.
  intros Hf Hcc Heoi. unfold step. rewrite Hf, bind_Ok_l. cbv beta iota.
  destruct (Z.eqb_spec code (clear_code lzw_min)); [contradiction|].
  destruct (Z.eqb_spec code (eoi_code lzw_min)); [reflexivity | contradiction].
Qed.

Lemma start_codes (ncolors lzw_min : Z) (stream : list ascii) (c1 p1 c2 p2 : Z) :
  fetch_code stream (Z.of_nat (length stream)) (lzw_min + 1) = Ok (c1, p1) ->
  fetch_code stream p1 (lzw_min + 1) = Ok (c2, p2) ->
  start ncolors lzw_min stream =
  Ok (mkState (lzw_min + 1) (init_table ncolors (clear_code lzw_min) (eoi_code lzw_min))
              (eoi_code lzw_min + 1) c2 p2 [c2]).
Proof.
  intros H1 H2. unfold start, first_code_size. rewrite H1, bind_Ok_l. cbv beta iota.
  rewrite H2, bind_Ok_l. reflexivity.
Qed.

Lemma run_from_start (ncolors lzw_min : Z) (stream : list ascii) (st0 : state) :
  0 <= lzw_min < 31 -> start ncolors lzw_min stream = Ok st0 ->
  run ncolors lzw_min stream = loop ncolors lzw_min stream (S (length stream)) st0.
Proof.
  intros Hmin H. unfold run.
  destruct (Z.ltb_spec lzw_min 0); [lia|]. destruct (Z.leb_spec 31 lzw_min); [lia|].
  simpl orb. cbv iota. rewrite H, bind_Ok_l. reflexivity.
Qed.

Lemma decode_of_run (ncolors lzw_min : Z) (stream : list ascii) (st : state) :
  run ncolors lzw_min stream = Ok st ->
  decode ncolors lzw_min stream = Ok (index_stream st).
Proof. intros H. unfold decode. rewrite H. reflexivity. Qed.

Lemma loop_S (ncolors lzw_min : Z) (stream : list ascii) (fuel : nat) (st : state) :
  loop ncolors lzw_min stream (S fuel) st =
  step ncolors lzw_min stream st ≫= fun r =>
    match r with
    | Continue st' => loop ncolors lzw_min stream fuel st'
    | Break st' => Ok st'
    end.
Proof. reflexivity. Qed.

(** *** A table of more than 4096 entries *)

Lemma zero_payload_length (n : nat) : length (zero_payload n) = (n + 3)%nat.
Proof. unfold zero_payload. simpl. rewrite length_app, repeat_length. simpl. lia. Qed.

Lemma zero_payload_bit (n i : nat) :
  (3 <= i < 8 * (n + 1))%nat -> payload_bit (zero_payload n) i = false.
Proof.
  intros Hi. unfold payload_bit, zero_payload. destruct (i / 8)%nat as [|q] eqn:Eq.
  - assert (i < 8)%nat by (apply Nat.div_small_iff in Eq; lia).
    rewrite Nat.mod_small by lia. simpl nth.
    do 8 (destruct i as [|i]; [try lia; try reflexivity|]). lia.
  - assert (i / 8 < n + 1)%nat by (apply Nat.Div0.div_lt_upper_bound; lia).
    simpl nth. rewrite app_nth1 by (rewrite repeat_length; lia).
    rewrite nth_repeat. apply Z.testbit_0_l.
Qed.

Lemma bits_value_zero (payload : list Z) (w : nat) :
  forall off, (forall i, (off <= i < off + w)%nat -> payload_bit payload i = false) ->
              bits_value payload off w = 0.
Proof.
  induction w as [|w IH]; intros off H; [reflexivity|]. simpl bits_value.
  rewrite IH by (intros i Hi; apply H; lia). rewrite H by lia. reflexivity.
Qed.

Lemma overflow_payload_length : length overflow_payload = Z.to_nat 5635.
Proof. unfold overflow_payload. rewrite zero_payload_length. lia. Qed.

Lemma overflow_stream_length : Z.of_nat (length (assemble overflow_payload)) = 45080.
Proof. rewrite length_assemble, overflow_payload_length. lia. Qed.

(** A code taken from the zeros of the payload. *)
Lemma fetch_zero (off w : Z) :
  3 <= off -> 0 < w <= 31 -> off + w <= 45064 ->
  fetch_code (assemble overflow_payload) (45080 - off) w = Ok (0, 45080 - (off + w)).
Proof.
  intros Hoff Hw Hfit.
  pose proof (fetch_code_bits overflow_payload (Z.to_nat off) (Z.to_nat w)) as H.
  rewrite overflow_payload_length in H.
  replace (Z.of_nat (8 * Z.to_nat 5635 - Z.to_nat off)) with (45080 - off) in H by lia.
  replace (Z.of_nat (8 * Z.to_nat 5635 - (Z.to_nat off + Z.to_nat w)))
    with (45080 - (off + w)) in H by lia.
  rewrite Z2Nat.id in H by lia. rewrite H by lia. do 2 f_equal.
  apply bits_value_zero. intros i Hi. apply zero_payload_bit. lia.
Qed.

Lemma fetch_first : fetch_code (assemble overflow_payload) 45080 3 = Ok (4, 45077).
Proof.
  pose proof (fetch_code_bits overflow_payload 0 3) as H.
  rewrite overflow_payload_length in H.
  replace (Z.of_nat (8 * Z.to_nat 5635 - 0)) with 45080 in H by lia.
  replace (Z.of_nat (8 * Z.to_nat 5635 - (0 + 3))) with 45077 in H by lia.
  change (Z.of_nat 3) with 3 in H. rewrite H by lia.
  assert (bits_value overflow_payload 0 3 = 4) as -> by (vm_compute; reflexivity).
  reflexivity.
Qed.

Lemma fetch_last : fetch_code (assemble overflow_payload) 16 12 = Ok (5, 4).
Proof.
  pose proof (fetch_code_bits overflow_payload (Z.to_nat 45064) 12) as H.
  rewrite overflow_payload_length in H.
  replace (Z.of_nat (8 * Z.to_nat 5635 - Z.to_nat 45064)) with 16 in H by lia.
  replace (Z.of_nat (8 * Z.to_nat 5635 - (Z.to_nat 45064 + 12))) with 4 in H by lia.
  change (Z.of_nat 12) with 12 in H. rewrite H by lia.
  assert (bits_value overflow_payload (Z.to_nat 45064) 12 = 5) as ->
    by (vm_compute; reflexivity).
  reflexivity.
Qed.

Lemma zero_schedule_bounds (k : nat) :
  let '(cs, off, sz) := zero_schedule k in
  3 <= cs <= 12 /\ 6 <= off /\ sz = 6 + Z.of_nat k.
Proof.
  induction k as [|k IH]; [simpl; lia|].
  simpl zero_schedule. destruct (zero_schedule k) as [[cs off] sz].
  destruct ((sz + 1 =? 2 ^ cs) && (cs <? 12)) eqn:E; [|lia].
  apply andb_prop in E. destruct E as [_ E]. apply Z.ltb_lt in E. lia.
Qed.

Lemma zero_schedule_mono (k k' : nat) :
  (k <= k')%nat -> (zero_schedule k).1.2 <= (zero_schedule k').1.2.
Proof.
  induction 1 as [|k' Hle IH]; [lia|].
  simpl zero_schedule. pose proof (zero_schedule_bounds k') as Hb.
  destruct (zero_schedule k') as [[cs off] sz]. simpl in *. lia.
Qed.

Lemma zero_schedule_end : zero_schedule (Z.to_nat 4091) = (12, 45064, 4097).
Proof. vm_compute. reflexivity. Qed.

Lemma zero_run_start :
  exists st, start 4 2 (assemble overflow_payload) = Ok st /\ zero_run_inv 0 st.
Proof.
  eexists. split.
  - apply (start_codes 4 2 _ 4 45077 0 45074).
    + rewrite overflow_stream_length. exact fetch_first.
    + exact (fetch_zero 3 3 ltac:(lia) ltac:(lia) ltac:(lia)).
  - unfold zero_run_inv. cbn [zero_schedule code_size pos table table_index prev index_stream].
    split; [reflexivity|]. split; [reflexivity|]. split; [vm_compute; reflexivity|].
    split; [reflexivity|]. split; [reflexivity|]. split; [vm_compute; reflexivity|].
    split; [|split; [intros j Hj; lia | reflexivity]].
    intros j Hj. rewrite init_table_lookup.
    change (eoi_code 2) with 5. change (clear_code 2) with 4.
    repeat destruct (decide _); try lia; reflexivity.
Qed.

Lemma zero_run_step (k : nat) (st : state) :
  (S k <= Z.to_nat 4091)%nat -> zero_run_inv k st ->
  exists st', step 4 2 (assemble overflow_payload) st = Ok (Continue st') /\
              zero_run_inv (S k) st'.
Proof.
  intros Hk Hinv. unfold zero_run_inv in *.
  pose proof (zero_schedule_bounds k) as Hb.
  pose proof (zero_schedule_mono (S k) _ Hk) as Hm. rewrite zero_schedule_end in Hm.
  simpl zero_schedule in *. destruct (zero_schedule k) as [[cs off] sz].
  simpl in Hm. destruct Hb as (Hcs & Hoff & Hsz).
  destruct Hinv as (Hc & Hp & Hsize & Hti & Hprev & H0 & Hfree & Hfull & Hout).
  assert (fetch_code (assemble overflow_payload) (pos st) (code_size st) =
          Ok (0, 45080 - (off + cs))) as Hf
    by (rewrite Hp, Hc; apply fetch_zero; lia).
  assert (table st !! prev st = Some [0]) as Hpv by (rewrite Hprev; exact H0).
  assert (table st !! table_index st = None) as Hfr by (apply Hfree; lia).
  eexists. split.
  - apply (step_known_code 4 2 _ st 0 _ 0 0 [] [] Hf); try assumption;
      vm_compute; discriminate.
  - simpl.
    assert (Z.of_nat (size (<[table_index st := [0; 0]]> (table st))) = sz + 1) as Hs
      by (rewrite map_size_insert_None by exact Hfr; lia).
    split; [unfold grow; rewrite Hs, Z.shiftl_1_l, Hc; reflexivity|].
    split; [reflexivity|]. split; [exact Hs|]. split; [lia|]. split; [reflexivity|].
    split; [rewrite lookup_insert_ne by lia; exact H0|].
    split; [intros j Hj; rewrite lookup_insert_ne by lia; apply Hfree; lia|].
    split.
    { intros j Hj. destruct (Z.eq_dec j (table_index st)) as [->|Hne].
      - apply lookup_insert_eq.
      - rewrite lookup_insert_ne by congruence. apply Hfull. lia. }
    rewrite Hout, <- repeat_cons. reflexivity.
Qed.

Lemma zero_run (k : nat) :
  (k <= Z.to_nat 4091)%nat ->
  forall st fuel, zero_run_inv 0 st ->
    exists st', zero_run_inv k st' /\
                loop 4 2 (assemble overflow_payload) (k + fuel) st =
                loop 4 2 (assemble overflow_payload) fuel st'.
Proof.
  induction k as [|k IH]; intros Hk st fuel Hinv.
  - exists st. split; [exact Hinv | reflexivity].
  - destruct (IH ltac:(lia) st (S fuel) Hinv) as (st1 & Hinv1 & Hloop).
    destruct (zero_run_step k st1 Hk Hinv1) as (st2 & Hstep & Hinv2).
    exists st2. split; [exact Hinv2|].
    replace (S k + fuel)%nat with (k + S fuel)%nat by lia.
    rewrite Hloop, loop_S, Hstep, bind_Ok_l. reflexivity.
Qed.

Lemma zero_run_end (st : state) :
  zero_run_inv (Z.to_nat 4091) st ->
  code_size st = 12 /\ pos st = 16 /\ size (table st) = Z.to_nat 4097 /\
  table_index st = 4097 /\ table st !! 4096 = Some [0; 0] /\
  index_stream st = repeat 0 (Z.to_nat 4092).
Proof.
  unfold zero_run_inv. rewrite zero_schedule_end.
  intros (Hc & Hp & Hsize & Hti & Hprev & H0 & Hfree & Hfull & Hout).
  split; [exact Hc|]. split; [rewrite Hp; reflexivity|]. split; [lia|].
  split; [exact Hti|]. split; [apply Hfull; lia|].
  rewrite Hout. replace (S (Z.to_nat 4091)) with (Z.to_nat 4092) by lia. reflexivity.
Qed.

(** C1, at the failing input: the data of a 66x62 image of four colors,
    all pixels 0, decodes to the 4092 indices, and the table that
    decoded it has 4097 entries: the entry with key 4096 was added when
    the table already held 4096 entries. *)
Theorem table_grows_beyond_4096_entries :
  exists st,
    run 4 2 (assemble overflow_payload) = Ok st /\
    size (table st) = Z.to_nat 4097 /\
    table st !! 4096 = Some [0; 0] /\
    table_index st = 4097 /\
    decode 4 2 (assemble overflow_payload) = Ok (repeat 0 (Z.to_nat 4092)).
Proof.
  destruct zero_run_start as (st0 & Hstart & Hinv0).
  destruct (zero_run (Z.to_nat 4091) (Nat.le_refl _) st0 (S (Z.to_nat 40989)) Hinv0)
    as (st & Hinv & Hloop).
  destruct (zero_run_end st Hinv) as (Hc & Hp & Hsize & Hti & Hfull & Hout).
  assert (fetch_code (assemble overflow_payload) (pos st) (code_size st) = Ok (5, 4)) as Hf
    by (rewrite Hp, Hc; exact fetch_last).
  pose proof (step_end_code 4 2 _ st 5 4 Hf ltac:(discriminate) eq_refl) as Hstep.
  assert (S (length (assemble overflow_payload)) =
          (Z.to_nat 4091 + S (Z.to_nat 40989))%nat) as Hfuel
    by (pose proof overflow_stream_length; lia).
  pose proof (run_from_start 4 2 _ st0 ltac:(lia) Hstart) as Hrun.
  rewrite Hfuel, Hloop, loop_S, Hstep, bind_Ok_l in Hrun.
  eexists. split; [exact Hrun|].
  split; [exact Hsize|]. split; [exact Hfull|]. split; [exact Hti|].
  rewrite (decode_of_run _ _ _ _ Hrun). f_equal. exact Hout.
Qed.

End TableFacts.

(** ** The loops end before their fuel does *)

Module FuelFacts.
Import BitStream LZW Blocks Parser.

Lemma bind_fuel {A B} (r : result A) (k : A -> result B) :
  r <> Err OutOfFuel ->
  (forall a, r = Ok a -> k a <> Err OutOfFuel) ->
  (r ≫= k) <> Err OutOfFuel.
Proof.
  intros Hr Hk. destruct r as [a|e]; simpl; [apply Hk; reflexivity|].
  intros H. apply Hr. inversion H; subst. reflexivity.
Qed.

(** *** The decoder *)

Lemma fetch_code_result (stream : list ascii) (pos w : Z) :
  fetch_code stream pos w <> Err OutOfFuel /\
  forall c p, fetch_code stream pos w = Ok (c, p) -> p = pos - w /\ 0 <= p.
Proof.
  unfold fetch_code, substr, stoi2. destruct (Z.ltb_spec (pos - w) 0) as [Hn|Hn]; simpl.
  - split; [discriminate | intros c p H; discriminate].
  - destruct (_ <? _); simpl; [split; [discriminate | intros c p H; discriminate]|].
    destruct (binary_digits _ _ _) as [v|]; simpl;
      [|split; [discriminate | intros c p H; discriminate]].
    destruct (v <=? INT_MAX); simpl; [|split; [discriminate | intros c p H; discriminate]].
    split; [discriminate|]. intros c p H. inversion H; subst. lia.
Qed.

Lemma push_back_first_fuel (dst src : Z) (t : table_t) :
  push_back_first dst src t <> Err OutOfFuel.
Proof. unfold push_back_first. destruct (at_key _ src); discriminate. Qed.

Section Decoder.
Variable ncolors : Z.
Variable lzw_min : Z.
Variable stream : list ascii.
Hypothesis lzw_min_nonneg : 0 <= lzw_min.

Lemma grow_ge (t : table_t) (cs : Z) : cs <= grow t cs.
Proof. unfold grow. destruct (_ && _); lia. Qed.

Lemma step_fuel (st : state) : step ncolors lzw_min stream st <> Err OutOfFuel.
Proof.
  unfold step. apply bind_fuel; [apply fetch_code_result|]. intros [code p] _.
  destruct (code =? clear_code lzw_min).
  - apply bind_fuel; [apply fetch_code_result|]. intros [c2 p2] _. discriminate.
  - destruct (code =? eoi_code lzw_min); [discriminate|].
    apply bind_fuel; [|intros [[t ti] ix] _; discriminate].
    destruct (table st !! code);
      (apply bind_fuel; [apply push_back_first_fuel | intros t _; discriminate]).
Qed.

Lemma step_progress (st st' : state) :
  1 <= code_size st ->
  step ncolors lzw_min stream st = Ok (Continue st') ->
  1 <= code_size st' /\ 0 <= pos st' < pos st.
Proof.
  unfold step. intros Hcs H. inv_bind H. destruct a as [code p]. cbv beta iota in H.
  destruct (proj2 (fetch_code_result _ _ _) _ _ Ha) as [-> Hp].
  destruct (code =? clear_code lzw_min).
  - inv_bind H. destruct a as [c2 p2].
    destruct (proj2 (fetch_code_result _ _ _) _ _ Ha0) as [-> Hp2].
    inversion H; subst; simpl. unfold first_code_size in *. lia.
  - destruct (code =? eoi_code lzw_min); [discriminate|].
    inv_bind H. destruct a as [[t ti] ix]. inversion H; subst; simpl.
    pose proof (grow_ge t (code_size st)). lia.
Qed.

Lemma loop_fuel (fuel : nat) :
  forall st, 1 <= code_size st -> 0 <= pos st < Z.of_nat fuel ->
             loop ncolors lzw_min stream fuel st <> Err OutOfFuel.
Proof.
  induction fuel as [|fuel IH]; intros st Hcs Hpos; [lia|]. simpl.
  apply bind_fuel; [apply step_fuel|]. intros [st'|st'] Hstep; [|discriminate].
  destruct (step_progress _ _ Hcs Hstep) as [Hcs' Hpos']. apply IH; lia.
Qed.

End Decoder.

(** The decoder never stops for lack of fuel. *)
Lemma run_fuel (ncolors lzw_min : Z) (stream : list ascii) :
  run ncolors lzw_min stream <> Err OutOfFuel.
Proof.
  unfold run. destruct (Z.ltb_spec lzw_min 0) as [Hneg|Hmin]; [discriminate|].
  destruct (31 <=? lzw_min); [discriminate|]. simpl orb. cbv iota.
  apply bind_fuel.
  - unfold start. apply bind_fuel; [apply fetch_code_result|]. intros [c1 p1] _.
    apply bind_fuel; [apply fetch_code_result|]. intros [c2 p2] _. discriminate.
  - intros st0 Hstart. unfold start in Hstart. inv_bind Hstart. destruct a as [c1 p1].
    cbv beta iota in Hstart. inv_bind Hstart. destruct a as [c2 p2].
    destruct (proj2 (fetch_code_result _ _ _) _ _ Ha) as [-> Hp1].
    destruct (proj2 (fetch_code_result _ _ _) _ _ Ha0) as [-> Hp2].
    inversion Hstart; subst. unfold first_code_size in *.
    apply loop_fuel; simpl; unfold first_code_size; lia.
Qed.

Lemma decode_fuel (ncolors lzw_min : Z) (stream : list ascii) :
  decode ncolors lzw_min stream <> Err OutOfFuel.
Proof.
  unfold decode. apply bind_fuel; [apply run_fuel|]. intros st _. discriminate.
Qed.

(** *** The parser *)

Section Bytes.
Variable bytes : list Z.

Lemma read_byte_result (idx : nat) :
  read_byte bytes idx <> Err OutOfFuel /\
  forall x idx', read_byte bytes idx = Ok (x, idx') ->
                 idx' = S idx /\ (idx < length bytes)%nat.
Proof.
  unfold read_byte. destruct (bytes !! idx) as [x|] eqn:E.
  - split; [discriminate|]. intros x' idx' H. inversion H; subst.
    split; [reflexivity|]. apply lookup_lt_Some in E. exact E.
  - split; [discriminate | intros x idx' H; discriminate].
Qed.

Lemma read_u16_result (idx : nat) :
  read_u16 bytes idx <> Err OutOfFuel /\
  forall x idx', read_u16 bytes idx = Ok (x, idx') -> (idx <= idx')%nat.
Proof.
  unfold read_u16. split.
  - apply bind_fuel; [apply read_byte_result|]. intros [lo i1] _.
    apply bind_fuel; [apply read_byte_result|]. intros [hi i2] _. discriminate.
  - intros x idx' H. inv_bind H. destruct a as [lo i1]. cbv beta iota in H.
    inv_bind H. destruct a as [hi i2]. inversion H; subst.
    apply read_byte_result in Ha, Ha0. lia.
Qed.

Lemma read_bytes_result (n : nat) :
  forall idx,
    read_bytes bytes n idx <> Err OutOfFuel /\
    forall xs idx', read_bytes bytes n idx = Ok (xs, idx') -> (idx <= idx')%nat.
Proof.
  induction n as [|n IH]; intros idx; simpl.
  - split; [discriminate|]. intros xs idx' H. inversion H; subst. lia.
  - split.
    + apply bind_fuel; [apply read_byte_result|]. intros [x i1] _.
      apply bind_fuel; [apply IH|]. intros [xs i2] _. discriminate.
    + intros xs idx' H. inv_bind H. destruct a as [x i1]. cbv beta iota in H.
      inv_bind H. destruct a as [ys i2]. inversion H; subst.
      apply read_byte_result in Ha. apply IH in Ha0. lia.
Qed.

Lemma read_colors_result (n : nat) :
  forall idx,
    read_colors bytes n idx <> Err OutOfFuel /\
    forall cs idx', read_colors bytes n idx = Ok (cs, idx') -> (idx <= idx')%nat.
Proof.
  induction n as [|n IH]; intros idx; simpl.
  - split; [discriminate|]. intros cs idx' H. inversion H; subst. lia.
  - split.
    + do 3 (apply bind_fuel; [apply read_byte_result|]; intros [? ?] _).
      apply bind_fuel; [apply IH|]. intros [cs i2] _. discriminate.
    + intros cs idx' H.
      do 3 (inv_bind H; destruct a as [? ?]; cbv beta iota in H).
      inv_bind H. destruct a as [cs' i4]. inversion H; subst.
      apply read_byte_result in Ha, Ha0, Ha1. apply IH in Ha2. lia.
Qed.

Lemma read_stream_result (fuel : nat) :
  forall idx stream,
    ((length bytes - idx < fuel)%nat -> read_stream bytes fuel idx stream <> Err OutOfFuel) /\
    forall s idx', read_stream bytes fuel idx stream = Ok (s, idx') -> (idx <= idx')%nat.
Proof.
  induction fuel as [|fuel IH]; intros idx stream; simpl.
  - split; [lia | intros s idx' H; discriminate].
  - split.
    + intros Hfuel. apply bind_fuel; [apply read_byte_result|]. intros [nbytes i1] H1.
      apply read_byte_result in H1. destruct (nbytes =? 0); [discriminate|].
      apply bind_fuel; [apply read_bytes_result|]. intros [data i2] H2.
      apply read_bytes_result in H2. apply IH. lia.
    + intros s idx' H. inv_bind H. destruct a as [nbytes i1]. cbv beta iota in H.
      apply read_byte_result in Ha. destruct (nbytes =? 0).
      * inversion H; subst. lia.
      * inv_bind H. destruct a as [data i2]. cbv beta iota in H.
        apply read_bytes_result in Ha0. apply IH in H. lia.
Qed.

Lemma read_sub_blocks_result (fuel : nat) :
  forall idx,
    ((length bytes - idx < fuel)%nat -> read_sub_blocks bytes fuel idx <> Err OutOfFuel) /\
    forall bs idx', read_sub_blocks bytes fuel idx = Ok (bs, idx') -> (idx <= idx')%nat.
Proof.
  induction fuel as [|fuel IH]; intros idx; simpl.
  - split; [lia | intros bs idx' H; discriminate].
  - split.
    + intros Hfuel. apply bind_fuel; [apply read_byte_result|]. intros [nbytes i1] H1.
      apply read_byte_result in H1. destruct (nbytes =? 0); [discriminate|].
      apply bind_fuel; [apply read_bytes_result|]. intros [data i2] H2.
      apply read_bytes_result in H2.
      apply bind_fuel; [apply IH; lia|]. intros [rest i3] _. discriminate.
    + intros bs idx' H. inv_bind H. destruct a as [nbytes i1]. cbv beta iota in H.
      apply read_byte_result in Ha. destruct (nbytes =? 0).
      * inversion H; subst. lia.
      * inv_bind H. destruct a as [data i2]. cbv beta iota in H.
        inv_bind H. destruct a as [rest i3]. inversion H; subst.
        apply read_bytes_result in Ha0. apply IH in Ha1. lia.
Qed.

Lemma skip_sub_blocks_result (fuel : nat) :
  forall idx,
    ((length bytes - idx < fuel)%nat -> skip_sub_blocks bytes fuel idx <> Err OutOfFuel) /\
    forall idx', skip_sub_blocks bytes fuel idx = Ok idx' -> (idx <= idx')%nat.
Proof.
  induction fuel as [|fuel IH]; intros idx; simpl.
  - split; [lia | intros idx' H; discriminate].
  - split.
    + intros Hfuel. apply bind_fuel; [apply read_byte_result|]. intros [nbytes i1] H1.
      apply read_byte_result in H1. destruct (nbytes =? 0); [discriminate|].
      apply IH. lia.
    + intros idx' H. inv_bind H. destruct a as [nbytes i1]. cbv beta iota in H.
      apply read_byte_result in Ha. destruct (nbytes =? 0).
      * inversion H; subst. lia.
      * apply IH in H. lia.
Qed.

Lemma decode_image_result (fuel : nat) (gct : list Color) (idx : nat) :
  ((length bytes - idx < fuel)%nat -> decode_image bytes fuel gct idx <> Err OutOfFuel) /\
  forall i idx', decode_image bytes fuel gct idx = Ok (i, idx') -> (idx <= idx')%nat.
Proof.
  unfold decode_image. split.
  - intros Hfuel.
    do 4 (apply bind_fuel; [apply read_u16_result|]; intros [? ?] ?).
    apply bind_fuel; [apply read_byte_result|]. intros [pf i5] H5.
    apply bind_fuel; [destruct (get_bit _ 7); [apply read_colors_result | discriminate]|].
    intros [ct i6] H6.
    apply bind_fuel; [apply read_byte_result|]. intros [lzw_min i7] H7.
    assert (idx <= i7)%nat as Hle.
    { repeat match goal with
             | H : read_u16 _ _ = _ |- _ => apply read_u16_result in H
             | H : read_byte _ _ = _ |- _ => apply read_byte_result in H
             end.
      destruct (get_bit _ 7); [apply read_colors_result in H6 | inversion H6; subst]; lia. }
    apply bind_fuel; [apply read_stream_result; lia|]. intros [stream i8] _.
    apply bind_fuel; [apply decode_fuel|]. intros ix _. discriminate.
  - intros i idx' H.
    do 4 (inv_bind H; destruct a as [? ?]; cbv beta iota in H).
    inv_bind H. destruct a as [pf i5]. cbv beta iota zeta in H.
    inv_bind H. destruct a as [ct i6]. cbv beta iota in H.
    inv_bind H. destruct a as [lzw_min i7]. cbv beta iota zeta in H.
    inv_bind H. destruct a as [stream i8]. cbv beta iota in H.
    inv_bind H. inversion H; subst.
    repeat match goal with
           | H : read_u16 _ _ = _ |- _ => apply read_u16_result in H
           | H : read_byte _ _ = _ |- _ => apply read_byte_result in H
           | H : read_stream _ _ _ _ = _ |- _ => apply read_stream_result in H
           end.
    destruct (get_bit _ 7); [apply read_colors_result in Ha4 | inversion Ha4; subst]; lia.
Qed.

Lemma read_image_result (fuel : nat) (gct : list Color) (idx : nat) :
  ((length bytes - idx < fuel)%nat -> read_image bytes fuel gct idx <> Err OutOfFuel) /\
  forall i idx', read_image bytes fuel gct idx = Ok (i, idx') -> (idx <= idx')%nat.
Proof.
  unfold read_image. split.
  - intros Hfuel. apply bind_fuel; [apply decode_image_result; exact Hfuel|].
    intros [i i1] _. destruct (index_fits i); discriminate.
  - intros i idx' H. inv_bind H. destruct a as [i0 i1]. cbv beta iota in H.
    apply decode_image_result in Ha. destruct (index_fits i0); [|discriminate].
    inversion H; subst. exact Ha.
Qed.

Lemma read_graphic_control_result (idx : nat) :
  read_graphic_control bytes idx <> Err OutOfFuel /\
  forall gc idx', read_graphic_control bytes idx = Ok (gc, idx') -> (idx <= idx')%nat.
Proof.
  unfold read_graphic_control. split.
  - do 2 (apply bind_fuel; [apply read_byte_result|]; intros [? ?] _).
    apply bind_fuel; [apply read_u16_result|]. intros [? ?] _.
    apply bind_fuel; [apply read_byte_result|]. intros [? ?] _. discriminate.
  - intros gc idx' H.
    do 4 (inv_bind H; destruct a as [? ?]; cbv beta iota zeta in H).
    inversion H; subst.
    apply read_byte_result in Ha, Ha0, Ha2. apply read_u16_result in Ha1. lia.
Qed.

Lemma read_application_extension_result (fuel : nat) (idx : nat) :
  ((length bytes - idx < fuel)%nat ->
   read_application_extension bytes fuel idx <> Err OutOfFuel) /\
  forall ae idx', read_application_extension bytes fuel idx = Ok (ae, idx') ->
                  (idx <= idx')%nat.
Proof.
  unfold read_application_extension. split.
  - intros Hfuel. apply bind_fuel; [apply read_byte_result|]. intros [? i1] H1.
    apply bind_fuel; [apply read_bytes_result|]. intros [? i2] H2.
    apply bind_fuel; [apply read_bytes_result|]. intros [? i3] H3.
    apply read_byte_result in H1. apply read_bytes_result in H2, H3.
    apply bind_fuel; [apply read_sub_blocks_result; lia|]. intros [? ?] _. discriminate.
  - intros ae idx' H.
    do 4 (inv_bind H; destruct a as [? ?]; cbv beta iota in H).
    inversion H; subst.
    apply read_byte_result in Ha. apply read_bytes_result in Ha0, Ha1.
    apply read_sub_blocks_result in Ha2. lia.
Qed.

Lemma skip_plain_text_result (fuel : nat) (idx : nat) :
  ((length bytes - idx < fuel)%nat -> skip_plain_text bytes fuel idx <> Err OutOfFuel) /\
  forall idx', skip_plain_text bytes fuel idx = Ok idx' -> (idx <= idx')%nat.
Proof.
  unfold skip_plain_text. split.
  - intros Hfuel. apply bind_fuel; [apply read_byte_result|]. intros [skip i1] H1.
    apply read_byte_result in H1. apply skip_sub_blocks_result. lia.
  - intros idx' H. inv_bind H. destruct a as [skip i1]. cbv beta iota in H.
    apply read_byte_result in Ha. apply skip_sub_blocks_result in H. lia.
Qed.

Lemma read_comment_result (fuel : nat) (idx : nat) :
  ((length bytes - idx < fuel)%nat -> read_comment bytes fuel idx <> Err OutOfFuel) /\
  forall cb idx', read_comment bytes fuel idx = Ok (cb, idx') -> (idx <= idx')%nat.
Proof.
  unfold read_comment. split.
  - intros Hfuel. apply bind_fuel; [apply read_sub_blocks_result; exact Hfuel|].
    intros [? ?] _. discriminate.
  - intros cb idx' H. inv_bind H. destruct a as [bs i1]. inversion H; subst.
    apply read_sub_blocks_result in Ha. exact Ha.
Qed.

Lemma read_blocks_fuel (fuel : nat) (gct : list Color) :
  forall idx acc, (length bytes - idx < fuel)%nat ->
                  read_blocks bytes fuel gct idx acc <> Err OutOfFuel.
Proof.
  induction fuel as [|fuel IH]; intros idx acc Hfuel; [lia|]. simpl.
  apply bind_fuel; [apply read_byte_result|]. intros [x i1] H1.
  apply read_byte_result in H1. destruct H1 as [-> Hlt].
  destruct (x =? 0x2C).
  { apply bind_fuel; [apply read_image_result; lia|]. intros [i i2] H2.
    apply read_image_result in H2. apply IH. lia. }
  destruct (x =? 0x21); [|destruct (x =? 0x3B); discriminate].
  apply bind_fuel; [apply read_byte_result|]. intros [label i2] H2.
  apply read_byte_result in H2. destruct H2 as [-> Hlt2].
  destruct (label =? 0xF9).
  { apply bind_fuel; [apply read_graphic_control_result|]. intros [gc i3] H3.
    apply read_graphic_control_result in H3. apply IH. lia. }
  destruct (label =? 0xFF).
  { apply bind_fuel; [apply read_application_extension_result; lia|]. intros [ae i3] H3.
    apply read_application_extension_result in H3. apply IH. lia. }
  destruct (label =? 0x01).
  { apply bind_fuel; [apply skip_plain_text_result; lia|]. intros i3 H3.
    apply skip_plain_text_result in H3. apply IH. lia. }
  destruct (label =? 0xFE); [|discriminate].
  apply bind_fuel; [apply read_comment_result; lia|]. intros [cb i3] H3.
  apply read_comment_result in H3. apply IH. lia.
Qed.

(** Parsing never stops for lack of fuel: the result is a block list, an
    assertion failure, an exception or undefined behaviour, as in the
    source. *)
Lemma parse_fuel : parse bytes <> Err OutOfFuel.
Proof.
  unfold parse. apply bind_fuel.
  { unfold check_header. destruct (bytes !! 4%nat) as [v|]; [|discriminate].
    destruct (v =? 0x39); discriminate. }
  intros _ _. apply bind_fuel.
  { unfold read_screen.
    do 2 (apply bind_fuel; [apply read_u16_result|]; intros [? ?] _).
    do 2 (apply bind_fuel; [apply read_byte_result|]; intros [? ?] _).
    apply bind_fuel; [|intros [? ?] _; discriminate].
    destruct (get_bit _ 7); [apply read_colors_result | discriminate]. }
  intros [scr idx] _. apply bind_fuel; [|intros bs _; discriminate].
  apply read_blocks_fuel. lia.
Qed.

End Bytes.

End FuelFacts.

(** ** The codes the decoder takes from the data of an image *)

Module BitOrderFacts.
Import BitStream LZW Parser Fixtures BitFacts CodeSizeFacts FuelFacts.

(** The sub-block loop of an image reads the same blocks as the one of
    the extensions and hands their bytes, in file order, to the
    decoder. *)
Lemma read_stream_payload (bytes : list Z) (fuel : nat) :
  forall idx payload stream idx',
    read_stream bytes fuel idx (assemble payload) = Ok (stream, idx') ->
    exists blocks,
      read_sub_blocks bytes fuel idx = Ok (blocks, idx') /\
      stream = assemble (payload ++ concat blocks).
Proof.
  induction fuel as [|fuel IH]; intros idx payload stream idx' H; [discriminate|].
  cbn [read_stream] in H. cbn [read_sub_blocks].
  destruct (read_byte bytes idx) as [[nbytes i1]|e]; [|discriminate].
  rewrite bind_Ok_l in H. rewrite bind_Ok_l. cbv beta iota in H. cbv beta iota.
  destruct (nbytes =? 0).
  - inversion H; subst. exists []. split; [reflexivity|].
    simpl. rewrite app_nil_r. reflexivity.
  - destruct (read_bytes bytes (Z.to_nat nbytes) i1) as [[data i2]|e]; [|discriminate].
    rewrite bind_Ok_l in H. rewrite bind_Ok_l. cbv beta iota in H. cbv beta iota.
    rewrite prepend_bytes_assemble in H. apply IH in H. destruct H as (rest & Hrest & ->).
    exists (data :: rest). rewrite Hrest, bind_Ok_l. cbv beta iota.
    split; [reflexivity|]. simpl. rewrite app_assoc. reflexivity.
Qed.

(** One call of [fetch_code] with [pos] bits left. *)
Lemma fetch_code_at (payload : list Z) (pos w : Z) :
  1 <= w <= 31 -> w <= pos <= Z.of_nat (8 * length payload) ->
  fetch_code (assemble payload) pos w = Ok (code_at payload pos w, pos - w).
Proof.
  intros Hw Hpos. unfold code_at.
  pose proof (fetch_code_bits payload (8 * length payload - Z.to_nat pos) (Z.to_nat w)
                ltac:(lia) ltac:(lia)) as H.
  replace (Z.of_nat (8 * length payload - (8 * length payload - Z.to_nat pos)))
    with pos in H by lia.
  replace (Z.of_nat (8 * length payload -
                     (8 * length payload - Z.to_nat pos + Z.to_nat w)))
    with (pos - w) in H by lia.
  rewrite Z2Nat.id in H by lia. exact H.
Qed.

Section Decoder.
Variable ncolors : Z.
Variable lzw_min : Z.
Variable payload : list Z.
Hypothesis lzw_min_range : 0 <= lzw_min <= 30.

Lemma start_short :
  Z.of_nat (8 * length payload) < 2 * (lzw_min + 1) ->
  start ncolors lzw_min (assemble payload) = Err UncaughtException.
Proof.
  intros Hshort. unfold start, first_code_size. cbv zeta. rewrite length_assemble.
  destruct (Z.lt_ge_cases (Z.of_nat (8 * length payload)) (lzw_min + 1)) as [Hlt|Hge].
  - rewrite fetch_code_past_the_end by exact Hlt. reflexivity.
  - rewrite fetch_code_at by lia. rewrite bind_Ok_l. cbv beta iota.
    rewrite fetch_code_past_the_end by lia. reflexivity.
Qed.

Lemma start_long :
  2 * (lzw_min + 1) <= Z.of_nat (8 * length payload) ->
  start ncolors lzw_min (assemble payload) =
  Ok (mkState (lzw_min + 1)
        (init_table ncolors (clear_code lzw_min) (eoi_code lzw_min))
        (eoi_code lzw_min + 1)
        (code_at payload (Z.of_nat (8 * length payload) - (lzw_min + 1)) (lzw_min + 1))
        (Z.of_nat (8 * length payload) - (lzw_min + 1) - (lzw_min + 1))
        [code_at payload (Z.of_nat (8 * length payload) - (lzw_min + 1)) (lzw_min + 1)]).
Proof.
  intros Hlong. unfold start, first_code_size. cbv zeta. rewrite length_assemble.
  rewrite fetch_code_at by lia. rewrite bind_Ok_l. cbv beta iota.
  rewrite fetch_code_at by lia. rewrite bind_Ok_l. reflexivity.
Qed.

Lemma reachable_bounds (st : state) :
  reachable ncolors lzw_min (assemble payload) st ->
  0 <= pos st <= Z.of_nat (8 * length payload) /\ 1 <= code_size st <= 31.
Proof.
  induction 1 as [st H|st st' Hr IH H].
  - destruct (Z.lt_ge_cases (Z.of_nat (8 * length payload)) (2 * (lzw_min + 1)))
      as [Hlt|Hge].
    + rewrite (start_short Hlt) in H. discriminate.
    + rewrite (start_long Hge) in H. inversion H; subst; simpl. lia.
  - destruct IH as [Hpos Hcs].
    destruct (step_progress ncolors lzw_min (assemble payload) ltac:(lia) st st'
                ltac:(lia) H) as [Hcs' Hpos'].
    split; [lia|]. split; [exact Hcs'|].
    destruct (step_code_size _ _ _ _ _ H) as (code & p & _ & Hnew).
    destruct (code =? clear_code lzw_min).
    + rewrite Hnew. unfold first_code_size. lia.
    + destruct (grow_cases (table st') (code_size st)) as [(_ & Hlt & Hg)|(_ & Hg)]; lia.
Qed.

(** With too few bits left the iteration ends the program. *)
Lemma step_short (st : state) :
  pos st < code_size st ->
  step ncolors lzw_min (assemble payload) st = Err UncaughtException.
Proof.
  intros Hshort. unfold step. rewrite fetch_code_past_the_end by exact Hshort. reflexivity.
Qed.

Lemma step_on_end_code (st : state) :
  reachable ncolors lzw_min (assemble payload) st ->
  code_size st <= pos st ->
  code_at payload (pos st) (code_size st) = eoi_code lzw_min ->
  step ncolors lzw_min (assemble payload) st =
  Ok (Break (mkState (code_size st) (table st) (table_index st) (prev st)
               (pos st - code_size st) (index_stream st))).
Proof.
  intros Hr Hfit Hcode. destruct (reachable_bounds st Hr) as [Hpos Hcs].
  unfold step. rewrite fetch_code_at by lia. rewrite bind_Ok_l. cbv beta iota.
  rewrite Hcode. unfold eoi_code.
  destruct (Z.eqb_spec (clear_code lzw_min + 1) (clear_code lzw_min)) as [E|_]; [lia|].
  rewrite Z.eqb_refl. reflexivity.
Qed.

Lemma step_on_clear_code (st : state) :
  reachable ncolors lzw_min (assemble payload) st ->
  code_size st <= pos st ->
  code_at payload (pos st) (code_size st) = clear_code lzw_min ->
  (pos st - code_size st < lzw_min + 1 ->
   step ncolors lzw_min (assemble payload) st = Err UncaughtException) /\
  (lzw_min + 1 <= pos st - code_size st ->
   step ncolors lzw_min (assemble payload) st =
   Ok (Continue
         (mkState (lzw_min + 1)
            (init_table ncolors (clear_code lzw_min) (eoi_code lzw_min))
            (eoi_code lzw_min + 1)
            (code_at payload (pos st - code_size st) (lzw_min + 1))
            (pos st - code_size st - (lzw_min + 1))
            (index_stream st ++ [code_at payload (pos st - code_size st) (lzw_min + 1)])))).
Proof.
  intros Hr Hfit Hcode. destruct (reachable_bounds st Hr) as [Hpos Hcs].
  split; intros Hleft; unfold step; rewrite fetch_code_at by lia;
    rewrite bind_Ok_l; cbv beta iota; rewrite Hcode, Z.eqb_refl; cbv zeta;
    unfold first_code_size.
  - rewrite fetch_code_past_the_end by exact Hleft. reflexivity.
  - rewrite fetch_code_at by lia. rewrite bind_Ok_l. reflexivity.
Qed.

Lemma step_on_other_code (st : state) (r : step_result) :
  reachable ncolors lzw_min (assemble payload) st ->
  code_size st <= pos st ->
  code_at payload (pos st) (code_size st) <> clear_code lzw_min ->
  code_at payload (pos st) (code_size st) <> eoi_code lzw_min ->
  step ncolors lzw_min (assemble payload) st = Ok r ->
  exists st', r = Continue st' /\
              prev st' = code_at payload (pos st) (code_size st) /\
              pos st' = pos st - code_size st.
Proof.
  intros Hr Hfit Hcc Heoi H. destruct (reachable_bounds st Hr) as [Hpos Hcs].
  unfold step in H. rewrite fetch_code_at in H by lia. rewrite bind_Ok_l in H.
  cbv beta iota in H.
  destruct (Z.eqb_spec (code_at payload (pos st) (code_size st)) (clear_code lzw_min));
    [contradiction|].
  destruct (Z.eqb_spec (code_at payload (pos st) (code_size st)) (eoi_code lzw_min));
    [contradiction|].
  apply bind_Ok in H. destruct H as ([[t ti] ix] & _ & H). inversion H; subst.
  eexists. split; [reflexivity|]. split; reflexivity.
Qed.

End Decoder.

(** C6: the codes the decoder takes from the data of an image are the
    bit fields of the data in the bit order of the format.  The stream
    that the sub-block loop hands to the decoder is made of the data
    bytes of the sub-blocks in file order, the payload.  [code_at] is the
    bit field at the position of the decoder: its bit [j] is the payload
    bit that follows the bits taken so far by [j] places, bits counted
    from the least significant bit of the first byte, across bytes.  The
    first code is dropped and the second one, the bit field behind it,
    becomes [prev]; every iteration of the loop takes the bit field of
    [code_size] bits at its position and moves on by [code_size] bits: it
    ends at the end code, takes the next bit field of [lzw_min + 1] bits
    as well at the clear code, and makes any other code [prev]; when the
    bits run out the program ends with an exception. *)
Theorem decoder_codes_are_lsb_first_bit_fields (bytes : list Z) (fuel idx idx' : nat)
    (stream : list ascii) (ncolors lzw_min : Z) :
  0 <= lzw_min <= 30 ->
  read_stream bytes fuel idx [] = Ok (stream, idx') ->
  exists blocks payload,
    read_sub_blocks bytes fuel idx = Ok (blocks, idx') /\
    payload = concat blocks /\
    (forall pos w j, (j < Z.to_nat w)%nat ->
       Z.testbit (code_at payload pos w) (Z.of_nat j) =
       Z.testbit (nth ((8 * length payload - Z.to_nat pos + j) / 8) payload 0)
                 (Z.of_nat ((8 * length payload - Z.to_nat pos + j) mod 8))) /\
    (Z.of_nat (8 * length payload) < 2 * (lzw_min + 1) ->
     start ncolors lzw_min stream = Err UncaughtException) /\
    (2 * (lzw_min + 1) <= Z.of_nat (8 * length payload) ->
     exists st0,
       start ncolors lzw_min stream = Ok st0 /\
       code_size st0 = lzw_min + 1 /\
       prev st0 = code_at payload (Z.of_nat (8 * length payload) - (lzw_min + 1))
                    (lzw_min + 1) /\
       pos st0 = Z.of_nat (8 * length payload) - 2 * (lzw_min + 1)) /\
    forall st code,
      reachable ncolors lzw_min stream st ->
      code = code_at payload (pos st) (code_size st) ->
      0 <= pos st <= Z.of_nat (8 * length payload) /\
      1 <= code_size st <= 31 /\
      (pos st < code_size st ->
       step ncolors lzw_min stream st = Err UncaughtException) /\
      (code_size st <= pos st -> code = eoi_code lzw_min ->
       exists st', step ncolors lzw_min stream st = Ok (Break st') /\
                   pos st' = pos st - code_size st) /\
      (code_size st <= pos st -> code = clear_code lzw_min ->
       pos st - code_size st < lzw_min + 1 ->
       step ncolors lzw_min stream st = Err UncaughtException) /\
      (code_size st <= pos st -> code = clear_code lzw_min ->
       lzw_min + 1 <= pos st - code_size st ->
       exists st', step ncolors lzw_min stream st = Ok (Continue st') /\
                   code_size st' = lzw_min + 1 /\
                   prev st' = code_at payload (pos st - code_size st) (lzw_min + 1) /\
                   pos st' = pos st - code_size st - (lzw_min + 1)) /\
      (code_size st <= pos st ->
       code <> clear_code lzw_min -> code <> eoi_code lzw_min ->
       forall r, step ncolors lzw_min stream st = Ok r ->
                 exists st', r = Continue st' /\ prev st' = code /\
                             pos st' = pos st - code_size st).
Proof.
  intros Hmin Hread.
  change (@nil ascii) with (assemble []) in Hread.
  apply read_stream_payload in Hread. destruct Hread as (blocks & Hblocks & Hstream).
  simpl app in Hstream. subst stream.
  exists blocks, (concat blocks). split; [exact Hblocks|]. split; [reflexivity|].
  split.
  { intros pos w j Hj. unfold code_at. rewrite bits_value_testbit by exact Hj.
    reflexivity. }
  split; [apply start_short; exact Hmin|].
  split.
  { intros Hlong. eexists. split; [apply start_long; assumption|].
    simpl. split; [reflexivity|]. split; [reflexivity | lia]. }
  intros st code Hr ->.
  destruct (reachable_bounds ncolors lzw_min (concat blocks) Hmin st Hr) as [Hpos Hcs].
  split; [exact Hpos|]. split; [exact Hcs|].
  split; [apply step_short|].
  split.
  { intros Hfit Hcode. eexists.
    split; [apply (step_on_end_code ncolors lzw_min (concat blocks) Hmin st Hr Hfit Hcode)|].
    reflexivity. }
  split.
  { intros Hfit Hcode.
    apply (step_on_clear_code ncolors lzw_min (concat blocks) Hmin st Hr Hfit Hcode). }
  split.
  { intros Hfit Hcode Hleft. eexists.
    split; [apply (proj2 (step_on_clear_code ncolors lzw_min (concat blocks) Hmin st Hr
                            Hfit Hcode) Hleft)|].
    simpl. split; [reflexivity|]. split; reflexivity. }
  intros Hfit Hcc Heoi r Hstep.
  apply (step_on_other_code ncolors lzw_min (concat blocks) Hmin st r Hr Hfit Hcc Heoi Hstep).
Qed.

(** The data of [tiny_gif]: the second code is 0, and the first iteration
    of the loop takes the code 1 from the bits 6 to 8, across the first
    two bytes. *)
Lemma decoder_codes_are_lsb_first_bit_fields_witness :
  exists stream st0 st1,
    read_stream tiny_gif 36 30 [] = Ok (stream, 35%nat) /\
    start 2 2 stream = Ok st0 /\ prev st0 = 0 /\ pos st0 = 18 /\
    step 2 2 stream st0 = Ok (Continue st1) /\ prev st1 = 1 /\ pos st1 = 15.
Proof.
  assert (read_stream tiny_gif 36 30 [] = Ok (assemble [0x44; 0x82; 0x02], 35%nat)) as Hread
    by (vm_compute; reflexivity).
  destruct (decoder_codes_are_lsb_first_bit_fields tiny_gif 36 30 35
              (assemble [0x44; 0x82; 0x02]) 2 2 ltac:(lia) Hread)
    as (blocks & payload & Hblocks & Hpayload & _ & _ & Hstart & Hloop).
  assert (blocks = [[0x44; 0x82; 0x02]]) as ->
    by (vm_compute in Hblocks; inversion Hblocks; reflexivity).
  subst payload.
  destruct (Hstart ltac:(simpl; lia)) as (st0 & Hst0 & Hcs0 & Hprev0 & Hpos0).
  destruct (step 2 2 (assemble [0x44; 0x82; 0x02]) st0) as [r|e] eqn:Hstep.
  - destruct (Hloop st0 _ (reach_start _ _ _ _ Hst0) eq_refl)
      as (_ & _ & _ & _ & _ & _ & Hother).
    rewrite Hpos0, Hcs0 in Hother.
    destruct (Hother ltac:(simpl; lia) ltac:(vm_compute; discriminate)
                ltac:(vm_compute; discriminate) r Hstep) as (st1 & -> & Hprev1 & Hpos1).
    exists (assemble [0x44; 0x82; 0x02]), st0, st1.
    split; [exact Hread|]. split; [exact Hst0|].
    split; [rewrite Hprev0; reflexivity|]. split; [rewrite Hpos0; reflexivity|].
    split; [exact Hstep|]. split; [rewrite Hprev1; reflexivity|].
    rewrite Hpos1; reflexivity.
  - exfalso. vm_compute in Hst0. inversion Hst0; subst st0.
    vm_compute in Hstep. discriminate.
Defined.

End BitOrderFacts.

(** ** The bit helpers *)

Module HelperFacts.

Lemma land_pow2 (n p : Z) :
  0 <= p -> Z.land n (2 ^ p) = if Z.testbit n p then 2 ^ p else 0.
Proof.
  intros Hp. apply Z.bits_inj'. intros m Hm.
  rewrite Z.land_spec, Z.pow2_bits_eqb by lia.
  destruct (Z.eqb_spec p m) as [->|Hne].
  - destruct (Z.testbit n m); simpl.
    + rewrite Z.pow2_bits_eqb, Z.eqb_refl by lia. reflexivity.
    + rewrite Z.bits_0. reflexivity.
  - rewrite andb_false_r. destruct (Z.testbit n p).
    + rewrite Z.pow2_bits_eqb by lia. symmetry. apply Z.eqb_neq. exact Hne.
    + rewrite Z.bits_0. reflexivity.
Qed.

Lemma get_bit_testbit (n p : Z) : 0 <= p -> get_bit n p = Z.testbit n p.
Proof.
  intros Hp. unfold get_bit. rewrite Z.shiftl_1_l, land_pow2 by exact Hp.
  destruct (Z.testbit n p); [|reflexivity].
  assert (0 < 2 ^ p) by (apply Z.pow_pos_nonneg; lia).
  destruct (Z.eqb_spec (2 ^ p) 0); [lia | reflexivity].
Qed.

Lemma to_int8_cases (b : Z) :
  0 <= b < 256 -> to_int8 b = b \/ to_int8 b = b - 256.
Proof.
  intros Hb. unfold to_int8. rewrite Z.mod_small by lia.
  destruct (b <? 128); [left | right]; reflexivity.
Qed.

Lemma to_int8_small (v : Z) : 0 <= v < 128 -> to_int8 v = v.
Proof.
  intros Hv. unfold to_int8. rewrite Z.mod_small by lia.
  destruct (Z.ltb_spec v 128); [reflexivity | lia].
Qed.

(** An [or] of a multiple of [2 ^ k] and a value below [2 ^ k] is their
    sum. *)
Lemma lor_disjoint (q y k : Z) :
  0 <= k -> 0 <= y < 2 ^ k -> Z.lor (q * 2 ^ k) y = q * 2 ^ k + y.
Proof.
  intros Hk Hy. symmetry. apply Z.add_nocarry_lor.
  apply Z.bits_inj'. intros m Hm. rewrite Z.land_spec, Z.bits_0.
  destruct (Z.lt_ge_cases m k) as [Hlt|Hge].
  - rewrite Z.mul_pow2_bits_low by lia. reflexivity.
  - replace y with (y mod 2 ^ k) by (apply Z.mod_small; lia).
    rewrite Z.mod_pow2_bits_high by lia. apply andb_false_r.
Qed.

(** The low eight bits of a byte survive the conversion to [int8_t]. *)
Lemma to_int8_testbit (b p : Z) :
  0 <= b < 256 -> 0 <= p <= 7 -> Z.testbit (to_int8 b) p = Z.testbit b p.
Proof.
  intros Hb Hp.
  destruct (to_int8_cases b Hb) as [->| ->]; [reflexivity|].
  rewrite <- (Z.mod_pow2_bits_low (b - 256) 8 p) by lia.
  rewrite <- (Z.mod_pow2_bits_low b 8 p) by lia.
  f_equal. change (2 ^ 8) with 256.
  replace (b - 256) with (b + (-1) * 256) by lia. apply Z.mod_add. lia.
Qed.

Lemma to_int8_field (b p l : Z) :
  0 <= b < 256 -> 0 <= p -> 0 <= l -> p + l <= 8 ->
  (to_int8 b / 2 ^ p) mod 2 ^ l = (b / 2 ^ p) mod 2 ^ l.
Proof.
  intros Hb Hp Hl Hfit.
  assert (0 < 2 ^ l) as Hpl by (apply Z.pow_pos_nonneg; lia).
  assert (0 < 2 ^ p) as Hpp by (apply Z.pow_pos_nonneg; lia).
  destruct (to_int8_cases b Hb) as [->| ->]; [reflexivity|].
  replace 256 with (2 ^ (8 - p - l) * 2 ^ l * 2 ^ p)
    by (rewrite <- !Z.pow_add_r by lia; replace (8 - p - l + l + p) with 8 by lia;
        reflexivity).
  replace (b - 2 ^ (8 - p - l) * 2 ^ l * 2 ^ p)
    with (b + (- (2 ^ (8 - p - l) * 2 ^ l)) * 2 ^ p) by lia.
  rewrite Z.div_add by lia.
  replace (b / 2 ^ p + - (2 ^ (8 - p - l) * 2 ^ l))
    with (b / 2 ^ p + (- 2 ^ (8 - p - l)) * 2 ^ l) by lia.
  apply Z.mod_add. lia.
Qed.

Lemma get_val_field (n p l : Z) :
  0 <= p -> 0 <= l <= 7 ->
  get_val n p l = (n / 2 ^ p) mod 2 ^ l.
Proof.
  intros Hp Hl.
  assert (0 < 2 ^ l) as Hpl by (apply Z.pow_pos_nonneg; lia).
  assert (2 ^ l <= 2 ^ 7) as Hl7 by (apply Z.pow_le_mono_r; lia).
  unfold get_val. rewrite Z.shiftl_1_l.
  replace (2 ^ l - 1) with (Z.ones l) by (rewrite Z.ones_equiv; lia).
  rewrite Z.land_ones, Z.shiftr_div_pow2 by lia.
  apply to_int8_small. pose proof (Z.mod_pos_bound (n / 2 ^ p) (2 ^ l) Hpl). lia.
Qed.

(** X1: the flag in bit [p] of a byte of the file comes out of [get_bit]
    as it is, also for bytes from 0x80 on, which the conversion to
    [int8_t] makes negative. *)
Theorem get_bit_reads_the_flag (b p : Z) :
  0 <= b < 256 -> 0 <= p <= 7 -> get_bit (to_int8 b) p = Z.testbit b p.
Proof.
  intros Hb Hp. rewrite get_bit_testbit by lia. apply to_int8_testbit; assumption.
Qed.

Lemma get_bit_reads_the_flag_witness :
  get_bit (to_int8 0x80) 7 = true /\ get_bit (to_int8 0x80) 6 = false.
Proof.
  rewrite !get_bit_reads_the_flag by lia. split; reflexivity.
Defined.

(** X2: [get_val] on a byte of the file gives the field of [l] bits from
    bit [p] on, as a value from 0 to [2 ^ l - 1], when the field lies in
    the byte and is at most 7 bits wide. *)
Theorem get_val_reads_the_field (b p l : Z) :
  0 <= b < 256 -> 0 <= p -> 0 <= l <= 7 -> p + l <= 8 ->
  get_val (to_int8 b) p l = (b / 2 ^ p) mod 2 ^ l /\
  0 <= get_val (to_int8 b) p l < 2 ^ l.
Proof.
  intros Hb Hp Hl Hfit.
  assert (0 < 2 ^ l) as Hpl by (apply Z.pow_pos_nonneg; lia).
  rewrite get_val_field, to_int8_field by lia.
  split; [reflexivity|]. apply Z.mod_pos_bound. exact Hpl.
Qed.

Lemma get_val_reads_the_field_witness :
  get_val (to_int8 0x91) 4 3 = 1 /\ get_val (to_int8 0xF9) 2 3 = 6.
Proof.
  split.
  - rewrite (proj1 (get_val_reads_the_field 0x91 4 3 ltac:(lia) ltac:(lia) ltac:(lia)
                      ltac:(lia))). reflexivity.
  - rewrite (proj1 (get_val_reads_the_field 0xF9 2 3 ltac:(lia) ltac:(lia) ltac:(lia)
                      ltac:(lia))). reflexivity.
Defined.

(** X3: [color_rgba] packs four channel bytes into one 32-bit value,
    alpha on top, and each channel is read back from its byte. *)
Theorem color_rgba_channels (r g b a : Z) :
  0 <= r < 256 -> 0 <= g < 256 -> 0 <= b < 256 -> 0 <= a < 256 ->
  color_rgba r g b a = a * 2 ^ 24 + r * 2 ^ 16 + g * 2 ^ 8 + b /\
  0 <= color_rgba r g b a < 2 ^ 32 /\
  color_rgba r g b a / 2 ^ 24 = a /\
  (color_rgba r g b a / 2 ^ 16) mod 256 = r /\
  (color_rgba r g b a / 2 ^ 8) mod 256 = g /\
  color_rgba r g b a mod 256 = b.
Proof.
  intros Hr Hg Hb Ha.
  assert (color_rgba r g b a = a * 2 ^ 24 + r * 2 ^ 16 + g * 2 ^ 8 + b) as E.
  { unfold color_rgba. rewrite !Z.shiftl_mul_pow2 by lia.
    rewrite (lor_disjoint a (r * 2 ^ 16) 24) by lia.
    replace (a * 2 ^ 24 + r * 2 ^ 16) with ((a * 2 ^ 8 + r) * 2 ^ 16) by lia.
    rewrite (lor_disjoint (a * 2 ^ 8 + r) (g * 2 ^ 8) 16) by lia.
    replace ((a * 2 ^ 8 + r) * 2 ^ 16 + g * 2 ^ 8)
      with ((a * 2 ^ 16 + r * 2 ^ 8 + g) * 2 ^ 8) by lia.
    rewrite (lor_disjoint (a * 2 ^ 16 + r * 2 ^ 8 + g) b 8) by lia.
    rewrite Z.mod_small by lia. lia. }
  rewrite E. split; [reflexivity|]. split; [lia|].
  change (2 ^ 24) with 16777216. change (2 ^ 16) with 65536. change (2 ^ 8) with 256.
  repeat split.
  - symmetry. apply Z.div_unique with (r * 65536 + g * 256 + b); lia.
  - replace (a * 16777216 + r * 65536 + g * 256 + b)
      with ((a * 256 + r) * 65536 + (g * 256 + b)) by lia.
    rewrite Z.div_add_l, (Z.div_small (g * 256 + b)) by lia.
    rewrite Z.add_0_r, Z.add_comm, Z.mod_add by lia. apply Z.mod_small. lia.
  - replace (a * 16777216 + r * 65536 + g * 256 + b)
      with ((a * 65536 + r * 256 + g) * 256 + b) by lia.
    rewrite Z.div_add_l, (Z.div_small b) by lia.
    rewrite Z.add_0_r.
    replace (a * 65536 + r * 256 + g) with (g + (a * 256 + r) * 256) by lia.
    rewrite Z.mod_add by lia. apply Z.mod_small. lia.
  - replace (a * 16777216 + r * 65536 + g * 256 + b)
      with (b + (a * 65536 + r * 256 + g) * 256) by lia.
    rewrite Z.mod_add by lia. apply Z.mod_small. lia.
Qed.

Lemma color_rgba_channels_witness :
  color_rgba 1 2 3 255 = 0xFF010203 /\ color_rgba 1 2 3 255 / 2 ^ 24 = 255.
Proof.
  destruct (color_rgba_channels 1 2 3 255 ltac:(lia) ltac:(lia) ltac:(lia) ltac:(lia))
    as (E & _ & Ha & _).
  split; [rewrite E; reflexivity | exact Ha].
Defined.

End HelperFacts.

(** ** The decoder, one iteration at a time *)

Module DecoderFacts.
Import BitStream LZW Fixtures BitFacts TableFacts FuelFacts.

Lemma fetch_code_error (stream : list ascii) (pos w : Z) (e : error) :
  fetch_code stream pos w = Err e -> e = UncaughtException.
Proof.
  unfold fetch_code, substr, stoi2. destruct (_ || _); simpl; [congruence|].
  destruct (binary_digits _ _ _) as [v|]; simpl; [|congruence].
  destruct (v <=? INT_MAX); simpl; [discriminate | congruence].
Qed.

(** X4: on the stream of a payload, [fetch_code] with a code size of 1 to
    31 bits succeeds exactly when that many bits are left; it then moves
    [pos] down by the code size; otherwise it throws. *)
Theorem fetch_code_needs_enough_bits (payload : list Z) (pos w : Z) :
  0 < w <= 31 -> 0 <= pos <= Z.of_nat (8 * length payload) ->
  (w <= pos ->
   fetch_code (assemble payload) pos w =
   Ok (bits_value payload (Z.to_nat (Z.of_nat (8 * length payload) - pos)) (Z.to_nat w),
       pos - w)) /\
  (pos < w -> fetch_code (assemble payload) pos w = Err UncaughtException).
Proof.
  intros Hw Hpos. split; [|apply fetch_code_past_the_end].
  intros Hle.
  pose proof (fetch_code_bits payload (Z.to_nat (Z.of_nat (8 * length payload) - pos))
                (Z.to_nat w) ltac:(lia) ltac:(lia)) as H.
  replace (Z.of_nat (8 * length payload -
                     Z.to_nat (Z.of_nat (8 * length payload) - pos))) with pos in H by lia.
  replace (Z.of_nat (8 * length payload -
                     (Z.to_nat (Z.of_nat (8 * length payload) - pos) + Z.to_nat w)))
    with (pos - w) in H by lia.
  rewrite Z2Nat.id in H by lia. exact H.
Qed.

Lemma fetch_code_needs_enough_bits_witness :
  fetch_code (assemble [0x44; 0x82]) 16 3 = Ok (4, 13) /\
  fetch_code (assemble [0x44; 0x82]) 2 3 = Err UncaughtException.
Proof.
  split.
  - rewrite (proj1 (fetch_code_needs_enough_bits [0x44; 0x82] 16 3 ltac:(lia)
                      ltac:(simpl; lia)) ltac:(lia)). reflexivity.
  - apply (proj2 (fetch_code_needs_enough_bits [0x44; 0x82] 2 3 ltac:(lia)
                    ltac:(simpl; lia))). lia.
Defined.

(** X5: a fresh table holds the one-element sequence [[j]] under every
    key [j] from 0 to [ncolors - 1], except that the keys of the clear code
    and of the end code hold the empty sequence, also when they lie below
    [ncolors]; no other key is in it. *)
Theorem init_table_entries (ncolors clear_code eoi_code j : Z) :
  init_table ncolors clear_code eoi_code !! j =
  if decide (j = eoi_code \/ j = clear_code) then Some []
  else if decide (0 <= j < ncolors) then Some [j] else None.
Proof.
  rewrite init_table_lookup.
  repeat destruct (decide _); try reflexivity; try lia; tauto.
Qed.






(** X7: a code that is not in the table is given the entry of the
    previous code followed by that entry's own first index, under the key
    of the code itself, whatever [table_index] is; the new entry is
    appended to the output and [table_index] becomes the code plus one. *)
Theorem iteration_on_unknown_code (ncolors lzw_min : Z) (stream : list ascii)
    (st : state) (code p y : Z) (entry_prev : list Z) :
  fetch_code stream (pos st) (code_size st) = Ok (code, p) ->
  code <> clear_code lzw_min -> code <> eoi_code lzw_min ->
  table st !! code = None ->
  table st !! prev st = Some (y :: entry_prev) ->
  exists st',
    step ncolors lzw_min stream st = Ok (Continue st') /\
    index_stream st' = index_stream st ++ y :: entry_prev ++ [y] /\
    table st' = <[code := y :: entry_prev ++ [y]]> (table st) /\
    table_index st' = code + 1 /\
    prev st' = code /\ pos st' = p.
Proof.
  intros Hf Hcc Heoi Hcode Hprev.
  assert (code <> prev st) as Hne by congruence.
  assert (push_back_first code (prev st) (assign code (prev st) (table st)) =
          Ok (<[code := y :: entry_prev ++ [y]]> (table st))) as Hpush.
  { unfold assign. rewrite (touch_present _ _ _ Hprev), (touch_absent _ _ Hcode).
    unfold at_key at 1. rewrite lookup_insert_ne, Hprev by exact Hne. simpl default.
    rewrite insert_insert_eq. unfold push_back_first.
    rewrite (touch_present _ (prev st) (y :: entry_prev))
      by (rewrite lookup_insert_ne by exact Hne; exact Hprev).
    rewrite (touch_present _ code (y :: entry_prev)) by apply lookup_insert_eq.
    unfold at_key. rewrite lookup_insert_ne, Hprev by exact Hne. simpl default.
    rewrite lookup_insert_eq. simpl default. rewrite insert_insert_eq. reflexivity. }
  eexists. split.
  - unfold step. rewrite Hf, bind_Ok_l. cbv beta iota.
    destruct (Z.eqb_spec code (clear_code lzw_min)); [contradiction|].
    destruct (Z.eqb_spec code (eoi_code lzw_min)); [contradiction|].
    rewrite Hcode, Hpush, !bind_Ok_l. cbv beta iota. reflexivity.
  - simpl. unfold at_key. rewrite lookup_insert_eq. simpl. repeat split; reflexivity.
Qed.


Lemma iteration_on_unknown_code_witness :
  exists st', step 4 2 (assemble sample_payload) sample_state0 = Ok (Continue st') /\
              index_stream st' = [1; 1; 1] /\ table_index st' = 7.
Proof.
  destruct (iteration_on_unknown_code 4 2 (assemble sample_payload) sample_state0
              6 167 1 [])
    as (st' & Hstep & Hout & _ & Hti & _);
    try (vm_compute; reflexivity); try (vm_compute; discriminate).
  exists st'. split; [exact Hstep|]. split; [exact Hout | exact Hti].
Defined.

(** *** The entries of the table *)

Lemma palette_insert (ncolors : Z) (t : table_t) (k : Z) (v : list Z) :
  entries_in_palette ncolors t -> Forall (fun i => 0 <= i < ncolors) v ->
  entries_in_palette ncolors (<[k := v]> t).
Proof.
  intros Ht Hv k' v' H. destruct (decide (k = k')) as [->|Hne].
  - rewrite lookup_insert_eq in H. inversion H; subst. exact Hv.
  - rewrite lookup_insert_ne in H by exact Hne. apply (Ht _ _ H).
Qed.

Lemma palette_touch (ncolors : Z) (t : table_t) (k : Z) :
  entries_in_palette ncolors t -> entries_in_palette ncolors (touch k t).
Proof.
  intros Ht. unfold touch. destruct (t !! k); [exact Ht|].
  apply palette_insert; [exact Ht | constructor].
Qed.

Lemma palette_at_key (ncolors : Z) (t : table_t) (k : Z) :
  entries_in_palette ncolors t -> Forall (fun i => 0 <= i < ncolors) (at_key t k).
Proof.
  intros Ht. unfold at_key. destruct (t !! k) as [v|] eqn:E; simpl; [|constructor].
  apply (Ht _ _ E).
Qed.

Lemma palette_assign (ncolors : Z) (t : table_t) (dst src : Z) :
  entries_in_palette ncolors t -> entries_in_palette ncolors (assign dst src t).
Proof.
  intros Ht. unfold assign. apply palette_insert; [|apply palette_at_key];
    do 2 apply palette_touch; exact Ht.
Qed.

Lemma palette_push_back_first (ncolors : Z) (t t' : table_t) (dst src : Z) :
  entries_in_palette ncolors t -> push_back_first dst src t = Ok t' ->
  entries_in_palette ncolors t'.
Proof.
  intros Ht H. unfold push_back_first in H.
  assert (entries_in_palette ncolors (touch dst (touch src t))) as Ht1
    by (do 2 apply palette_touch; exact Ht).
  pose proof (palette_at_key _ _ src Ht1) as Hsrc.
  destruct (at_key (touch dst (touch src t)) src) as [|k rest]; [discriminate|].
  inversion H; subst. apply palette_insert; [exact Ht1|].
  apply Forall_app. split; [apply palette_at_key; exact Ht1|].
  constructor; [|constructor]. apply Forall_cons in Hsrc. tauto.
Qed.

Lemma palette_init (ncolors clear_code eoi_code : Z) :
  entries_in_palette ncolors (init_table ncolors clear_code eoi_code).
Proof.
  intros k v H. rewrite init_table_lookup in H.
  repeat destruct (decide _); inversion H; subst; repeat constructor; lia.
Qed.

(** X8: whatever the codes are, every entry the table holds during
    decoding is a sequence of indices below [ncolors]: entries are only
    ever built from the one-index entries of a fresh table. *)
Theorem table_entries_stay_in_palette (ncolors lzw_min : Z) (stream : list ascii)
    (st : state) :
  reachable ncolors lzw_min stream st -> entries_in_palette ncolors (table st).
Proof.
  induction 1 as [st H|st st' Hr IH H].
  - unfold start in H. inv_bind H. destruct a as [c1 p1]. cbv beta iota in H.
    inv_bind H. destruct a as [c2 p2]. inversion H; subst. apply palette_init.
  - unfold step in H. inv_bind H. destruct a as [code p]. cbv beta iota in H.
    destruct (code =? clear_code lzw_min).
    + inv_bind H. destruct a as [c2 p2]. inversion H; subst. apply palette_init.
    + destruct (code =? eoi_code lzw_min); [discriminate|].
      inv_bind H. destruct a as [[t ti] ix]. inversion H; subst; simpl.
      destruct (table st !! code); inv_bind Ha0; inversion Ha0; subst;
        (eapply palette_push_back_first; [apply palette_assign; exact IH | eassumption]).
Qed.

Lemma table_entries_stay_in_palette_witness :
  exists st', step 4 2 (assemble sample_payload) sample_state0 = Ok (Continue st') /\
              entries_in_palette 4 (table st').
Proof.
  assert (start 4 2 (assemble sample_payload) = Ok sample_state0) as H0
    by (vm_compute; reflexivity).
  destruct (step 4 2 (assemble sample_payload) sample_state0) as [[st'|st']|e] eqn:E;
    [|vm_compute in E; discriminate|vm_compute in E; discriminate].
  exists st'. split; [reflexivity|].
  apply (table_entries_stay_in_palette 4 2 (assemble sample_payload)).
  apply (reach_step _ _ _ sample_state0); [apply reach_start; exact H0 | exact E].
Defined.

(** *** The end of the loop *)

Lemma loop_more_fuel (ncolors lzw_min : Z) (stream : list ascii) (fuel : nat) :
  forall st k,
    loop ncolors lzw_min stream fuel st <> Err OutOfFuel ->
    loop ncolors lzw_min stream (fuel + k) st = loop ncolors lzw_min stream fuel st.
Proof.
  induction fuel as [|fuel IH]; intros st k H; [simpl in H; congruence|].
  simpl in *. destruct (step ncolors lzw_min stream st) as [[st'|st']|e]; simpl in *;
    [apply IH; exact H | reflexivity | reflexivity].
Qed.

(** X9: every iteration of the decode loop takes at least one bit of the
    stream and never moves [pos] below 0, so the loop ends within as many
    iterations as the stream has bits: more iterations than that change
    nothing. *)
Theorem decode_loop_ends (ncolors lzw_min : Z) (stream : list ascii) (st0 : state) :
  0 <= lzw_min ->
  start ncolors lzw_min stream = Ok st0 ->
  (forall st st', reachable ncolors lzw_min stream st ->
                  step ncolors lzw_min stream st = Ok (Continue st') ->
                  0 <= pos st' < pos st) /\
  (forall k, loop ncolors lzw_min stream (S (length stream) + k) st0 =
             loop ncolors lzw_min stream (S (length stream)) st0).
Proof.
  intros Hmin Hstart.
  assert (forall st, reachable ncolors lzw_min stream st -> 1 <= code_size st) as Hcs.
  { induction 1 as [st H|st st' Hr IH H].
    - rewrite (CodeSizeFacts.start_code_size _ _ _ _ H). unfold first_code_size. lia.
    - apply (step_progress _ _ _ Hmin _ _ IH H). }
  split.
  - intros st st' Hr H. apply (step_progress _ _ _ Hmin _ _ (Hcs _ Hr) H).
  - intros k. apply loop_more_fuel. apply loop_fuel; [exact Hmin | |].
    + apply Hcs. apply reach_start. exact Hstart.
    + unfold start in Hstart. inv_bind Hstart. destruct a as [c1 p1].
      cbv beta iota in Hstart. inv_bind Hstart. destruct a as [c2 p2].
      destruct (proj2 (fetch_code_result _ _ _) _ _ Ha) as [-> Hp1].
      destruct (proj2 (fetch_code_result _ _ _) _ _ Ha0) as [-> Hp2].
      inversion Hstart; subst; simpl. unfold first_code_size in *. lia.
Qed.

Lemma decode_loop_ends_witness :
  loop 4 2 (assemble sample_payload) (S (length (assemble sample_payload)) + 7)
       sample_state0 =
  loop 4 2 (assemble sample_payload) (S (length (assemble sample_payload))) sample_state0.
Proof.
  apply (decode_loop_ends 4 2 (assemble sample_payload) sample_state0); [lia|].
  vm_compute. reflexivity.
Defined.

(** X10: a stream with fewer bits than two codes of the first code size,
    the empty stream of an image without data among them, ends the
    program with an uncaught exception before anything is decoded. *)
Theorem short_stream_throws (ncolors lzw_min : Z) (stream : list ascii) :
  0 <= lzw_min < 31 ->
  Z.of_nat (length stream) < 2 * (lzw_min + 1) ->
  decode ncolors lzw_min stream = Err UncaughtException.
Proof.
  intros Hmin Hlen. unfold decode, run.
  destruct (Z.ltb_spec lzw_min 0); [lia|]. destruct (Z.leb_spec 31 lzw_min); [lia|].
  simpl orb. cbv iota. unfold start, first_code_size.
  destruct (fetch_code stream (Z.of_nat (length stream)) (lzw_min + 1))
    as [[c1 p1]|e] eqn:E1.
  - destruct (proj2 (fetch_code_result _ _ _) _ _ E1) as [-> Hp1].
    rewrite bind_Ok_l. cbv beta iota.
    rewrite fetch_code_past_the_end by lia. reflexivity.
  - apply fetch_code_error in E1. subst e. reflexivity.
Qed.

Lemma short_stream_throws_witness : decode 4 2 [] = Err UncaughtException.
Proof. apply short_stream_throws; simpl; lia. Defined.

End DecoderFacts.

(** ** Reading the file *)

Module ReaderFacts.
Import BitStream Blocks Parser Fixtures HelperFacts FuelFacts BitFacts.

Section Bytes.
Variable bytes : list Z.

(** X11: [read_bytes] gives the [n] bytes from [idx] on and moves [idx]
    behind them when the file has that many; otherwise it reads outside
    the file.  Reading no byte at all never fails, wherever [idx] is. *)
Theorem read_bytes_takes_a_slice (n : nat) :
  forall idx,
    read_bytes bytes n idx =
    if decide (n = 0%nat \/ (idx + n <= length bytes)%nat)
    then Ok (take n (drop idx bytes), (idx + n)%nat)
    else Err UndefinedBehaviour.
Proof.
  induction n as [|n IH]; intros idx; cbn [read_bytes].
  - case_decide as Hn; [|exfalso; apply Hn; left; reflexivity].
    rewrite Nat.add_0_r. reflexivity.
  - unfold read_byte. destruct (bytes !! idx) as [x|] eqn:E.
    + apply lookup_lt_Some in E as Hlt. rewrite bind_Ok_l. cbv beta iota. rewrite IH.
      rewrite (drop_S _ _ _ E).
      destruct (decide (n = 0%nat \/ (S idx + n <= length bytes)%nat)) as [H1|H1];
        destruct (decide (S n = 0%nat \/ (idx + S n <= length bytes)%nat)) as [H2|H2];
        try (exfalso; lia); [|reflexivity].
      rewrite bind_Ok_l. cbv beta iota. cbn [take].
      replace (S idx + n)%nat with (idx + S n)%nat by lia. reflexivity.
    + apply lookup_ge_None in E.
      destruct (decide (S n = 0%nat \/ (idx + S n <= length bytes)%nat)) as [H2|H2];
        [exfalso; lia | reflexivity].
Qed.

Lemma read_u16_bytes (idx : nat) (lo hi : Z) :
  bytes !! idx = Some lo -> bytes !! S idx = Some hi ->
  read_u16 bytes idx = Ok (Z.lor lo (Z.shiftl hi 8), S (S idx)).
Proof.
  intros Hlo Hhi. unfold read_u16, read_byte.
  rewrite Hlo, bind_Ok_l. cbv beta iota. rewrite Hhi, bind_Ok_l. reflexivity.
Qed.

Lemma lor_low_high (lo hi : Z) :
  0 <= lo < 256 -> Z.lor lo (Z.shiftl hi 8) = lo + 256 * hi.
Proof.
  intros Hl. rewrite Z.shiftl_mul_pow2, Z.lor_comm, (lor_disjoint hi lo 8) by lia. lia.
Qed.

(** X12: two bytes of the file are read as a 16-bit value, low byte
    first. *)
Theorem read_u16_little_endian (idx : nat) (lo hi : Z) :
  bytes !! idx = Some lo -> bytes !! S idx = Some hi ->
  0 <= lo < 256 -> 0 <= hi < 256 ->
  read_u16 bytes idx = Ok (lo + 256 * hi, S (S idx)) /\ 0 <= lo + 256 * hi < 65536.
Proof.
  intros Hlo Hhi Hl Hh. split; [|lia].
  rewrite (read_u16_bytes idx lo hi Hlo Hhi), lor_low_high by exact Hl. reflexivity.
Qed.

(** X13: the stream of an image is the assembly of the data of all its
    sub-blocks, one after the other, and the sub-block loop of an image
    stops where the sub-block loop of the extensions does. *)
Theorem read_stream_is_assembled_sub_blocks (fuel : nat) :
  forall idx payload,
    read_stream bytes fuel idx (assemble payload) =
    read_sub_blocks bytes fuel idx ≫= fun '(blocks, idx') =>
      Ok (assemble (payload ++ concat blocks), idx').
Proof.
  induction fuel as [|fuel IH]; intros idx payload; [reflexivity|]. simpl.
  destruct (read_byte bytes idx) as [[nbytes i1]|e]; [|reflexivity].
  rewrite !bind_Ok_l. cbv beta iota. destruct (nbytes =? 0).
  - rewrite bind_Ok_l. cbv beta iota. simpl. rewrite app_nil_r. reflexivity.
  - destruct (read_bytes bytes (Z.to_nat nbytes) i1) as [[data i2]|e]; [|reflexivity].
    rewrite !bind_Ok_l. cbv beta iota. rewrite prepend_bytes_assemble, IH.
    destruct (read_sub_blocks bytes fuel i2) as [[rest i3]|e]; [|reflexivity].
    rewrite !bind_Ok_l. cbv beta iota. simpl. rewrite app_assoc. reflexivity.
Qed.

(** X14: the block loop only appends: the blocks read so far stay, in
    their order, in front of whatever the rest of the file adds. *)
Theorem read_blocks_appends (gct : list Color) (fuel : nat) :
  forall idx acc,
    read_blocks bytes fuel gct idx acc =
    read_blocks bytes fuel gct idx [] ≫= fun more => Ok (acc ++ more).
Proof.
  induction fuel as [|fuel IH]; intros idx acc; [reflexivity|]. simpl.
  assert (forall i blk,
            read_blocks bytes fuel gct i (acc ++ [blk]) =
            read_blocks bytes fuel gct i ([] ++ [blk]) ≫= fun more => Ok (acc ++ more))
    as Hsnoc.
  { intros i blk. rewrite (IH i (acc ++ [blk])), (IH i ([] ++ [blk])).
    destruct (read_blocks bytes fuel gct i []) as [more|e]; [|reflexivity].
    rewrite !bind_Ok_l. simpl. rewrite <- app_assoc. reflexivity. }
  destruct (read_byte bytes idx) as [[x i1]|e]; [|reflexivity].
  rewrite !bind_Ok_l. cbv beta iota.
  destruct (x =? 0x2C).
  { destruct (read_image bytes (S fuel) gct i1) as [[i i2]|e]; [|reflexivity].
    rewrite !bind_Ok_l. cbv beta iota. apply Hsnoc. }
  destruct (x =? 0x21).
  2: { destruct (x =? 0x3B); rewrite bind_Ok_l, app_nil_r; reflexivity. }
  destruct (read_byte bytes i1) as [[label i2]|e]; [|reflexivity].
  rewrite !bind_Ok_l. cbv beta iota.
  destruct (label =? 0xF9).
  { destruct (read_graphic_control bytes i2) as [[gc i3]|e]; [|reflexivity].
    rewrite !bind_Ok_l. cbv beta iota. apply Hsnoc. }
  destruct (label =? 0xFF).
  { destruct (read_application_extension bytes (S fuel) i2) as [[ae i3]|e]; [|reflexivity].
    rewrite !bind_Ok_l. cbv beta iota. apply Hsnoc. }
  destruct (label =? 0x01).
  { destruct (skip_plain_text bytes (S fuel) i2) as [i3|e]; [|reflexivity].
    rewrite !bind_Ok_l. apply IH. }
  destruct (label =? 0xFE).
  { destruct (read_comment bytes (S fuel) i2) as [[cb i3]|e]; [|reflexivity].
    rewrite !bind_Ok_l. cbv beta iota. apply Hsnoc. }
  rewrite bind_Ok_l, app_nil_r. reflexivity.
Qed.

Lemma read_screen_index (scr : Screen) (idx : nat) :
  read_screen bytes = Ok (scr, idx) -> (13 <= idx)%nat.
Proof.
  unfold read_screen.
  destruct (read_u16 bytes 6) as [[w i1]|e]; [|discriminate].
  rewrite bind_Ok_l. cbv beta iota.
  destruct (read_u16 bytes 8) as [[h i2]|e]; [|discriminate].
  rewrite bind_Ok_l. cbv beta iota.
  destruct (read_byte bytes 10) as [[pf i3]|e]; [|discriminate].
  rewrite bind_Ok_l. cbv beta iota zeta.
  destruct (read_byte bytes 11) as [[bk i4]|e]; [|discriminate].
  rewrite bind_Ok_l. cbv beta iota zeta.
  destruct (get_bit (to_int8 pf) 7).
  - destruct (read_colors bytes _ 13) as [[g i]|e] eqn:E; [|discriminate].
    rewrite bind_Ok_l. cbv beta iota. intros H. inversion H; subst.
    apply (proj2 (read_colors_result bytes _ _)) in E. exact E.
  - rewrite bind_Ok_l. cbv beta iota. intros H. inversion H; subst. lia.
Qed.

(** X15: a file that is parsed to the end has at least 14 bytes: the 13
    bytes of header and screen descriptor and one block introducer; a
    shorter one is read outside its bounds or stops at the assertion. *)
Theorem parsed_file_has_14_bytes (gif : Gif) :
  parse bytes = Ok gif -> (14 <= length bytes)%nat.
Proof.
  unfold parse.
  destruct (check_header bytes) as [u|e]; [|discriminate].
  rewrite bind_Ok_l.
  destruct (read_screen bytes) as [[scr idx]|e] eqn:Escr; [|discriminate].
  rewrite bind_Ok_l. cbv beta iota.
  apply read_screen_index in Escr.
  cbn [read_blocks].
  destruct (read_byte bytes idx) as [[x i1]|e] eqn:E; [|discriminate].
  apply (proj2 (read_byte_result bytes idx)) in E. intros _. lia.
Qed.

End Bytes.

Lemma read_u16_little_endian_witness : read_u16 tiny_gif 6 = Ok (2, 8%nat).
Proof.
  apply (proj1 (read_u16_little_endian tiny_gif 6 2 0 eq_refl eq_refl ltac:(lia)
                  ltac:(lia))).
Defined.

Lemma parsed_file_has_14_bytes_witness :
  is_ok (parse tiny_gif) = true /\ (14 <= length tiny_gif)%nat.
Proof.
  destruct (parse tiny_gif) as [gif|e] eqn:E.
  - split; [reflexivity|]. apply (parsed_file_has_14_bytes tiny_gif gif E).
  - vm_compute in E. discriminate.
Defined.

Lemma lookup_byte (bytes : list Z) (i : nat) (x : Z) :
  Forall (fun b => 0 <= b < 256) bytes -> bytes !! i = Some x -> 0 <= x < 256.
Proof.
  intros Hb Hx. rewrite Forall_forall in Hb. apply Hb.
  apply (list_elem_of_lookup_2 bytes i). exact Hx.
Qed.

Lemma read_byte_inv (bytes : list Z) (idx : nat) (x : Z) (idx' : nat) :
  read_byte bytes idx = Ok (x, idx') -> bytes !! idx = Some x /\ idx' = S idx.
Proof.
  unfold read_byte. destruct (bytes !! idx) as [y|]; [|discriminate].
  intros H. inversion H; subst. split; reflexivity.
Qed.

Lemma read_u16_inv (bytes : list Z) (idx : nat) (x : Z) (idx' : nat) :
  Forall (fun b => 0 <= b < 256) bytes ->
  read_u16 bytes idx = Ok (x, idx') ->
  exists lo hi, bytes !! idx = Some lo /\ bytes !! S idx = Some hi /\
                x = lo + 256 * hi /\ idx' = S (S idx).
Proof.
  intros Hb H. unfold read_u16 in H.
  destruct (read_byte bytes idx) as [[lo i1]|e] eqn:E1; [|discriminate].
  rewrite bind_Ok_l in H. cbv beta iota in H.
  apply read_byte_inv in E1. destruct E1 as [Hlo ->].
  destruct (read_byte bytes (S idx)) as [[hi i2]|e] eqn:E2; [|discriminate].
  rewrite bind_Ok_l in H. cbv beta iota in H.
  apply read_byte_inv in E2. destruct E2 as [Hhi ->].
  exists lo, hi. split; [exact Hlo|]. split; [exact Hhi|].
  pose proof (lookup_byte bytes _ _ Hb Hlo). pose proof (lookup_byte bytes _ _ Hb Hhi).
  inversion H; subst. split; [|reflexivity]. apply lor_low_high. lia.
Qed.

Lemma read_colors_Ok (bytes : list Z) (n : nat) :
  forall idx cs idx',
    read_colors bytes n idx = Ok (cs, idx') ->
    length cs = n /\ idx' = (idx + 3 * n)%nat.
Proof.
  induction n as [|n IH]; intros idx cs idx' H; cbn [read_colors] in H.
  - inversion H; subst. split; [reflexivity | lia].
  - destruct (read_byte bytes idx) as [[cr i1]|e] eqn:E1; [|discriminate].
    rewrite bind_Ok_l in H. cbv beta iota in H. apply read_byte_inv in E1.
    destruct E1 as [_ ->].
    destruct (read_byte bytes (S idx)) as [[cg i2]|e] eqn:E2; [|discriminate].
    rewrite bind_Ok_l in H. cbv beta iota in H. apply read_byte_inv in E2.
    destruct E2 as [_ ->].
    destruct (read_byte bytes (S (S idx))) as [[cb i3]|e] eqn:E3; [|discriminate].
    rewrite bind_Ok_l in H. cbv beta iota in H. apply read_byte_inv in E3.
    destruct E3 as [_ ->].
    destruct (read_colors bytes n (S (S (S idx)))) as [[cs1 i4]|e] eqn:E4; [|discriminate].
    rewrite bind_Ok_l in H. cbv beta iota in H. inversion H; subst.
    destruct (IH _ _ _ E4) as [Hlen ->]. split; [simpl; congruence | lia].
Qed.

Lemma read_bytes_Ok (bytes : list Z) (n : nat) :
  forall idx data idx',
    read_bytes bytes n idx = Ok (data, idx') ->
    data = take n (drop idx bytes) /\ length data = n /\ idx' = (idx + n)%nat.
Proof.
  induction n as [|n IH]; intros idx data idx' H; cbn [read_bytes] in H.
  - inversion H; subst. split; [reflexivity|]. split; [reflexivity | lia].
  - destruct (read_byte bytes idx) as [[x i1]|e] eqn:E1; [|discriminate].
    rewrite bind_Ok_l in H. cbv beta iota in H. apply read_byte_inv in E1.
    destruct E1 as [Hx ->].
    destruct (read_bytes bytes n (S idx)) as [[xs i2]|e] eqn:E2; [|discriminate].
    rewrite bind_Ok_l in H. cbv beta iota in H. inversion H; subst.
    destruct (IH _ _ _ E2) as (-> & Hlen & ->).
    rewrite (drop_S _ _ _ Hx). split; [reflexivity|]. split; [simpl; congruence | lia].
Qed.

(** X24: the logical screen descriptor.  Width and height are read low
    byte first; the flag of the global color table is bit 7 of the packed
    byte; the table holds [2 ^ (N + 1)] colors of three bytes each, where
    [N] is the field in bits 4 to 6 of the packed byte, and bits 0 to 2
    play no part; without the flag there is no table and the blocks start
    at byte 13. *)
Theorem read_screen_fields (bytes : list Z) (scr : Screen) (idx : nat) :
  Forall (fun b => 0 <= b < 256) bytes ->
  read_screen bytes = Ok (scr, idx) ->
  exists w0 w1 h0 h1 pf bk,
    bytes !! 6%nat = Some w0 /\ bytes !! 7%nat = Some w1 /\
    bytes !! 8%nat = Some h0 /\ bytes !! 9%nat = Some h1 /\
    bytes !! 10%nat = Some pf /\ bytes !! 11%nat = Some bk /\
    canvas_width scr = w0 + 256 * w1 /\
    canvas_height scr = h0 + 256 * h1 /\
    gct_flag scr = Z.testbit pf 7 /\
    bkgd_color_idx scr = bk /\
    length (gct scr) =
      (if Z.testbit pf 7 then Z.to_nat (2 ^ ((pf / 16) mod 8 + 1)) else 0%nat) /\
    idx = (13 + 3 * length (gct scr))%nat.
Proof.
  intros Hb H. unfold read_screen in H.
  destruct (read_u16 bytes 6) as [[w i1]|e] eqn:Ew; [|discriminate].
  rewrite bind_Ok_l in H. cbv beta iota in H.
  destruct (read_u16 bytes 8) as [[h i2]|e] eqn:Eh; [|discriminate].
  rewrite bind_Ok_l in H. cbv beta iota in H.
  destruct (read_byte bytes 10) as [[pf i3]|e] eqn:Ep; [|discriminate].
  rewrite bind_Ok_l in H. cbv beta iota zeta in H.
  destruct (read_byte bytes 11) as [[bk i4]|e] eqn:Ek; [|discriminate].
  rewrite bind_Ok_l in H. cbv beta iota zeta in H.
  apply (read_u16_inv bytes _ _ _ Hb) in Ew. destruct Ew as (w0 & w1 & Hw0 & Hw1 & -> & _).
  apply (read_u16_inv bytes _ _ _ Hb) in Eh. destruct Eh as (h0 & h1 & Hh0 & Hh1 & -> & _).
  apply read_byte_inv in Ep. destruct Ep as [Hpf _].
  apply read_byte_inv in Ek. destruct Ek as [Hbk _].
  pose proof (lookup_byte bytes _ _ Hb Hpf) as Rpf.
  exists w0, w1, h0, h1, pf, bk. do 6 (split; [assumption|]).
  rewrite get_bit_testbit, to_int8_testbit in H by lia.
  rewrite get_val_field, (to_int8_field pf 4 3) in H by lia.
  change (2 ^ 4) with 16 in H. change (2 ^ 3) with 8 in H.
  rewrite Z.shiftl_1_l in H.
  destruct (Z.testbit pf 7).
  - destruct (read_colors bytes _ 13) as [[g i]|e] eqn:Eg; [|discriminate].
    rewrite bind_Ok_l in H. cbv beta iota in H. inversion H; subst; simpl.
    apply read_colors_Ok in Eg. destruct Eg as [Hlen ->].
    rewrite Hlen. repeat split; reflexivity.
  - rewrite bind_Ok_l in H. cbv beta iota in H. inversion H; subst; simpl.
    repeat split; reflexivity.
Qed.

Lemma read_screen_fields_witness :
  exists scr idx,
    read_screen tiny_gif = Ok (scr, idx) /\
    canvas_width scr = 2 /\ length (gct scr) = 2%nat /\ idx = 19%nat.
Proof.
  destruct (read_screen tiny_gif) as [[scr idx]|e] eqn:E; [|vm_compute in E; discriminate].
  exists scr, idx. split; [reflexivity|].
  destruct (read_screen_fields tiny_gif scr idx) as
    (w0 & w1 & h0 & h1 & pf & bk & Hw0 & Hw1 & _ & _ & Hpf & _ & Hw & _ & _ & _ & Hlen & Hidx).
  - repeat constructor; lia.
  - exact E.
  - inversion Hw0; subst w0. inversion Hw1; subst w1. inversion Hpf; subst pf.
    split; [rewrite Hw; reflexivity|]. split; [rewrite Hlen; reflexivity|].
    rewrite Hidx, Hlen. reflexivity.
Defined.

(** X25: the bytes a chain of data sub-blocks takes in the file are the
    blocks that were read, every one behind its size byte, and the zero
    byte that ends the chain; no block is empty and none is longer than
    255 bytes. *)
Theorem sub_blocks_cover_their_bytes (bytes : list Z) (fuel : nat) :
  Forall (fun b => 0 <= b < 256) bytes ->
  forall idx blocks idx',
    read_sub_blocks bytes fuel idx = Ok (blocks, idx') ->
    take (idx' - idx) (drop idx bytes) = sub_block_layout blocks /\
    (idx < idx' <= length bytes)%nat /\
    Forall (fun data => (0 < length data <= 255)%nat) blocks.
Proof.
  intros Hb. induction fuel as [|fuel IH]; intros idx blocks idx' H; [discriminate|].
  cbn [read_sub_blocks] in H.
  destruct (read_byte bytes idx) as [[nbytes i1]|e] eqn:E1; [|discriminate].
  rewrite bind_Ok_l in H. cbv beta iota in H.
  apply read_byte_inv in E1. destruct E1 as [Hn ->].
  pose proof (lookup_byte bytes _ _ Hb Hn) as Rn.
  pose proof (lookup_lt_Some _ _ _ Hn) as Hlt.
  destruct (Z.eqb_spec nbytes 0) as [->|Hne].
  - inversion H; subst. replace (S idx - idx)%nat with 1%nat by lia.
    rewrite (drop_S _ _ _ Hn). split; [reflexivity|]. split; [lia | constructor].
  - destruct (read_bytes bytes (Z.to_nat nbytes) (S idx)) as [[data i2]|e] eqn:E2;
      [|discriminate].
    rewrite bind_Ok_l in H. cbv beta iota in H.
    destruct (read_sub_blocks bytes fuel i2) as [[rest i3]|e] eqn:E3; [|discriminate].
    rewrite bind_Ok_l in H. cbv beta iota in H. inversion H; subst; clear H.
    apply read_bytes_Ok in E2. destruct E2 as (Hdata & Hlen & ->).
    destruct (IH _ _ _ E3) as (Hrest & Hidx & Hall).
    split; [|split; [lia|]].
    + unfold sub_block_layout in *. cbn [map concat]. rewrite Hlen, Z2Nat.id by lia.
      rewrite (drop_S _ _ _ Hn).
      replace (idx' - idx)%nat with (S (Z.to_nat nbytes + (idx' - (S idx + Z.to_nat nbytes))))
        by lia.
      cbn [take]. f_equal. rewrite <- app_assoc, <- Hrest.
      rewrite <- take_take_drop, drop_drop, <- Hdata. reflexivity.
    + constructor; [rewrite Hlen; lia | exact Hall].
Qed.

Lemma sub_blocks_cover_their_bytes_witness :
  read_sub_blocks sub_block_bytes 8 1 = Ok ([[1; 2]; [3]], 7%nat) /\
  take (7 - 1) (drop 1 sub_block_bytes) = sub_block_layout [[1; 2]; [3]].
Proof.
  assert (read_sub_blocks sub_block_bytes 8 1 = Ok ([[1; 2]; [3]], 7%nat)) as H
    by (vm_compute; reflexivity).
  split; [exact H|].
  apply (sub_blocks_cover_their_bytes sub_block_bytes 8 ltac:(repeat constructor; lia)
           1%nat [[1; 2]; [3]] 7%nat H).
Defined.

(** X27: the image descriptor.  Left, top, width and height are read
    low byte first; the interlace flag is bit 6 of the packed byte; with
    bit 7 set the color table of the image is a local one of
    [2 ^ (N + 1)] colors, [N] being bits 0 to 2 of the packed byte;
    without it the image gets the global color table, whatever that
    holds. *)
Theorem read_image_fields (bytes : list Z) (fuel : nat) (gct : list Color)
    (idx : nat) (img : Image) (idx' : nat) :
  Forall (fun b => 0 <= b < 256) bytes ->
  read_image bytes fuel gct idx = Ok (img, idx') ->
  exists l0 l1 t0 t1 w0 w1 h0 h1 pf,
    take 9 (drop idx bytes) = [l0; l1; t0; t1; w0; w1; h0; h1; pf] /\
    left img = l0 + 256 * l1 /\ top img = t0 + 256 * t1 /\
    width img = w0 + 256 * w1 /\ height img = h0 + 256 * h1 /\
    interlace img = Z.testbit pf 6 /\
    (if Z.testbit pf 7 then length (ct img) = Z.to_nat (2 ^ (pf mod 8 + 1))
     else ct img = gct).
Proof.
  intros Hb H. unfold read_image in H.
  destruct (decode_image bytes fuel gct idx) as [[i i9]|e] eqn:E; [|discriminate].
  rewrite bind_Ok_l in H. cbv beta iota in H.
  destruct (index_fits i); [|discriminate]. inversion H; subst i i9; clear H.
  unfold decode_image in E.
  destruct (read_u16 bytes idx) as [[l i1]|e] eqn:El; [|discriminate].
  rewrite bind_Ok_l in E. cbv beta iota in E.
  apply (read_u16_inv bytes _ _ _ Hb) in El. destruct El as (l0 & l1 & Hl0 & Hl1 & -> & ->).
  destruct (read_u16 bytes _) as [[t i2]|e] eqn:Et in E; [|discriminate].
  rewrite bind_Ok_l in E. cbv beta iota in E.
  apply (read_u16_inv bytes _ _ _ Hb) in Et. destruct Et as (t0 & t1 & Ht0 & Ht1 & -> & ->).
  destruct (read_u16 bytes _) as [[w i3]|e] eqn:Ew in E; [|discriminate].
  rewrite bind_Ok_l in E. cbv beta iota in E.
  apply (read_u16_inv bytes _ _ _ Hb) in Ew. destruct Ew as (w0 & w1 & Hw0 & Hw1 & -> & ->).
  destruct (read_u16 bytes _) as [[h i4]|e] eqn:Eh in E; [|discriminate].
  rewrite bind_Ok_l in E. cbv beta iota in E.
  apply (read_u16_inv bytes _ _ _ Hb) in Eh. destruct Eh as (h0 & h1 & Hh0 & Hh1 & -> & ->).
  destruct (read_byte bytes _) as [[pf i5]|e] eqn:Ep in E; [|discriminate].
  rewrite bind_Ok_l in E. cbv beta iota zeta in E.
  apply read_byte_inv in Ep. destruct Ep as [Hpf ->].
  pose proof (lookup_byte bytes _ _ Hb Hpf) as Rpf.
  rewrite !get_bit_testbit, !to_int8_testbit in E by lia.
  rewrite get_val_field, (to_int8_field pf 0 3) in E by lia.
  change (2 ^ 0) with 1 in E. change (2 ^ 3) with 8 in E.
  rewrite Z.div_1_r, Z.shiftl_1_l in E.
  exists l0, l1, t0, t1, w0, w1, h0, h1, pf.
  assert (take 9 (drop idx bytes) = [l0; l1; t0; t1; w0; w1; h0; h1; pf]) as Htake.
  { rewrite (drop_S _ _ _ Hl0), (drop_S _ _ _ Hl1), (drop_S _ _ _ Ht0), (drop_S _ _ _ Ht1),
      (drop_S _ _ _ Hw0), (drop_S _ _ _ Hw1), (drop_S _ _ _ Hh0), (drop_S _ _ _ Hh1),
      (drop_S _ _ _ Hpf). reflexivity. }
  split; [exact Htake|].
  destruct (Z.testbit pf 7).
  - destruct (read_colors bytes _ _) as [[lct i6]|e] eqn:Ec in E; [|discriminate].
    rewrite bind_Ok_l in E. cbv beta iota in E.
    apply read_colors_Ok in Ec. destruct Ec as [Hlen _].
    destruct (read_byte bytes i6) as [[lzw_min i7]|e]; [|discriminate].
    rewrite bind_Ok_l in E. cbv beta iota zeta in E.
    destruct (read_stream bytes fuel i7 []) as [[stream i8]|e]; [|discriminate].
    rewrite bind_Ok_l in E. cbv beta iota in E.
    destruct (LZW.decode _ lzw_min stream) as [ixs|e]; [|discriminate].
    rewrite bind_Ok_l in E. inversion E; subst; simpl.
    repeat split; try reflexivity. exact Hlen.
  - rewrite bind_Ok_l in E. cbv beta iota in E.
    destruct (read_byte bytes _) as [[lzw_min i7]|e] in E; [|discriminate].
    rewrite bind_Ok_l in E. cbv beta iota zeta in E.
    destruct (read_stream bytes fuel i7 []) as [[stream i8]|e]; [|discriminate].
    rewrite bind_Ok_l in E. cbv beta iota in E.
    destruct (LZW.decode _ lzw_min stream) as [ixs|e]; [|discriminate].
    rewrite bind_Ok_l in E. inversion E; subst; simpl.
    repeat split; reflexivity.
Qed.

Lemma read_image_fields_witness :
  exists img idx',
    read_image tiny_gif 36 [black; white] 20 = Ok (img, idx') /\
    width img = 2 /\ interlace img = false /\ ct img = [black; white].
Proof.
  destruct (read_image tiny_gif 36 [black; white] 20) as [[img idx']|e] eqn:E;
    [|vm_compute in E; discriminate].
  exists img, idx'. split; [reflexivity|].
  destruct (read_image_fields tiny_gif 36 [black; white] 20 img idx'
              ltac:(repeat constructor; lia) E)
    as (l0 & l1 & t0 & t1 & w0 & w1 & h0 & h1 & pf & Htake & _ & _ & Hw & _ & Hi & Hct).
  inversion Htake; subst. split; [rewrite Hw; reflexivity|].
  split; [rewrite Hi; reflexivity | exact Hct].
Defined.

(** X16: the fields of a graphic control extension.  The packed byte
    gives the transparency flag (bit 0), the user input flag (bit 1) and
    the disposal method (bits 2 to 4, a value from 0 to 7; the reserved
    bits 5 to 7 play no part); the delay is read low byte first; the block
    takes six bytes, of which the last one, the terminator, is stepped
    over without being read. *)
Theorem read_graphic_control_fields (bytes : list Z) (idx : nat) (size pk lo hi ci : Z) :
  bytes !! idx = Some size ->
  bytes !! (idx + 1)%nat = Some pk ->
  bytes !! (idx + 2)%nat = Some lo ->
  bytes !! (idx + 3)%nat = Some hi ->
  bytes !! (idx + 4)%nat = Some ci ->
  0 <= pk < 256 -> 0 <= lo < 256 -> 0 <= hi < 256 ->
  read_graphic_control bytes idx =
    Ok (mkGraphicsControl (Z.testbit pk 0) (Z.testbit pk 1) ((pk / 4) mod 8)
          (lo + 256 * hi) ci, (idx + 6)%nat) /\
  0 <= (pk / 4) mod 8 < 8.
Proof.
  intros Hsize Hpk Hlo Hhi Hci Rpk Rlo Rhi.
  split; [|apply Z.mod_pos_bound; lia].
  replace (idx + 1)%nat with (S idx) in Hpk by lia.
  replace (idx + 2)%nat with (S (S idx)) in Hlo by lia.
  replace (idx + 3)%nat with (S (S (S idx))) in Hhi by lia.
  replace (idx + 4)%nat with (S (S (S (S idx)))) in Hci by lia.
  assert (forall i x, bytes !! i = Some x -> read_byte bytes i = Ok (x, S i)) as Hread
    by (intros i x E; unfold read_byte; rewrite E; reflexivity).
  unfold read_graphic_control.
  rewrite (Hread _ _ Hsize), bind_Ok_l. cbv beta iota.
  rewrite (Hread _ _ Hpk), bind_Ok_l. cbv beta iota zeta.
  rewrite (read_u16_bytes bytes _ lo hi Hlo Hhi), lor_low_high, bind_Ok_l by exact Rlo.
  cbv beta iota.
  rewrite (Hread _ _ Hci), bind_Ok_l. cbv beta iota.
  rewrite !get_bit_testbit, !to_int8_testbit by lia.
  rewrite get_val_field, (to_int8_field pk 2 3) by lia.
  change (2 ^ 2) with 4. change (2 ^ 3) with 8.
  rewrite (Z.mod_small ((pk / 4) mod 8) 256)
    by (pose proof (Z.mod_pos_bound (pk / 4) 8 ltac:(lia)); lia).
  replace (S (S (S (S (S (S idx)))))) with (idx + 6)%nat by lia. reflexivity.
Qed.

Lemma read_graphic_control_fields_witness :
  read_graphic_control control_bytes 0 =
  Ok (mkGraphicsControl true false 6 0x110 7, 6%nat).
Proof.
  apply (proj1 (read_graphic_control_fields control_bytes 0 4 0xF9 0x10 0x01 7
                  eq_refl eq_refl eq_refl eq_refl eq_refl
                  ltac:(lia) ltac:(lia) ltac:(lia))).
Defined.

End ReaderFacts.

(** ** Drawing on the canvas *)

Module CanvasFacts.
Import Playback Fixtures InterlaceFacts CompositeFacts.

Lemma lookupZ_in_range {A} (l : list A) (i : Z) :
  in_range l i = true -> exists x, lookupZ l i = Some x.
Proof.
  unfold in_range, lookupZ. intros H. apply andb_true_iff in H. destruct H as [H0 H1].
  apply Z.leb_le in H0. apply Z.ltb_lt in H1.
  destruct (Z.ltb_spec i 0); [lia|]. apply lookup_lt_is_Some. lia.
Qed.

Lemma write_same {A} (l l' : list A) (i : Z) (c : A) :
  write l i c = Ok l' -> lookupZ l' i = Some c.
Proof.
  unfold write, in_range, lookupZ. destruct (Z.leb_spec 0 i) as [Hi|Hi]; simpl; [|discriminate].
  destruct (Z.ltb_spec i (Z.of_nat (length l))) as [Hlt|Hge]; [|discriminate].
  intros H. inversion H; subst. destruct (Z.ltb_spec i 0); [lia|].
  apply list_lookup_insert_eq. lia.
Qed.

Lemma write_in_range {A} (l : list A) (i : Z) (c : A) :
  in_range l i = true -> write l i c = Ok (<[Z.to_nat i := c]> l).
Proof. unfold write. intros ->. reflexivity. Qed.

Lemma in_range_length {A} (l l' : list A) (i : Z) :
  length l' = length l -> in_range l' i = in_range l i.
Proof. unfold in_range. intros ->. reflexivity. Qed.

(** The row table is filled for every height, interlaced or not, with
    rows of the image. *)
Lemma row_table_filled (interlace : bool) (h : nat) :
  exists row2, row_table interlace h = Ok row2 /\
    forall y, (y < h)%nat -> exists r2, row_at row2 y = Ok r2 /\ (r2 < h)%nat.
Proof.
  unfold row_table. destruct interlace.
  - rewrite interlaced_rows_assigns. eexists. split; [reflexivity|]. intros y Hy.
    apply emitted_rows_elem in Hy. apply list_elem_of_lookup in Hy. destruct Hy as [k Hk].
    exists k. unfold row_at.
    rewrite (assign_rows_lookup (emitted_rows h) 0 (replicate h None) k y);
      [split; [reflexivity|] | apply emitted_rows_NoDup | | exact Hk].
    + apply lookup_lt_Some in Hk. rewrite emitted_rows_length in Hk. exact Hk.
    + intros z Hz. rewrite length_replicate. apply emitted_rows_elem. exact Hz.
  - exists (plain_rows h). split; [reflexivity|]. intros y Hy. exists y.
    unfold row_at. rewrite plain_rows_identity, list_lookup_fmap, lookup_seq_lt by exact Hy.
    split; [reflexivity | exact Hy].
Qed.

Lemma fmap_as_bind {A B} (f : A -> B) (l : list A) : (x ← l; [f x]) = f <$> l.
Proof. induction l as [|a l IH]; [reflexivity|]. cbn. rewrite <- IH. reflexivity. Qed.

Lemma NoDup_coords (h w : nat) : NoDup (coords h w).
Proof.
  unfold coords. induction h as [|h IH]; [constructor|].
  rewrite seq_S, bind_app. simpl. rewrite app_nil_r.
  apply NoDup_app. split; [exact IH|]. split.
  - intros [y x] Hin Hin'. apply (elem_of_coords h w y x) in Hin.
    rewrite fmap_as_bind in Hin'. apply list_elem_of_fmap in Hin'.
    destruct Hin' as (x' & E & _). inversion E; subst. lia.
  - rewrite fmap_as_bind. apply NoDup_fmap_2; [|apply NoDup_seq].
    intros a b E. inversion E. reflexivity.
Qed.

Section Fill.
Variable canvas_width : Z.
Variable bkgd_color : Z.
Variable img_top img_left : Z.

(** The two loops of disposal method 2 over a list of pixels. *)
Lemma fill_effect (l : list (nat * nat)) :
  forall px px',
    for_each (fun px '(y, x) => write px (offset canvas_width img_top img_left y x) bkgd_color)
             l px = Ok px' ->
    length px' = length px /\
    (forall y x, (y, x) ∈ l ->
       lookupZ px' (offset canvas_width img_top img_left y x) = Some bkgd_color) /\
    (forall off, (forall y x, (y, x) ∈ l -> offset canvas_width img_top img_left y x <> off) ->
       lookupZ px' off = lookupZ px off) /\
    (forall off, lookupZ px off = Some bkgd_color -> lookupZ px' off = Some bkgd_color).
Proof.
  induction l as [|[y x] l IH]; intros px px' H; cbn [for_each] in H.
  - inversion H; subst. split; [reflexivity|]. split; [|split].
    + intros y x Hin. inversion Hin.
    + reflexivity.
    + intros off E. exact E.
  - inv_bind H. rename a into px1. destruct (IH _ _ H) as (Hlen & Hin & Hout & Hkeep).
    pose proof (write_length _ _ _ _ Ha) as Hlen1.
    pose proof (write_same _ _ _ _ Ha) as Hsame.
    split; [congruence|]. split; [|split].
    + intros y' x' Hyx. apply elem_of_cons in Hyx. destruct Hyx as [E|Hyx].
      * inversion E; subst. apply Hkeep. exact Hsame.
      * apply Hin. exact Hyx.
    + intros off Hoff. rewrite Hout.
      * apply (write_other _ _ _ _ _ Ha). intros E. apply (Hoff y x); [left | congruence].
      * intros y' x' Hyx. apply Hoff. right. exact Hyx.
    + intros off E. apply Hkeep.
      destruct (Z.eq_dec off (offset canvas_width img_top img_left y x)) as [->|Hne];
        [exact Hsame|].
      rewrite (write_other _ _ _ _ _ Ha) by exact Hne. exact E.
Qed.

Lemma fill_total (l : list (nat * nat)) :
  forall px,
    (forall y x, (y, x) ∈ l ->
       in_range px (offset canvas_width img_top img_left y x) = true) ->
    exists px',
      for_each (fun px '(y, x) => write px (offset canvas_width img_top img_left y x) bkgd_color)
               l px = Ok px'.
Proof.
  induction l as [|[y x] l IH]; intros px Hin; cbn [for_each].
  - eexists. reflexivity.
  - cbv beta iota. rewrite (write_in_range px _ bkgd_color (Hin y x ltac:(left))).
    rewrite bind_Ok_l. apply IH. intros y' x' Hyx.
    rewrite (in_range_length px) by apply length_insert. apply Hin. right. exact Hyx.
Qed.

End Fill.

Lemma in_rect_spec (t l h w cx cy : Z) :
  in_rect t l h w cx cy = true <-> (l <= cx < l + w /\ t <= cy < t + h).
Proof.
  unfold in_rect. rewrite !andb_true_iff, !Z.leb_le, !Z.ltb_lt. lia.
Qed.

Section Rect.
Variable canvas_width : Z.
Variable img_top img_left img_height img_width : Z.
Hypothesis left_nonneg : 0 <= img_left.
Hypothesis fits_columns : img_left + img_width <= canvas_width.

(** A pixel of the canvas with its column in the canvas is at the offset
    of a pixel of the image exactly when it lies in the rectangle. *)
Lemma offset_in_rect (cx cy : Z) :
  0 <= cx < canvas_width ->
  (exists y x, (y, x) ∈ coords (Z.to_nat img_height) (Z.to_nat img_width) /\
               offset canvas_width img_top img_left y x = cy * canvas_width + cx) <->
  in_rect img_top img_left img_height img_width cx cy = true.
Proof.
  intros Hcx. rewrite in_rect_spec. unfold offset. split.
  - intros (y & x & Hin & E). apply elem_of_coords in Hin.
    assert (cy = img_top + Z.of_nat y) by nia. split; nia.
  - intros [Hx Hy]. exists (Z.to_nat (cy - img_top)), (Z.to_nat (cx - img_left)).
    split; [apply elem_of_coords; lia|].
    rewrite !Z2Nat.id by lia. f_equal; lia.
Qed.

End Rect.

(** X17: disposal method 2 on a rectangle that lies in the canvas sets
    the pixels of the rectangle to the background color and leaves every
    other pixel of the canvas as it is. *)
Theorem clear_rect_fills_the_rectangle (canvas_width bkgd_color : Z)
    (img_top img_left img_height img_width : Z) (pixels : list Z) :
  0 <= img_top -> 0 <= img_left ->
  img_left + img_width <= canvas_width ->
  (img_top + img_height) * canvas_width <= Z.of_nat (length pixels) ->
  exists pixels',
    clear_rect canvas_width bkgd_color img_top img_left img_height img_width pixels
      = Ok pixels' /\
    length pixels' = length pixels /\
    forall cx cy, 0 <= cx < canvas_width ->
      lookupZ pixels' (cy * canvas_width + cx) =
      if in_rect img_top img_left img_height img_width cx cy then Some bkgd_color
      else lookupZ pixels (cy * canvas_width + cx).
Proof.
  intros Htop Hleft Hfit Hrows. unfold clear_rect.
  destruct (fill_total canvas_width bkgd_color img_top img_left
              (coords (Z.to_nat img_height) (Z.to_nat img_width)) pixels) as [px' Hrun].
  { intros y x Hin. apply elem_of_coords in Hin. destruct Hin as [Hy Hx].
    unfold in_range, offset. apply andb_true_iff. rewrite Z.leb_le, Z.ltb_lt.
    assert ((img_top + Z.of_nat y + 1) * canvas_width <= (img_top + img_height) * canvas_width)
      by (apply Z.mul_le_mono_nonneg_r; lia).
    split; nia. }
  exists px'. split; [exact Hrun|].
  destruct (fill_effect _ _ _ _ _ _ _ Hrun) as (Hlen & Hin & Hout & _).
  split; [exact Hlen|]. intros cx cy Hcx.
  destruct (in_rect img_top img_left img_height img_width cx cy) eqn:E.
  - apply (offset_in_rect canvas_width img_top img_left img_height img_width Hleft Hfit
             cx cy Hcx) in E.
    destruct E as (y & x & Hyx & <-). apply Hin. exact Hyx.
  - apply Hout. intros y x Hyx Hoff.
    assert (in_rect img_top img_left img_height img_width cx cy = true) as E'
      by (apply (offset_in_rect canvas_width img_top img_left img_height img_width
                   Hleft Hfit cx cy Hcx); exists y, x; split; assumption).
    congruence.
Qed.

Lemma clear_rect_fills_the_rectangle_witness :
  exists pixels',
    clear_rect 2 9 0 0 1 1 [7; 7; 7; 7] = Ok pixels' /\
    length pixels' = 4%nat /\
    lookupZ pixels' (0 * 2 + 0) = Some 9 /\
    lookupZ pixels' (1 * 2 + 0) = Some 7.
Proof.
  destruct (clear_rect_fills_the_rectangle 2 9 0 0 1 1 [7; 7; 7; 7]
              ltac:(lia) ltac:(lia) ltac:(lia) ltac:(simpl; lia)) as (px' & Hrun & Hlen & Heff).
  exists px'. split; [exact Hrun|]. split; [exact Hlen|]. split.
  - apply (Heff 0 0). lia.
  - apply (Heff 0 1). lia.
Defined.

Section Frame.
Variable canvas_width : Z.
Variable img : Blocks.Image.
Variable row2 : rows_t.
Variable transparent : bool.
Variable trans_idx : Z.

Lemma draw_pixel_paints (px px' : list Z) (y x r2 : nat) (ix : Z) (c : Blocks.Color) :
  draw_pixel canvas_width img row2 transparent trans_idx px (y, x) = Ok px' ->
  row_at row2 y = Ok r2 ->
  read (Blocks.index img) (Z.of_nat r2 * Blocks.width img + Z.of_nat x) = Ok ix ->
  transparent = false \/ ix <> trans_idx ->
  read (Blocks.ct img) ix = Ok c ->
  lookupZ px' (offset canvas_width (Blocks.top img) (Blocks.left img) y x) = Some (pixel_of c).
Proof.
  unfold draw_pixel. intros H Hr Hi Hop Hc. rewrite Hr, bind_Ok_l, Hi, bind_Ok_l in H.
  assert ((transparent && negb (ix =? trans_idx)) || negb transparent = true) as Hcond.
  { destruct Hop as [->|Hne]; [reflexivity|].
    destruct transparent; [|reflexivity]. simpl.
    destruct (Z.eqb_spec ix trans_idx); [contradiction | reflexivity]. }
  rewrite Hcond, Hc, bind_Ok_l in H. apply write_same in H. exact H.
Qed.

Lemma draw_pixels_paint (l : list (nat * nat)) :
  NoDup l ->
  (forall a b, a ∈ l -> b ∈ l ->
     offset canvas_width (Blocks.top img) (Blocks.left img) a.1 a.2 =
     offset canvas_width (Blocks.top img) (Blocks.left img) b.1 b.2 -> a = b) ->
  forall px px',
    for_each (draw_pixel canvas_width img row2 transparent trans_idx) l px = Ok px' ->
    forall y x r2 ix c,
      (y, x) ∈ l ->
      row_at row2 y = Ok r2 ->
      read (Blocks.index img) (Z.of_nat r2 * Blocks.width img + Z.of_nat x) = Ok ix ->
      transparent = false \/ ix <> trans_idx ->
      read (Blocks.ct img) ix = Ok c ->
      lookupZ px' (offset canvas_width (Blocks.top img) (Blocks.left img) y x)
      = Some (pixel_of c).
Proof.
  induction l as [|[y0 x0] l IH]; intros Hnd Hinj px px' H y x r2 ix c Hin Hr Hi Hop Hc.
  - inversion Hin.
  - apply NoDup_cons in Hnd. destruct Hnd as [Hfresh Hnd].
    cbn [for_each] in H. inv_bind H. rename a into px1.
    apply elem_of_cons in Hin. destruct Hin as [E|Hin].
    + inversion E; subst y0 x0.
      destruct (draw_pixels_effect _ _ _ _ _ _ _ _ H) as (_ & Hrest).
      rewrite Hrest.
      * apply (draw_pixel_paints px px1 y x r2 ix c); assumption.
      * intros y' x' Hin' Eoff. exfalso. apply Hfresh.
        rewrite <- (Hinj (y', x') (y, x)); [exact Hin' | right; exact Hin' | left | exact Eoff].
    + apply (IH Hnd) with (px := px1) (r2 := r2) (ix := ix); try assumption.
      intros a b Ha' Hb'. apply Hinj; right; assumption.
Qed.

Lemma draw_pixels_total (h w : nat) (n : nat) (l : list (nat * nat)) :
  (forall y, (y < h)%nat -> exists r2, row_at row2 y = Ok r2 /\ (r2 < h)%nat) ->
  (forall r2 x, (r2 < h)%nat -> (x < w)%nat ->
     exists ix c, read (Blocks.index img) (Z.of_nat r2 * Blocks.width img + Z.of_nat x) = Ok ix /\
                  read (Blocks.ct img) ix = Ok c) ->
  (forall y x, (y < h)%nat -> (x < w)%nat ->
     0 <= offset canvas_width (Blocks.top img) (Blocks.left img) y x < Z.of_nat n) ->
  (forall y x, (y, x) ∈ l -> (y < h)%nat /\ (x < w)%nat) ->
  forall px, length px = n ->
    exists px', for_each (draw_pixel canvas_width img row2 transparent trans_idx) l px = Ok px'.
Proof.
  intros Hrows Hread Hoff. induction l as [|[y x] l IH]; intros Hl px Hlen; cbn [for_each].
  - eexists. reflexivity.
  - destruct (Hl y x ltac:(left)) as [Hy Hx].
    destruct (Hrows y Hy) as (r2 & Hr & Hr2).
    destruct (Hread r2 x Hr2 Hx) as (ix & c & Hi & Hc).
    assert (exists px1, draw_pixel canvas_width img row2 transparent trans_idx px (y, x) = Ok px1
                        /\ length px1 = n) as (px1 & Hdraw & Hlen1).
    { unfold draw_pixel. rewrite Hr, bind_Ok_l, Hi, bind_Ok_l.
      destruct ((transparent && negb (ix =? trans_idx)) || negb transparent).
      - rewrite Hc, bind_Ok_l. rewrite write_in_range.
        + eexists. split; [reflexivity|]. rewrite length_insert. exact Hlen.
        + unfold in_range. rewrite Hlen. apply andb_true_iff.
          rewrite Z.leb_le, Z.ltb_lt. apply Hoff; assumption.
      - exists px. split; [reflexivity | exact Hlen]. }
    rewrite Hdraw, bind_Ok_l. apply IH; [|exact Hlen1].
    intros y' x' Hin. apply Hl. right. exact Hin.
Qed.

End Frame.

Lemma lookupZ_elem_of {A} (l : list A) (i : Z) (x : A) : lookupZ l i = Some x -> x ∈ l.
Proof.
  unfold lookupZ. destruct (i <? 0); [discriminate|]. apply list_elem_of_lookup_2.
Qed.

Lemma read_in_range {A} (l : list A) (i : Z) :
  0 <= i < Z.of_nat (length l) -> exists x, read l i = Ok x /\ x ∈ l.
Proof.
  intros Hi. destruct (lookupZ_in_range l i) as [x Hx].
  { unfold in_range. apply andb_true_iff. rewrite Z.leb_le, Z.ltb_lt. exact Hi. }
  exists x. unfold read. rewrite Hx. split; [reflexivity|].
  apply (lookupZ_elem_of l i). exact Hx.
Qed.

(** X18: for an image within the columns of the canvas, every pixel that
    is not passed over as transparent ends up on the canvas with the
    color its index has in the color table of the image, alpha 255, at
    the offset of its row and column; the row of the index that is read
    is the one the row table gives. *)
Theorem composite_paints_opaque_pixels (canvas_width : Z) (img : Blocks.Image)
    (transparent : bool) (trans_idx : Z) (pixels pixels' : list Z) :
  0 <= Blocks.left img ->
  Blocks.left img + Blocks.width img <= canvas_width ->
  composite canvas_width img transparent trans_idx pixels = Ok pixels' ->
  forall row2 y x r2 ix c,
    row_table (Blocks.interlace img) (Z.to_nat (Blocks.height img)) = Ok row2 ->
    (y < Z.to_nat (Blocks.height img))%nat -> (x < Z.to_nat (Blocks.width img))%nat ->
    row_at row2 y = Ok r2 ->
    read (Blocks.index img) (Z.of_nat r2 * Blocks.width img + Z.of_nat x) = Ok ix ->
    transparent = false \/ ix <> trans_idx ->
    read (Blocks.ct img) ix = Ok c ->
    lookupZ pixels' (offset canvas_width (Blocks.top img) (Blocks.left img) y x)
    = Some (color_rgba (Blocks.r c) (Blocks.g c) (Blocks.b c) 255).
Proof.
  intros Hleft Hfit H row2 y x r2 ix c Hrows Hy Hx Hr Hi Hop Hc.
  unfold composite in H. rewrite Hrows, bind_Ok_l in H.
  apply (draw_pixels_paint canvas_width img row2 transparent trans_idx
           (coords (Z.to_nat (Blocks.height img)) (Z.to_nat (Blocks.width img))))
    with (px := pixels) (r2 := r2) (ix := ix); try assumption.
  - apply NoDup_coords.
  - intros [y1 x1] [y2 x2] H1 H2 E. apply elem_of_coords in H1, H2.
    unfold offset in E. simpl in E.
    assert (Z.of_nat y1 = Z.of_nat y2) by nia.
    assert (Z.of_nat x1 = Z.of_nat x2) by nia. f_equal; lia.
  - apply elem_of_coords. split; assumption.
Qed.

Lemma composite_paints_opaque_pixels_witness :
  composite 2 one_black_pixel false 0 [7; 7; 7; 7] = Ok [0xFF000000; 7; 7; 7] /\
  lookupZ [0xFF000000; 7; 7; 7] (offset 2 0 0 0 0) = Some (color_rgba 0 0 0 255).
Proof.
  assert (composite 2 one_black_pixel false 0 [7; 7; 7; 7] = Ok [0xFF000000; 7; 7; 7]) as H
    by (vm_compute; reflexivity).
  split; [exact H|].
  apply (composite_paints_opaque_pixels 2 one_black_pixel false 0 [7; 7; 7; 7]
           [0xFF000000; 7; 7; 7] ltac:(simpl; lia) ltac:(simpl; lia) H
           [Some 0%nat] 0%nat 0%nat 0%nat 0 black);
    try reflexivity; try (simpl; lia).
Defined.

(** X19: drawing an image never leaves the vectors when the image is
    well formed: its rectangle lies in the canvas, its index holds
    width x height entries, and every entry is an index of its color
    table.  The canvas keeps its size. *)
Theorem composite_of_a_well_formed_frame (canvas_width : Z) (img : Blocks.Image)
    (transparent : bool) (trans_idx : Z) (pixels : list Z) :
  0 <= Blocks.top img -> 0 <= Blocks.left img ->
  Blocks.left img + Blocks.width img <= canvas_width ->
  (Blocks.top img + Blocks.height img) * canvas_width <= Z.of_nat (length pixels) ->
  Z.of_nat (length (Blocks.index img)) = Blocks.width img * Blocks.height img ->
  Forall (fun ix => 0 <= ix < Z.of_nat (length (Blocks.ct img))) (Blocks.index img) ->
  exists pixels',
    composite canvas_width img transparent trans_idx pixels = Ok pixels' /\
    length pixels' = length pixels.
Proof.
  intros Htop Hleft Hfit Hrows Hsize Hct. unfold composite.
  destruct (row_table_filled (Blocks.interlace img) (Z.to_nat (Blocks.height img)))
    as (row2 & Htable & Hfilled).
  rewrite Htable, bind_Ok_l.
  destruct (draw_pixels_total canvas_width img row2 transparent trans_idx
              (Z.to_nat (Blocks.height img)) (Z.to_nat (Blocks.width img))
              (length pixels)
              (coords (Z.to_nat (Blocks.height img)) (Z.to_nat (Blocks.width img))))
    with (px := pixels) as [px' Hrun]; try reflexivity.
  - exact Hfilled.
  - intros r2 x Hr2 Hx.
    destruct (read_in_range (Blocks.index img)
                (Z.of_nat r2 * Blocks.width img + Z.of_nat x)) as (ix & Hix & Hin).
    { rewrite Hsize. nia. }
    rewrite Forall_forall in Hct.
    destruct (read_in_range (Blocks.ct img) ix (Hct ix Hin)) as (c & Hc & _).
    exists ix, c. split; assumption.
  - intros y x Hy Hx. unfold offset.
    assert ((Blocks.top img + Z.of_nat y + 1) * canvas_width
            <= (Blocks.top img + Blocks.height img) * canvas_width)
      by (apply Z.mul_le_mono_nonneg_r; lia).
    split; nia.
  - intros y x Hin. apply elem_of_coords in Hin. exact Hin.
  - exists px'. split; [exact Hrun|].
    apply (draw_pixels_effect _ _ _ _ _ _ _ _ Hrun).
Qed.

Lemma composite_of_a_well_formed_frame_witness :
  exists pixels',
    composite 2 one_black_pixel false 0 [7; 7; 7; 7] = Ok pixels' /\
    length pixels' = 4%nat.
Proof.
  apply (composite_of_a_well_formed_frame 2 one_black_pixel false 0 [7; 7; 7; 7]);
    try (simpl; lia).
  repeat constructor; simpl; lia.
Defined.

End CanvasFacts.

(** ** The viewer loop, frame after frame *)

Module ViewerFacts.
Import Parser Playback Fixtures PlaybackFacts CompositeFacts CanvasFacts.

Section Session.
Variable scr : Screen.
Variable blocks : list Blocks.GIFBlock.

Lemma iterate_snoc (c : Z) (n : nat) :
  forall v, iterate scr blocks (S n) c v =
            iterate scr blocks n c v ≫= iteration scr blocks c.
Proof.
  induction n as [|n IH]; intros v.
  - cbn [iterate]. rewrite bind_Ok_l. destruct (iteration scr blocks c v); reflexivity.
  - change (iterate scr blocks (S (S n)) c v)
      with (iteration scr blocks c v ≫= iterate scr blocks (S n) c).
    change (iterate scr blocks (S n) c v)
      with (iteration scr blocks c v ≫= iterate scr blocks n c).
    destruct (iteration scr blocks c v) as [v1|e]; [|reflexivity].
    rewrite !bind_Ok_l. apply IH.
Qed.

(** What [play] is made of. *)
Lemma play_parts (n : nat) (v : viewer) :
  play scr blocks n = Ok v ->
  exists c v0, background scr = Ok c /\ init scr = Ok v0 /\
               next v0 = 0%nat /\ doRender v0 = false /\
               iterate scr blocks n c v0 = Ok v.
Proof.
  unfold play. intros H. inv_bind H. rename a into c. inv_bind H. rename a into v0.
  exists c, v0. split; [exact Ha|]. split; [exact Ha0|].
  unfold init in Ha0. inv_bind Ha0. inversion Ha0; subst; simpl. tauto.
Qed.

Lemma play_S (n : nat) (v v' : viewer) :
  play scr blocks n = Ok v -> play scr blocks (S n) = Ok v' ->
  exists c, background scr = Ok c /\ iteration scr blocks c v = Ok v'.
Proof.
  intros H H'. apply play_parts in H. destruct H as (c & v0 & Hb & Hi & _ & _ & Hrun).
  exists c. split; [exact Hb|]. unfold play in H'. rewrite Hb, bind_Ok_l, Hi, bind_Ok_l in H'.
  rewrite iterate_snoc, Hrun, bind_Ok_l in H'. exact H'.
Qed.

Lemma iteration_rendered (c : Z) (v v' : viewer) :
  doRender v = false -> iteration scr blocks c v = Ok v' -> doRender v' = false.
Proof.
  unfold iteration. intros Hr H.
  destruct (blocks !! next v) as [blk|]; [|discriminate]. inv_bind H.
  destruct (negb (doRender a)) eqn:E.
  - inversion H; subst. destruct (doRender v'); [discriminate | reflexivity].
  - destruct (_ <? _); [discriminate|]. apply dispose_keeps in H. tauto.
Qed.

(** At the end of every iteration nothing is left to render, the block
    index has gone round the list, and once an image has been looked at
    [prev] is a copy of the canvas. *)
Lemma play_invariant (n : nat) (v : viewer) :
  play scr blocks n = Ok v ->
  next v = (n mod length blocks)%nat /\ doRender v = false /\
  ((exists j img, (j < n)%nat /\ visited blocks j = Some (Blocks.BT_IMAGE img)) ->
   prev v = pixels v).
Proof.
  intros H. apply play_parts in H. destruct H as (c & v0 & _ & _ & Hn0 & Hd0 & Hrun).
  pose (I := fun (k : nat) (w : viewer) =>
               next w = (k mod length blocks)%nat /\ doRender w = false /\
               ((exists j img, (j < k)%nat /\ visited blocks j = Some (Blocks.BT_IMAGE img)) ->
                prev w = pixels w)).
  apply (iterate_invariant scr blocks c I n) with (n := n) (k := 0%nat) (v := v0);
    [ | lia | | exact Hrun].
  - intros k w w' Hk (Hn & Hd & Hp) Hit. split; [|split].
    + rewrite (iteration_next scr blocks c w w' Hit), Hn. apply mod_succ.
    + apply (iteration_rendered c w w' Hd Hit).
    + intros (j & img & Hj & Hvis).
      apply (prev_is_canvas_after_a_frame scr blocks c w w' Hd); [|exact Hit].
      destruct (Nat.eq_dec j k) as [->|Hne].
      * right. exists img. rewrite Hn. exact Hvis.
      * left. apply Hp. exists j, img. split; [lia | exact Hvis].
  - split; [rewrite Hn0; symmetry; apply Nat.Div0.mod_0_l|]. split; [exact Hd0|].
    intros (j & img & Hj & _). lia.
Qed.

End Session.

Section Size.
Variable scr : Screen.
Variable blocks : list Blocks.GIFBlock.
Variable c : Z.

Lemma canvas_sized_length (px px' : list Z) :
  length px' = length px -> canvas_sized scr px -> canvas_sized scr px'.
Proof.
  unfold canvas_sized. intros Hlen [H| ->]; [left; congruence | right].
  apply nil_length_inv. exact Hlen.
Qed.

Lemma visit_sized (blk : Blocks.GIFBlock) (v v' : viewer) :
  visit scr blk v = Ok v' ->
  canvas_sized scr (pixels v) /\ canvas_sized scr (prev v) ->
  canvas_sized scr (pixels v') /\ canvas_sized scr (prev v').
Proof.
  intros H [Hp Hq]. destruct blk as [img|gc|ae|cb]; simpl in H.
  - apply bind_Ok in H. destruct H as (px1 & Hdraw & H). inversion H; subst; simpl.
    split; [|exact Hq]. apply (canvas_sized_length (pixels v)); [|exact Hp].
    unfold composite in Hdraw. apply bind_Ok in Hdraw. destruct Hdraw as (row2 & _ & Hdraw).
    apply (draw_pixels_effect _ _ _ _ _ _ _ _ Hdraw).
  - inversion H; subst; simpl. split; assumption.
  - inversion H; subst. split; assumption.
  - inversion H; subst. split; assumption.
Qed.

Lemma dispose_sized (v v' : viewer) :
  dispose scr c v = Ok v' ->
  canvas_sized scr (pixels v) /\ canvas_sized scr (prev v) ->
  canvas_sized scr (pixels v') /\ canvas_sized scr (prev v').
Proof.
  unfold dispose. intros H [Hp Hq].
  apply bind_Ok in H. destruct H as (px & Hpx & H). inversion H; subst; simpl.
  assert (canvas_sized scr px) as Hs; [|split; exact Hs].
  destruct ((disposal v =? 0) || (disposal v =? 1)); [inversion Hpx; subst; exact Hp|].
  destruct (disposal v =? 2).
  - apply (canvas_sized_length (pixels v)); [|exact Hp]. unfold clear_rect in Hpx.
    apply (fill_effect _ _ _ _ _ _ _ Hpx).
  - destruct (disposal v =? 3); inversion Hpx; subst; assumption.
Qed.

Lemma iteration_sized (v v' : viewer) :
  iteration scr blocks c v = Ok v' ->
  canvas_sized scr (pixels v) /\ canvas_sized scr (prev v) ->
  canvas_sized scr (pixels v') /\ canvas_sized scr (prev v').
Proof.
  unfold iteration. intros H Hs.
  destruct (blocks !! next v) as [blk|]; [|discriminate].
  apply bind_Ok in H. destruct H as (w & Hw & H).
  apply visit_sized in Hw; [|exact Hs].
  destruct (negb (doRender w)); [inversion H; subst; exact Hw|].
  destruct (_ <? _); [discriminate|].
  apply (dispose_sized w v' H Hw).
Qed.

End Size.

Section Steady.
Variable scr : Screen.
Variable blocks : list Blocks.GIFBlock.
Variable c : Z.
Hypothesis no_restore :
  forall gc, Blocks.BT_GRAPHIC_CONTROL gc ∈ blocks -> Blocks.disposal_method gc <> 3.

(** Without disposal method 3 an iteration keeps the number of pixels
    of the canvas. *)
Lemma iteration_steady (v v' : viewer) :
  iteration scr blocks c v = Ok v' ->
  disposal v <> 3 ->
  disposal v' <> 3 /\ length (pixels v') = length (pixels v).
Proof.
  unfold iteration. intros H Hd.
  destruct (blocks !! next v) as [blk|] eqn:Hblk; [|discriminate].
  apply list_elem_of_lookup_2 in Hblk.
  apply bind_Ok in H. destruct H as (w & Hw & H).
  assert (disposal w <> 3 /\ length (pixels w) = length (pixels v)) as [Hdw Hlw].
  { destruct blk as [img|gc|ae|cb]; simpl in Hw.
    - apply bind_Ok in Hw. destruct Hw as (px1 & Hdraw & Hw). inversion Hw; subst; simpl.
      split; [exact Hd|]. unfold composite in Hdraw. apply bind_Ok in Hdraw.
      destruct Hdraw as (row2 & _ & Hdraw).
      apply (draw_pixels_effect _ _ _ _ _ _ _ _ Hdraw).
    - inversion Hw; subst; simpl. split; [apply no_restore; exact Hblk | reflexivity].
    - inversion Hw; subst. split; [exact Hd | reflexivity].
    - inversion Hw; subst. split; [exact Hd | reflexivity]. }
  destruct (negb (doRender w)); [inversion H; subst; split; assumption|].
  destruct (_ <? _); [discriminate|].
  unfold dispose in H. apply bind_Ok in H. destruct H as (px & Hpx & H).
  inversion H; subst; simpl. split; [exact Hdw|]. rewrite <- Hlw.
  destruct ((disposal w =? 0) || (disposal w =? 1)); [inversion Hpx; subst; reflexivity|].
  destruct (disposal w =? 2).
  - unfold clear_rect in Hpx. apply (fill_effect _ _ _ _ _ _ _ Hpx).
  - destruct (Z.eqb_spec (disposal w) 3); [contradiction|].
    inversion Hpx; subst; reflexivity.
Qed.

End Steady.

(** X26: whatever the blocks are, the canvas and its copy [prev] hold
    [canvas_width * canvas_height] pixels, the size of the start, or no
    pixel at all, as [prev] does until the first frame has been shown.
    Drawing and the disposal methods other than 3 keep the number of
    pixels, so the canvas has its full size as long as no graphic control
    block asks for disposal method 3; method 3 replaces the canvas by
    [prev], which may be the empty one. *)
Theorem canvas_keeps_its_size (scr : Screen) (blocks : list Blocks.GIFBlock)
    (n : nat) (v : viewer) :
  play scr blocks n = Ok v ->
  (canvas_sized scr (pixels v) /\ canvas_sized scr (prev v)) /\
  ((forall gc, Blocks.BT_GRAPHIC_CONTROL gc ∈ blocks -> Blocks.disposal_method gc <> 3) ->
   length (pixels v) = Z.to_nat (canvas_width scr * canvas_height scr)).
Proof.
  unfold play. intros H.
  apply bind_Ok in H. destruct H as (c & _ & H).
  apply bind_Ok in H. destruct H as (v0 & Hinit & Hrun).
  assert (disposal v0 = 2 /\
          length (pixels v0) = Z.to_nat (canvas_width scr * canvas_height scr) /\
          prev v0 = []) as (Hd0 & Hl0 & Hp0).
  { unfold init in Hinit. apply bind_Ok in Hinit. destruct Hinit as (c' & _ & Hinit).
    inversion Hinit; subst; simpl. split; [reflexivity|].
    split; [apply length_replicate | reflexivity]. }
  split.
  - apply (iterate_invariant scr blocks c
             (fun _ w => canvas_sized scr (pixels w) /\ canvas_sized scr (prev w)) n)
      with (n := n) (k := 0%nat) (v := v0); [ | lia | | exact Hrun].
    + intros k w w' _ Hs Hit. apply (iteration_sized scr blocks c w w' Hit Hs).
    + split; [left; exact Hl0 | right; exact Hp0].
  - intros Hno.
    apply (iterate_invariant scr blocks c
             (fun _ w => disposal w <> 3 /\
                         length (pixels w) =
                         Z.to_nat (canvas_width scr * canvas_height scr)) n)
      with (n := n) (k := 0%nat) (v := v0); [ | lia | | exact Hrun].
    + intros k w w' _ [Hd Hl] Hit.
      destruct (iteration_steady scr blocks c Hno w w' Hit Hd) as [Hd' Hl'].
      split; [exact Hd' | congruence].
    + split; [rewrite Hd0; discriminate | exact Hl0].
Qed.

Lemma canvas_keeps_its_size_witness :
  (exists v, play (bare_screen 1 1) restore_previous_first 2 = Ok v /\
             canvas_sized (bare_screen 1 1) (pixels v) /\
             canvas_sized (bare_screen 1 1) (prev v)) /\
  (exists v, play (bare_screen 1 1) [Blocks.BT_IMAGE one_black_pixel] 3 = Ok v /\
             length (pixels v) = 1%nat).
Proof.
  split.
  - destruct (play (bare_screen 1 1) restore_previous_first 2) as [v|e] eqn:E;
      [|vm_compute in E; discriminate].
    exists v. split; [reflexivity|].
    apply (canvas_keeps_its_size (bare_screen 1 1) restore_previous_first 2 v E).
  - destruct (play (bare_screen 1 1) [Blocks.BT_IMAGE one_black_pixel] 3) as [v|e] eqn:E;
      [|vm_compute in E; discriminate].
    exists v. split; [reflexivity|].
    apply (canvas_keeps_its_size (bare_screen 1 1) [Blocks.BT_IMAGE one_black_pixel] 3 v E).
    intros gc Hin. apply list_elem_of_singleton in Hin. discriminate.
Defined.

(** X20: at the end of the [n]-th iteration the block index is [n]
    modulo the number of blocks, so the blocks are looked at in the order
    of the file, round and round, and no frame is left waiting to be
    rendered. *)
Theorem block_index_goes_round (scr : Screen) (blocks : list Blocks.GIFBlock)
    (n : nat) (v : viewer) :
  play scr blocks n = Ok v ->
  next v = (n mod length blocks)%nat /\ doRender v = false.
Proof.
  intros H. destruct (play_invariant scr blocks n v H) as (Hn & Hd & _).
  split; assumption.
Qed.

Lemma block_index_goes_round_witness :
  exists v, play (bare_screen 1 1) restore_previous_later 4 = Ok v /\
            next v = 1%nat /\ doRender v = false.
Proof.
  destruct (play (bare_screen 1 1) restore_previous_later 4) as [v|e] eqn:E.
  - exists v. split; [reflexivity|].
    apply (block_index_goes_round (bare_screen 1 1) restore_previous_later 4 v E).
  - vm_compute in E. discriminate.
Defined.

(** X21: a file without any block makes the first iteration read
    [blocks[0]] of an empty vector, whatever the screen descriptor
    says. *)
Theorem empty_block_list_is_read_out_of_bounds (scr : Screen) (n : nat) :
  play scr [] (S n) = Err UndefinedBehaviour.
Proof.
  unfold play, init, background, read.
  destruct (gct_flag scr); [destruct (lookupZ (gct scr) (bkgd_color_idx scr))|];
    reflexivity.
Qed.

(** X22: once an image has been looked at, disposal method 3 on an image
    gives back the canvas as it was before that image was drawn. *)
Theorem restore_previous_after_a_rendered_frame (scr : Screen)
    (blocks : list Blocks.GIFBlock) (n : nat) (v v' : viewer) (img : Blocks.Image) :
  play scr blocks n = Ok v ->
  (exists j img0, (j < n)%nat /\ visited blocks j = Some (Blocks.BT_IMAGE img0)) ->
  visited blocks n = Some (Blocks.BT_IMAGE img) ->
  disposal v = 3 ->
  play scr blocks (S n) = Ok v' ->
  pixels v' = pixels v /\ prev v' = pixels v'.
Proof.
  intros H Hseen Hvis Hd H'.
  destruct (play_invariant scr blocks n v H) as (Hn & Hr & Hp).
  destruct (play_S scr blocks n v v' H H') as (c & _ & Hit).
  unfold visited in Hvis. rewrite <- Hn in Hvis.
  split.
  - apply (restore_previous_after_first_frame scr blocks c v v' img Hvis (Hp Hseen) Hd Hit).
  - apply (prev_is_canvas_after_a_frame scr blocks c v v' Hr (or_introl (Hp Hseen)) Hit).
Qed.

Lemma restore_previous_after_a_rendered_frame_witness :
  exists v v',
    play (bare_screen 1 1) restore_previous_later 2 = Ok v /\
    play (bare_screen 1 1) restore_previous_later 3 = Ok v' /\
    pixels v' = pixels v /\ prev v' = pixels v'.
Proof.
  destruct (play (bare_screen 1 1) restore_previous_later 2) as [v|e] eqn:E;
    [|vm_compute in E; discriminate].
  destruct (play (bare_screen 1 1) restore_previous_later 3) as [v'|e] eqn:E';
    [|vm_compute in E'; discriminate].
  exists v, v'. split; [reflexivity|]. split; [reflexivity|].
  apply (restore_previous_after_a_rendered_frame (bare_screen 1 1) restore_previous_later
           2 v v' one_black_pixel E).
  - exists 0%nat, one_black_pixel. split; [lia | reflexivity].
  - reflexivity.
  - vm_compute in E. inversion E; subst. reflexivity.
  - exact E'.
Defined.

(** X23: with disposal method 2 in force, which it is from the start, an
    image within the columns of the canvas leaves no trace: after its
    iteration the rectangle of the image holds the background color and
    the rest of the canvas is as it was before the image was drawn. *)
Theorem overwrite_background_erases_the_frame (scr : Screen)
    (blocks : list Blocks.GIFBlock) (n : nat) (c : Z) (v v' : viewer)
    (img : Blocks.Image) :
  background scr = Ok c ->
  play scr blocks n = Ok v ->
  visited blocks n = Some (Blocks.BT_IMAGE img) ->
  disposal v = 2 ->
  0 <= Blocks.left img ->
  Blocks.left img + Blocks.width img <= canvas_width scr ->
  play scr blocks (S n) = Ok v' ->
  length (pixels v') = length (pixels v) /\
  forall cx cy, 0 <= cx < canvas_width scr ->
    lookupZ (pixels v') (cy * canvas_width scr + cx) =
    if in_rect (Blocks.top img) (Blocks.left img) (Blocks.height img) (Blocks.width img)
         cx cy
    then Some c
    else lookupZ (pixels v) (cy * canvas_width scr + cx).
Proof.
  intros Hb H Hvis Hd Hleft Hfit H'.
  destruct (play_invariant scr blocks n v H) as (Hn & _ & _).
  destruct (play_S scr blocks n v v' H H') as (c' & Hb' & Hit).
  rewrite Hb in Hb'. inversion Hb'; subst c'. clear Hb'.
  unfold visited in Hvis. rewrite <- Hn in Hvis.
  unfold iteration in Hit. rewrite Hvis in Hit.
  apply bind_Ok in Hit. destruct Hit as (w & Hw & Hit). simpl in Hw.
  apply bind_Ok in Hw. destruct Hw as (px1 & Hdraw & Hw).
  inversion Hw; subst w; clear Hw. simpl in Hit.
  destruct (_ <? _); [discriminate|].
  unfold dispose in Hit. simpl in Hit. rewrite Hd in Hit. simpl in Hit.
  apply bind_Ok in Hit. destruct Hit as (px2 & Hclear & Hit).
  inversion Hit; subst v'; clear Hit. simpl.
  unfold composite in Hdraw. apply bind_Ok in Hdraw. destruct Hdraw as (row2 & _ & Hdraw).
  destruct (draw_pixels_effect _ _ _ _ _ _ _ _ Hdraw) as (Hlen1 & Hkeep).
  unfold clear_rect in Hclear.
  destruct (fill_effect _ _ _ _ _ _ _ Hclear) as (Hlen2 & Hin & Hout & _).
  split; [congruence|]. intros cx cy Hcx.
  destruct (in_rect _ _ _ _ cx cy) eqn:E.
  - apply (offset_in_rect (canvas_width scr) (Blocks.top img) (Blocks.left img)
             (Blocks.height img) (Blocks.width img) Hleft Hfit cx cy Hcx) in E.
    destruct E as (y & x & Hyx & <-). apply Hin. exact Hyx.
  - assert (forall y x,
              (y, x) ∈ coords (Z.to_nat (Blocks.height img)) (Z.to_nat (Blocks.width img)) ->
              offset (canvas_width scr) (Blocks.top img) (Blocks.left img) y x
              <> cy * canvas_width scr + cx) as Hnone.
    { intros y x Hyx Hoff.
      assert (in_rect (Blocks.top img) (Blocks.left img) (Blocks.height img)
                (Blocks.width img) cx cy = true) as E'
        by (apply (offset_in_rect (canvas_width scr) (Blocks.top img) (Blocks.left img)
                     (Blocks.height img) (Blocks.width img) Hleft Hfit cx cy Hcx);
            exists y, x; split; assumption).
      congruence. }
    rewrite (Hout _ Hnone). apply Hkeep.
    intros y x Hyx Hoff. exfalso. apply (Hnone y x Hyx Hoff).
Qed.

Lemma overwrite_background_erases_the_frame_witness :
  exists v v',
    play (bare_screen 1 1) restore_previous_later 0 = Ok v /\
    play (bare_screen 1 1) restore_previous_later 1 = Ok v' /\
    length (pixels v') = length (pixels v) /\
    lookupZ (pixels v') (0 * 1 + 0) = Some 0xFFFFFFFF.
Proof.
  destruct (play (bare_screen 1 1) restore_previous_later 0) as [v|e] eqn:E;
    [|vm_compute in E; discriminate].
  destruct (play (bare_screen 1 1) restore_previous_later 1) as [v'|e] eqn:E';
    [|vm_compute in E'; discriminate].
  exists v, v'. split; [reflexivity|]. split; [reflexivity|].
  destruct (overwrite_background_erases_the_frame (bare_screen 1 1) restore_previous_later
              0 0xFFFFFFFF v v' one_black_pixel) as [Hlen Heff]; try reflexivity;
    try exact E; try exact E'; try (simpl; lia).
  - vm_compute in E. inversion E; subst. reflexivity.
  - split; [exact Hlen|]. apply (Heff 0 0). simpl. lia.
Defined.

End ViewerFacts.
